(** * Sweep-and-compress engine of the Hill-equation notebooks

    A shallow embedding of the Python cells of
    [src/hill_equation/98_DOP853.ipynb],
    [src/hill_equation/95_save_for_streamlit_unique_x_y.ipynb] (which also
    carries the cells of [97_filtering_t_x_y_Euclidean_values.ipynb]) and
    [96_from_picle_to_Pandas.ipynb].

    Numbers are IEEE-754 binary64 values ([PrimFloat.float]), indices are
    Python integers ([Z]), NumPy arrays and Python lists are [list]s, and a
    Python exception is a value of the [result] type. The operations that
    the numerical library rounds in its own way are parameters ([Numpy]). *)

From Stdlib Require Import String ZArith List Bool Lia Floats.
Import ListNotations.

Local Open Scope Z_scope.

(** ** Python outcomes: a value, a raised exception, or an exhausted loop budget *)

Module Py.

Inductive exn : Type :=
| IndexError
| ValueError
| ZeroDivisionError
| SolverError (msg : string).

Inductive result (A : Type) : Type :=
| Ok (a : A)
| Raise (e : exn)
| OutOfFuel.

Arguments Ok {A} a.
Arguments Raise {A} e.
Arguments OutOfFuel {A}.

Definition bind {A B : Type} (m : result A) (k : A -> result B) : result B :=
  match m with
  | Ok a => k a
  | Raise e => Raise e
  | OutOfFuel => OutOfFuel
  end.

(** [a[k]] on a list or a one-dimensional array: a negative [k] counts from
    the end, anything outside [-len, len) raises IndexError. *)
Definition getitem {A : Type} (a : list A) (k : Z) : result A :=
  let n := Z.of_nat (length a) in
  let k' := if k <? 0 then k + n else k in
  if (0 <=? k') && (k' <? n) then
    match nth_error a (Z.to_nat k') with
    | Some v => Ok v
    | None => Raise IndexError
    end
  else Raise IndexError.

(** [a[indices]] with a list of integers (NumPy integer-array indexing). *)
Fixpoint take {A : Type} (a : list A) (indices : list Z) : result (list A) :=
  match indices with
  | [] => Ok []
  | k :: rest =>
      bind (getitem a k) (fun v =>
      bind (take a rest) (fun vs => Ok (v :: vs)))
  end.

End Py.

Import Py.

Declare Scope result_scope.
Delimit Scope result_scope with res.
Notation "x <- m ;; k" := (bind m (fun x => k))
  (at level 61, m at next level, right associativity) : result_scope.
Local Open Scope result_scope.

(** ** Classes of IEEE-754 values, on the specification side of [PrimFloat] *)

Module SF.

Definition sf_is_nan (p : spec_float) : bool :=
  match p with S754_nan => true | _ => false end.

Definition sf_is_finite (p : spec_float) : bool :=
  match p with S754_zero _ | S754_finite _ _ _ => true | _ => false end.

Definition sf_nonneg (p : spec_float) : bool :=
  match p with
  | S754_zero _ => true
  | S754_infinity s | S754_finite s _ _ => negb s
  | S754_nan => false
  end.

(** The value is not NaN and carries the sign bit [s]. *)
Definition sf_signed (s : bool) (p : spec_float) : bool :=
  match p with
  | S754_zero s' | S754_infinity s' | S754_finite s' _ _ => Bool.eqb s s'
  | S754_nan => false
  end.

(** The magnitude of a finite value [m * 2^e] is the exponent of the least
    power of two above it, [digits m + e].  [sf_below B] holds of zeros and of
    finite values of magnitude at most [B]; [sf_above A] of infinities and of
    finite values of magnitude at least [A]. *)
Definition sf_below (B : Z) (r : spec_float) : Prop :=
  match r with
  | S754_zero _ => True
  | S754_finite _ m e => Z.pos (digits2_pos m) + e <= B
  | _ => False
  end.

Definition sf_above (A : Z) (r : spec_float) : Prop :=
  match r with
  | S754_finite _ m e => A <= Z.pos (digits2_pos m) + e
  | S754_infinity _ => True
  | _ => False
  end.

End SF.

Import SF.

(** ** The numerical library

    Two operations of the notebooks are computed by libraries whose rounding
    IEEE 754 does not fix. [v ** 2] on an [np.float64] is the C library's
    [pow(v, 2.0)], and [np.linalg.norm] of a one-dimensional array is the
    square root of a BLAS dot product, whose order of accumulation and use
    of fused operations depend on the build. Both are parameters of the
    model; [np.sqrt], [+], [-] and the comparisons are those of binary64. *)

Module Library.

(** [import numpy as np] *)
Class Numpy : Type := {
  (** [v ** 2] for an [np.float64] [v] *)
  power_2 : float -> float;
  (** [np.linalg.norm(v)] for a one-dimensional array [v] *)
  linalg_norm : list float -> float
}.

(** What every build has of [v ** 2]: for a [v] other than NaN the result is
    neither NaN nor negative (a number, [+0] or [+inf]). *)
Definition squares_sound (L : Numpy) : Prop :=
  forall v, is_nan v = false -> sf_nonneg (Prim2SF (power_2 v)) = true.

(** What every build has of the norm: it is [0] for an array of zeros, the
    empty array among them, and NaN for an array with a NaN element. *)
Definition norm_sound (L : Numpy) : Prop :=
  (forall n, linalg_norm (repeat 0%float n) = 0%float) /\
  (forall v, existsb is_nan v = true -> is_nan (linalg_norm v) = true).

(** A build that squares with one correctly rounded product and sums the
    squares of a norm from the first element on, each product and each sum
    rounded. *)
Definition products : Numpy := {|
  power_2 := fun v => (v * v)%float;
  linalg_norm := fun v => sqrt (fold_left (fun acc d => (acc + d * d)%float) v 0%float)
|}.

End Library.

Import Library.

(** ** Cell 1 of 98_DOP853.ipynb: [compress_trajectory] *)

Module Compress.

Section Trajectory.

Context {L : Numpy}.
Variables t x y : list float.
Variable delta : float.

(** [len(t)] *)
Definition len_t : Z := Z.of_nat (length t).

(** [np.sqrt((x[j] - x[i])**2 + (y[j] - y[i])**2)] *)
Definition dist (i j : Z) : result float :=
  xj <- getitem x j ;;
  xi <- getitem x i ;;
  yj <- getitem y j ;;
  yi <- getitem y i ;;
  Ok (sqrt (power_2 (xj - xi) + power_2 (yj - yi)))%float.

(** The inner loop [while j < len(t): ...]; returns [j] at loop exit. *)
Fixpoint inner_while (fuel : nat) (i j : Z) : result Z :=
  match fuel with
  | O => OutOfFuel
  | S fuel' =>
      if j <? len_t then
        d <- dist i j ;;
        if (delta <? d)%float then Ok j           (* dist > delta: break *)
        else inner_while fuel' i (j + 1)
      else Ok j
  end.

(** The outer loop [while i < len(t) - 1: ...]; returns [indices] at exit. *)
Fixpoint outer_while (fuel fuel_in : nat) (indices : list Z) (i : Z)
  : result (list Z) :=
  match fuel with
  | O => OutOfFuel
  | S fuel' =>
      if i <? len_t - 1 then
        j <- inner_while fuel_in i (i + 1) ;;
        if j >=? len_t then Ok indices            (* break *)
        else outer_while fuel' fuel_in (indices ++ [j]) j
      else Ok indices
  end.

Definition compress_trajectory_fuel (fuel : nat) : result (list Z) :=
  indices <- outer_while fuel fuel [0] 0 ;;
  last_index <- getitem indices (-1) ;;
  if negb (last_index =? len_t - 1) then Ok (indices ++ [len_t - 1])
  else Ok indices.

(** Each loop runs at most [len(t)] times; this budget is never exhausted
    (see [compress_trajectory_terminates]). *)
Definition compress_trajectory : result (list Z) :=
  compress_trajectory_fuel (S (length t)).

(** *** Vocabulary of the specification *)

(** [dist > delta] as the scan tests it; a raised lookup counts as no. *)
Definition far (i j : Z) : bool :=
  match dist i j with
  | Ok d => (delta <? d)%float
  | _ => false
  end.

(** [j] is the first index after [i] that is further than [delta] from [i]. *)
Definition scan_pair (i j : Z) : Prop :=
  i < j < len_t /\ far i j = true /\ forall k, i < k < j -> far i k = false.

(** No index after [i] is further than [delta] from [i]. *)
Definition tail_quiet (i : Z) : Prop :=
  forall k, i < k < len_t -> far i k = false.

(** [scans i l i']: starting at the retained index [i], the scan retains the
    indices [l] one after the other and stops at the retained index [i']. *)
Inductive scans : Z -> list Z -> Z -> Prop :=
| scans_nil i : scans i [] i
| scans_cons i j l i' : scan_pair i j -> scans j l i' -> scans i (j :: l) i'.

(** The returned list: index 0, the scanned indices, and [len(t) - 1] when
    the scan did not end there. *)
Definition finish (l : list Z) (i' : Z) : list Z :=
  0 :: l ++ (if i' =? len_t - 1 then [] else [len_t - 1]).

End Trajectory.

Fixpoint strictly_increasing (l : list Z) : bool :=
  match l with
  | a :: (b :: _) as rest => (a <? b) && strictly_increasing rest
  | _ => true
  end.

(** [range(n)] as a list. *)
Definition range (n : nat) : list Z := map Z.of_nat (seq 0 n).

(** The trajectory never comes back towards where it has been: among the
    first [n] samples, for [i <= j < k] the computed distance from [j] to [k]
    is at most the one from [i] to [k]. *)
Definition moves_away {L : Numpy} (x y : list float) (n : nat) : bool :=
  forallb (fun k =>
    forallb (fun j =>
      forallb (fun i =>
        match dist x y (Z.of_nat i) (Z.of_nat k),
              dist x y (Z.of_nat j) (Z.of_nat k) with
        | Ok d_ik, Ok d_jk => (d_jk <=? d_ik)%float
        | _, _ => false
        end) (seq 0 (S j))) (seq 0 k)) (seq 0 n).

(** The library squares every difference of two samples of [x], and of two
    samples of [y], as one correctly rounded product does; so it is when
    those squares are binary64 numbers, or NaN. *)
Definition squares_as_products (L : Numpy) (x y : list float) : Prop :=
  forall a b, (In a x /\ In b x) \/ (In a y /\ In b y) ->
    power_2 (b - a) = ((b - a) * (b - a))%float.

(** Number of indices the run adds after index 0. *)
Definition count_rest (t : list float) (l : list Z) (i' : Z) : nat :=
  (length l + if (i' =? len_t t - 1)%Z then 0 else 1)%nat.

(** A trajectory along the x axis whose second sample is NaN. *)
Definition nan_walk_t : list float := [0; 1; 2; 3]%float.
Definition nan_walk_x : list float := [0; nan; 5; 10]%float.
Definition nan_walk_y : list float := [0; 0; 0; 0]%float.

(** A trajectory that swings back and forth along the x axis. *)
Definition zigzag_t : list float := [0; 1; 2; 3; 4; 5; 6]%float.
Definition zigzag_x : list float := [0; 4; 7; 1; 7; 1; 7]%float.
Definition zigzag_y : list float := [0; 0; 0; 0; 0; 0; 0]%float.

End Compress.

Import Compress.



(** ** Statements that update the notebook's variables and may raise *)

Module Prog.

(** A block of statements run on the variables [S]: it ends normally with a
    value, or stops at a raised exception or an exhausted loop budget; in
    every case the variables are as the block left them. *)
Definition prog (S A : Type) : Type := S -> result A * S.

Definition ret {S A : Type} (a : A) : prog S A := fun s => (Ok a, s).

Definition pbind {S A B : Type} (m : prog S A) (k : A -> prog S B) : prog S B :=
  fun s =>
    match m s with
    | (Ok a, s') => k a s'
    | (Raise e, s') => (Raise e, s')
    | (OutOfFuel, s') => (OutOfFuel, s')
    end.

Definition get {S : Type} : prog S S := fun s => (Ok s, s).

Definition modify {S : Type} (f : S -> S) : prog S unit := fun s => (Ok tt, f s).

(** The value of an expression that may raise. *)
Definition eval {S A : Type} (r : result A) : prog S A := fun s => (r, s).

(** [try: body except Exception as e: handler(e)] *)
Definition try_except {S A : Type} (body : prog S A) (handler : exn -> prog S A)
  : prog S A :=
  fun s =>
    match body s with
    | (Raise e, s') => handler e s'
    | other => other
    end.

(** [for a in l: body(a)] *)
Fixpoint for_each {S A : Type} (l : list A) (body : A -> prog S unit) : prog S unit :=
  match l with
  | [] => ret tt
  | a :: rest => pbind (body a) (fun _ => for_each rest body)
  end.

End Prog.

Import Prog.

Declare Scope prog_scope.
Delimit Scope prog_scope with prog.
Notation "x <- m ;; k" := (pbind m (fun x => k))
  (at level 61, m at next level, right associativity) : prog_scope.
Notation "m ;;; k" := (pbind m (fun _ => k))
  (at level 61, right associativity) : prog_scope.

(** ** Solution records and the merge of Cell 3 *)

Module Records.

(** [(x0, y0, gamma1, gamma2, alpha)] *)
Definition key : Type := (float * float * float * float * float)%type.

(** [==] on two such tuples of numbers, component by component. Python
    compares the components of two tuples as objects, identity first; for
    parameters other than NaN that is [==] on the numbers, which is what the
    sweeps below are read with. The merge on objects, for every parameter,
    is in [Objects]. *)
Definition key_eqb (k1 k2 : key) : bool :=
  let '(a1, b1, c1, d1, e1) := k1 in
  let '(a2, b2, c2, d2, e2) := k2 in
  ((a1 =? a2) && (b1 =? b2) && (c1 =? c2) && (d1 =? d2) && (e1 =? e2))%float.

(** The [solutions] dict: method name to [(x, y)], in insertion order. *)
Definition solutions_dict : Type := list (string * (list float * list float)).

(** [d[m] = v] *)
Fixpoint dict_set (d : solutions_dict) (m : string) (v : list float * list float)
  : solutions_dict :=
  match d with
  | [] => [(m, v)]
  | (m', v') :: rest =>
      if String.eqb m' m then (m', v) :: rest else (m', v') :: dict_set rest m v
  end.

(** [d.get(m)] *)
Fixpoint dict_get (d : solutions_dict) (m : string)
  : option (list float * list float) :=
  match d with
  | [] => None
  | (m', v') :: rest => if String.eqb m' m then Some v' else dict_get rest m
  end.

Record record : Type := {
  rec_x0 : float;
  rec_y0 : float;
  rec_gamma1 : float;
  rec_gamma2 : float;
  rec_alpha : float;
  rec_t : list float;
  rec_solutions : solutions_dict
}.

(** [(rec['x0'], rec['y0'], rec['gamma1'], rec['gamma2'], rec['alpha'])] *)
Definition key_of (r : record) : key :=
  (rec_x0 r, rec_y0 r, rec_gamma1 r, rec_gamma2 r, rec_alpha r).

Definition new_record (k : key) (t : list float) (m : string)
    (v : list float * list float) : record :=
  let '(x0, y0, gamma1, gamma2, alpha) := k in
  {| rec_x0 := x0; rec_y0 := y0; rec_gamma1 := gamma1; rec_gamma2 := gamma2;
     rec_alpha := alpha; rec_t := t; rec_solutions := [(m, v)] |}.

(** [rec['solutions'][method] = v] *)
Definition set_solution (r : record) (m : string) (v : list float * list float)
  : record :=
  {| rec_x0 := rec_x0 r; rec_y0 := rec_y0 r; rec_gamma1 := rec_gamma1 r;
     rec_gamma2 := rec_gamma2 r; rec_alpha := rec_alpha r; rec_t := rec_t r;
     rec_solutions := dict_set (rec_solutions r) m v |}.

(** 97_filtering_t_x_y_Euclidean_values.ipynb, Cell 3:
    [for rec in records: if (...) == key: rec['solutions'][method] = ...; break]
    [else: records.append({...})] *)
Fixpoint merge_record (records : list record) (k : key) (m : string)
    (t : list float) (v : list float * list float) : list record :=
  match records with
  | [] => [new_record k t m v]
  | r :: rest =>
      if key_eqb (key_of r) k then set_solution r m v :: rest
      else r :: merge_record rest k m t v
  end.

(** The second branch of 96_from_picle_to_Pandas.ipynb, Cell 3:
    [for rec in records: if rec['x0']==x0 and ...: rec['solutions'][method] = ...; break] *)
Fixpoint update_record (records : list record) (k : key) (m : string)
    (v : list float * list float) : list record :=
  match records with
  | [] => []
  | r :: rest =>
      if key_eqb (key_of r) k then set_solution r m v :: rest
      else r :: update_record rest k m v
  end.

(** 96_from_picle_to_Pandas.ipynb, Cell 3:
    [if key not in [(r['x0'], ...) for r in records]: records.append({...})]
    [else: for rec in records: ...] *)
Definition merge_record_96 (records : list record) (k : key) (m : string)
    (t : list float) (v : list float * list float) : list record :=
  if negb (existsb (fun k' => key_eqb k' k) (map key_of records))
  then records ++ [new_record k t m v]
  else update_record records k m v.

(** No two records of the collection have equal keys. *)
Fixpoint keys_distinct (records : list record) : bool :=
  match records with
  | [] => true
  | r :: rest =>
      negb (existsb (fun r' => key_eqb (key_of r) (key_of r')) rest)
      && keys_distinct rest
  end.

(** The records stored under a key. *)
Definition records_of (records : list record) (k : key) : list record :=
  filter (fun r => key_eqb (key_of r) k) records.

(** Some record under key [k] has an entry for method [m]. *)
Definition has_entry (records : list record) (k : key) (m : string) : bool :=
  existsb (fun r => key_eqb (key_of r) k &&
                    match dict_get (rec_solutions r) m with
                    | Some _ => true
                    | None => false
                    end) records.

(** A successful run handed to the merge: key, method, time array and
    [(x, y)]. *)
Definition run : Type :=
  (key * string * list float * (list float * list float))%type.

Definition merge_all (records : list record) (runs : list run) : list record :=
  fold_left (fun rs '(k, m, t, v) => merge_record rs k m t v) runs records.

End Records.

Import Records.

Arguments key_eqb : simpl never.
Arguments key_of : simpl never.

(** ** The merge of Cell 3 on Python objects

    Python's [==] on tuples, and [in] on a list of tuples, compare the
    components as objects: two components are equal when they are one
    object, or when [==] holds of them. [==] on the numbers themselves does
    not look at identity. The two differ on an object that holds NaN, which
    is itself but equals nothing. Here a parameter of a run is a reference
    to a float object, and a record stores the references it was built
    from. *)

Module Objects.

(** The address of a float object. *)
Definition ref : Type := N.

(** [(x0, y0, gamma1, gamma2, alpha)] *)
Definition key : Type := (ref * ref * ref * ref * ref)%type.

Record record : Type := {
  rec_x0 : ref;
  rec_y0 : ref;
  rec_gamma1 : ref;
  rec_gamma2 : ref;
  rec_alpha : ref;
  rec_t : list float;
  rec_solutions : solutions_dict
}.

(** [(rec['x0'], rec['y0'], rec['gamma1'], rec['gamma2'], rec['alpha'])] *)
Definition key_of (r : record) : key :=
  (rec_x0 r, rec_y0 r, rec_gamma1 r, rec_gamma2 r, rec_alpha r).

Definition new_record (k : key) (t : list float) (m : string)
    (v : list float * list float) : record :=
  let '(x0, y0, gamma1, gamma2, alpha) := k in
  {| rec_x0 := x0; rec_y0 := y0; rec_gamma1 := gamma1; rec_gamma2 := gamma2;
     rec_alpha := alpha; rec_t := t; rec_solutions := [(m, v)] |}.

(** [rec['solutions'][method] = v] *)
Definition set_solution (r : record) (m : string) (v : list float * list float)
  : record :=
  {| rec_x0 := rec_x0 r; rec_y0 := rec_y0 r; rec_gamma1 := rec_gamma1 r;
     rec_gamma2 := rec_gamma2 r; rec_alpha := rec_alpha r; rec_t := rec_t r;
     rec_solutions := dict_set (rec_solutions r) m v |}.

(** A successful run handed to the merge: key, method, time array and
    [(x, y)]. *)
Definition run : Type :=
  (key * string * list float * (list float * list float))%type.

Section Heap.

(** The number each float object holds; it never changes. *)
Variable value : ref -> float.

(** Two components of tuples under [==] or [in]: one object, or [==]. *)
Definition same_or_equal (a b : ref) : bool :=
  (a =? b)%N || (value a =? value b)%float.

(** [k1 == k2] on two tuples, and the test of [k2 in [..., k1, ...]]. *)
Definition tuple_eqb (k1 k2 : key) : bool :=
  let '(a1, b1, c1, d1, e1) := k1 in
  let '(a2, b2, c2, d2, e2) := k2 in
  same_or_equal a1 a2 && same_or_equal b1 b2 && same_or_equal c1 c2 &&
  same_or_equal d1 d2 && same_or_equal e1 e2.

(** [rec['x0']==x0 and rec['y0']==y0 and rec['gamma1']==gamma1 and
    rec['gamma2']==gamma2 and rec['alpha']==alpha] *)
Definition fields_eqb (k1 k2 : key) : bool :=
  let '(a1, b1, c1, d1, e1) := k1 in
  let '(a2, b2, c2, d2, e2) := k2 in
  ((value a1 =? value a2) && (value b1 =? value b2) && (value c1 =? value c2) &&
   (value d1 =? value d2) && (value e1 =? value e2))%float.

(** 97_filtering_t_x_y_Euclidean_values.ipynb, Cell 3:
    [for rec in records: if (...) == key: rec['solutions'][method] = ...; break]
    [else: records.append({...})] *)
Fixpoint merge_record (records : list record) (k : key) (m : string)
    (t : list float) (v : list float * list float) : list record :=
  match records with
  | [] => [new_record k t m v]
  | r :: rest =>
      if tuple_eqb (key_of r) k then set_solution r m v :: rest
      else r :: merge_record rest k m t v
  end.

(** The second branch of 96_from_picle_to_Pandas.ipynb, Cell 3:
    [for rec in records: if rec['x0']==x0 and ...: rec['solutions'][method] = ...; break] *)
Fixpoint update_record (records : list record) (k : key) (m : string)
    (v : list float * list float) : list record :=
  match records with
  | [] => []
  | r :: rest =>
      if fields_eqb (key_of r) k then set_solution r m v :: rest
      else r :: update_record rest k m v
  end.

(** 96_from_picle_to_Pandas.ipynb, Cell 3:
    [if key not in [(r['x0'], ...) for r in records]: records.append({...})]
    [else: for rec in records: ...] *)
Definition merge_record_96 (records : list record) (k : key) (m : string)
    (t : list float) (v : list float * list float) : list record :=
  if negb (existsb (fun k' => tuple_eqb k' k) (map key_of records))
  then records ++ [new_record k t m v]
  else update_record records k m v.

Definition merge_all (records : list record) (runs : list run) : list record :=
  fold_left (fun rs '(k, m, t, v) => merge_record rs k m t v) runs records.

(** No two records of the collection have equal keys. *)
Fixpoint keys_distinct (records : list record) : bool :=
  match records with
  | [] => true
  | r :: rest =>
      negb (existsb (fun r' => tuple_eqb (key_of r) (key_of r')) rest)
      && keys_distinct rest
  end.

(** The records stored under a key, and the first of them. *)
Definition records_of (records : list record) (k : key) : list record :=
  filter (fun r => tuple_eqb (key_of r) k) records.

Definition find_record (records : list record) (k : key) : option record :=
  find (fun r => tuple_eqb (key_of r) k) records.

(** The numbers a key and a record hold: what the sweeps, read on numbers,
    store. *)
Definition numbers (k : key) : Records.key :=
  let '(x0, y0, gamma1, gamma2, alpha) := k in
  (value x0, value y0, value gamma1, value gamma2, value alpha).

Definition stored (r : record) : Records.record :=
  {| Records.rec_x0 := value (rec_x0 r); Records.rec_y0 := value (rec_y0 r);
     Records.rec_gamma1 := value (rec_gamma1 r);
     Records.rec_gamma2 := value (rec_gamma2 r);
     Records.rec_alpha := value (rec_alpha r);
     Records.rec_t := rec_t r; Records.rec_solutions := rec_solutions r |}.

End Heap.

(** Five objects, the last of which, [alpha], holds NaN. *)
Definition nan_alpha (o : ref) : float := if (o =? 4)%N then nan else 1%float.

End Objects.

Arguments Objects.tuple_eqb : simpl never.
Arguments Objects.fields_eqb : simpl never.
Arguments Objects.key_of : simpl never.

(** ** Cell 3: the sweeps *)

Module Sweep.

(** What [solve_ivp] hands back: [sol.t], [sol.y[0]], [sol.y[1]], [sol.success]. *)
Record ode_result : Type := {
  sol_t : list float;
  sol_x : list float;
  sol_y : list float;
  sol_success : bool
}.

(** One call of the external integrator: it returns or raises. *)
Inductive solver_outcome : Type :=
| Solved (sol : ode_result)
| SolverRaises (msg : string).

(** The notebook's global variables of Cell 1: the numerical library [np],
    and the integrator, which is called with the right-hand side of
    [get_rhs(alpha, gamma1, gamma2)], the initial state [[x0, y0]] and the
    method name ([t_end] and [t_eval] are fixed). *)
Record globals : Type := {
  np : Numpy;
  solve_ivp : float -> float -> float -> float -> float -> string -> solver_outcome;
  initial_conditions : list (float * float);
  gamma_1_list : list float;
  gamma_2_list : list float;
  alpha_list : list float;
  all_methods : list string;
  method : string;
  delta : float;
  epsilon : float
}.

(** Lines printed by Cell 3. *)
Inductive log_line : Type :=
| ErrorLine (m : string) (alpha gamma1 gamma2 x0 : float) (e : exn)
| ProgressLine (solution_count : Z) (x0 alpha gamma1 gamma2 : float) (m : string)
    (points : nat) (kept : list Z) (more : bool)
| ValuesLine (xvals yvals : list float) (more : bool).

(** Variables of Cell 3 in 98_DOP853.ipynb, 97_filtering_... and
    96_from_picle_to_Pandas.ipynb. *)
Record sweep_state : Type := {
  records : list record;
  solution_count : Z;
  skipped_total : Z;
  kept_total : Z;
  stdout : list log_line
}.

Definition initial_state : sweep_state :=
  {| records := []; solution_count := 0; skipped_total := 0; kept_total := 0;
     stdout := [] |}.

Definition set_records (f : list record -> list record) (s : sweep_state) :=
  {| records := f (records s); solution_count := solution_count s;
     skipped_total := skipped_total s; kept_total := kept_total s;
     stdout := stdout s |}.

Definition set_solution_count (f : Z -> Z) (s : sweep_state) :=
  {| records := records s; solution_count := f (solution_count s);
     skipped_total := skipped_total s; kept_total := kept_total s;
     stdout := stdout s |}.

Definition set_skipped_total (f : Z -> Z) (s : sweep_state) :=
  {| records := records s; solution_count := solution_count s;
     skipped_total := f (skipped_total s); kept_total := kept_total s;
     stdout := stdout s |}.

Definition set_kept_total (f : Z -> Z) (s : sweep_state) :=
  {| records := records s; solution_count := solution_count s;
     skipped_total := skipped_total s; kept_total := f (kept_total s);
     stdout := stdout s |}.

Definition print (line : log_line) : prog sweep_state unit :=
  modify (fun s =>
    {| records := records s; solution_count := solution_count s;
       skipped_total := skipped_total s; kept_total := kept_total s;
       stdout := stdout s ++ [line] |}).

(** [sol = solve_ivp(...)]: an exception of the integrator is raised here. *)
Definition call_solver {S : Type} (G : globals)
    (alpha gamma1 gamma2 x0 y0 : float) (m : string) : prog S ode_result :=
  eval (match solve_ivp G alpha gamma1 gamma2 x0 y0 m with
        | Solved sol => Ok sol
        | SolverRaises msg => Raise (SolverError msg)
        end).

Local Open Scope prog_scope.

Section Cells.

Variable G : globals.

(** *** 98_DOP853.ipynb: one method, one record per successful run *)

Definition body_98 (x0 y0 gamma1 gamma2 alpha : float) : prog sweep_state unit :=
  try_except
    (sol <- call_solver G alpha gamma1 gamma2 x0 y0 (method G) ;;
     if sol_success sol then
       let x := sol_x sol in
       let y := sol_y sol in
       let t := sol_t sol in
       indices <- eval (compress_trajectory (L := np G) t x y (delta G)) ;;
       x_filt <- eval (take x indices) ;;
       y_filt <- eval (take y indices) ;;
       t_filt <- eval (take t indices) ;;
       modify (set_kept_total (fun n => n + Z.of_nat (length indices))) ;;;
       modify (set_skipped_total
                 (fun n => n + (Z.of_nat (length t) - Z.of_nat (length indices)))) ;;;
       modify (set_records (fun rs =>
                 rs ++ [new_record (x0, y0, gamma1, gamma2, alpha) t_filt
                          (method G) (x_filt, y_filt)])) ;;;
       modify (set_solution_count (fun n => n + 1)) ;;;
       s <- get ;;
       if solution_count s mod 1000 =? 0 then
         print (ProgressLine (solution_count s) x0 alpha gamma1 gamma2 (method G)
                  (length indices) (firstn 5 indices) (5 <? length indices)%nat) ;;;
         print (ValuesLine (firstn 5 x_filt) (firstn 5 y_filt)
                  (5 <? length x_filt)%nat)
       else ret tt
     else ret tt)
    (fun e => print (ErrorLine (method G) alpha gamma1 gamma2 x0 e)).

Definition sweep_98 : prog sweep_state unit :=
  for_each (initial_conditions G) (fun '(x0, y0) =>
    for_each (gamma_1_list G) (fun gamma1 =>
      for_each (gamma_2_list G) (fun gamma2 =>
        for_each (alpha_list G) (fun alpha =>
          body_98 x0 y0 gamma1 gamma2 alpha)))).

(** *** 97_filtering_t_x_y_Euclidean_values.ipynb: methods merged per key *)

Definition body_97 (x0 y0 gamma1 gamma2 alpha : float) (m : string)
  : prog sweep_state unit :=
  try_except
    (sol <- call_solver G alpha gamma1 gamma2 x0 y0 m ;;
     if sol_success sol then
       let x := sol_x sol in
       let y := sol_y sol in
       let t := sol_t sol in
       indices <- eval (compress_trajectory (L := np G) t x y (delta G)) ;;
       x_filt <- eval (take x indices) ;;
       y_filt <- eval (take y indices) ;;
       t_filt <- eval (take t indices) ;;
       modify (set_kept_total (fun n => n + Z.of_nat (length indices))) ;;;
       modify (set_skipped_total
                 (fun n => n + (Z.of_nat (length t) - Z.of_nat (length indices)))) ;;;
       modify (set_records (fun rs =>
                 merge_record rs (x0, y0, gamma1, gamma2, alpha) m t_filt
                   (x_filt, y_filt))) ;;;
       modify (set_solution_count (fun n => n + 1)) ;;;
       s <- get ;;
       if solution_count s mod 1049 =? 0 then
         print (ProgressLine (solution_count s) x0 alpha gamma1 gamma2 m
                  (length indices) (firstn 5 indices) (5 <? length indices)%nat)
       else ret tt
     else ret tt)
    (fun e => print (ErrorLine m alpha gamma1 gamma2 x0 e)).

Definition sweep_97 : prog sweep_state unit :=
  for_each (initial_conditions G) (fun '(x0, y0) =>
    for_each (gamma_1_list G) (fun gamma1 =>
      for_each (gamma_2_list G) (fun gamma2 =>
        for_each (alpha_list G) (fun alpha =>
          for_each (all_methods G) (fun m =>
            body_97 x0 y0 gamma1 gamma2 alpha m))))).

(** *** 96_from_picle_to_Pandas.ipynb: methods merged per key, no compression *)

Definition body_96 (x0 y0 gamma1 gamma2 alpha : float) (m : string)
  : prog sweep_state unit :=
  try_except
    (sol <- call_solver G alpha gamma1 gamma2 x0 y0 m ;;
     if sol_success sol then
       modify (set_records (fun rs =>
                 merge_record_96 rs (x0, y0, gamma1, gamma2, alpha) m (sol_t sol)
                   (sol_x sol, sol_y sol)))
     else ret tt)
    (fun e => print (ErrorLine m alpha gamma1 gamma2 x0 e)).

Definition sweep_96 : prog sweep_state unit :=
  for_each (initial_conditions G) (fun '(x0, y0) =>
    for_each (gamma_1_list G) (fun gamma1 =>
      for_each (gamma_2_list G) (fun gamma2 =>
        for_each (all_methods G) (fun m =>
          for_each (alpha_list G) (fun alpha =>
            body_96 x0 y0 gamma1 gamma2 alpha m))))).

End Cells.

(** Grid points in the order the loops visit them. *)
Definition grid_98 (G : globals) : list (float * float * float * float * float) :=
  flat_map (fun '(x0, y0) =>
    flat_map (fun gamma1 =>
      flat_map (fun gamma2 =>
        map (fun alpha => (x0, y0, gamma1, gamma2, alpha)) (alpha_list G))
      (gamma_2_list G)) (gamma_1_list G)) (initial_conditions G).

Definition grid_97 (G : globals)
  : list (float * float * float * float * float * string) :=
  flat_map (fun '(x0, y0) =>
    flat_map (fun gamma1 =>
      flat_map (fun gamma2 =>
        flat_map (fun alpha =>
          map (fun m => (x0, y0, gamma1, gamma2, alpha, m)) (all_methods G))
        (alpha_list G)) (gamma_2_list G)) (gamma_1_list G)) (initial_conditions G).

(** 96 and 95 loop over the methods before the alphas. *)
Definition grid_96 (G : globals)
  : list (float * float * float * float * float * string) :=
  flat_map (fun '(x0, y0) =>
    flat_map (fun gamma1 =>
      flat_map (fun gamma2 =>
        flat_map (fun m =>
          map (fun alpha => (x0, y0, gamma1, gamma2, alpha, m)) (alpha_list G))
        (all_methods G)) (gamma_2_list G)) (gamma_1_list G)) (initial_conditions G).

Definition step_98 (G : globals) (p : float * float * float * float * float)
  : prog sweep_state unit :=
  let '(x0, y0, gamma1, gamma2, alpha) := p in body_98 G x0 y0 gamma1 gamma2 alpha.

Definition step_97 (G : globals) (p : float * float * float * float * float * string)
  : prog sweep_state unit :=
  let '(x0, y0, gamma1, gamma2, alpha, m) := p in body_97 G x0 y0 gamma1 gamma2 alpha m.

Definition step_96 (G : globals) (p : float * float * float * float * float * string)
  : prog sweep_state unit :=
  let '(x0, y0, gamma1, gamma2, alpha, m) := p in body_96 G x0 y0 gamma1 gamma2 alpha m.

(** The compressed arrays [(t_filt, x_filt, y_filt)] of a successful run. *)
Definition compressed (G : globals) (sol : ode_result)
  : result (list float * list float * list float) :=
  (indices <- compress_trajectory (L := np G) (sol_t sol) (sol_x sol) (sol_y sol)
                (delta G) ;;
   x_filt <- take (sol_x sol) indices ;;
   y_filt <- take (sol_y sol) indices ;;
   t_filt <- take (sol_t sol) indices ;;
   Ok (t_filt, x_filt, y_filt))%res.

(** What one grid point does to [records], in each notebook. *)
Definition next_records_98 (G : globals) (p : float * float * float * float * float)
    (rs : list record) : list record :=
  let '(x0, y0, gamma1, gamma2, alpha) := p in
  match solve_ivp G alpha gamma1 gamma2 x0 y0 (method G) with
  | Solved sol =>
      if sol_success sol then
        match compressed G sol with
        | Ok (t_filt, x_filt, y_filt) =>
            rs ++ [new_record p t_filt (method G) (x_filt, y_filt)]
        | _ => rs
        end
      else rs
  | SolverRaises _ => rs
  end.

Definition next_records_97 (G : globals)
    (p : float * float * float * float * float * string) (rs : list record)
  : list record :=
  let '(x0, y0, gamma1, gamma2, alpha, m) := p in
  match solve_ivp G alpha gamma1 gamma2 x0 y0 m with
  | Solved sol =>
      if sol_success sol then
        match compressed G sol with
        | Ok (t_filt, x_filt, y_filt) =>
            merge_record rs (x0, y0, gamma1, gamma2, alpha) m t_filt (x_filt, y_filt)
        | _ => rs
        end
      else rs
  | SolverRaises _ => rs
  end.

Definition next_records_96 (G : globals)
    (p : float * float * float * float * float * string) (rs : list record)
  : list record :=
  let '(x0, y0, gamma1, gamma2, alpha, m) := p in
  match solve_ivp G alpha gamma1 gamma2 x0 y0 m with
  | Solved sol =>
      if sol_success sol then
        merge_record_96 rs (x0, y0, gamma1, gamma2, alpha) m (sol_t sol)
          (sol_x sol, sol_y sol)
      else rs
  | SolverRaises _ => rs
  end.

(** The run a grid point hands to the merge, if any. *)
Definition accepted_97 (G : globals)
    (p : float * float * float * float * float * string) : list run :=
  let '(x0, y0, gamma1, gamma2, alpha, m) := p in
  match solve_ivp G alpha gamma1 gamma2 x0 y0 m with
  | Solved sol =>
      if sol_success sol then
        match compressed G sol with
        | Ok (t_filt, x_filt, y_filt) =>
            [((x0, y0, gamma1, gamma2, alpha), m, t_filt, (x_filt, y_filt))]
        | _ => []
        end
      else []
  | SolverRaises _ => []
  end.

Definition accepted_96 (G : globals)
    (p : float * float * float * float * float * string) : list run :=
  let '(x0, y0, gamma1, gamma2, alpha, m) := p in
  match solve_ivp G alpha gamma1 gamma2 x0 y0 m with
  | Solved sol =>
      if sol_success sol then
        [((x0, y0, gamma1, gamma2, alpha), m, sol_t sol, (sol_x sol, sol_y sol))]
      else []
  | SolverRaises _ => []
  end.

(** No parameter of the grid is NaN, and no key of a collection has a NaN
    component. *)
Definition parameters_are_numbers (G : globals) : bool :=
  forallb (fun '(x0, y0) => (x0 =? x0) && (y0 =? y0))%float (initial_conditions G) &&
  forallb (fun gamma1 => (gamma1 =? gamma1)%float) (gamma_1_list G) &&
  forallb (fun gamma2 => (gamma2 =? gamma2)%float) (gamma_2_list G) &&
  forallb (fun alpha => (alpha =? alpha)%float) (alpha_list G).

Definition keys_are_numbers (rs : list record) : bool :=
  forallb (fun r => key_eqb (key_of r) (key_of r)) rs.

(** The lines a failed integration prints: one for a raised exception, none
    for [success = False]. *)
Definition failure_lines (o : solver_outcome) (m : string)
    (alpha gamma1 gamma2 x0 : float) : list log_line :=
  match o with
  | Solved _ => []
  | SolverRaises msg => [ErrorLine m alpha gamma1 gamma2 x0 (SolverError msg)]
  end.

(** The integration at a grid point failed: the integrator raised, or
    returned with [success = False]. *)
Definition failed (o : solver_outcome) : bool :=
  match o with
  | Solved sol => negb (sol_success sol)
  | SolverRaises _ => true
  end.

End Sweep.

Import Sweep.

(** ** 95_save_for_streamlit_unique_x_y.ipynb: the uniqueness filter *)

Module Unique.

(** [a - b] on one-dimensional arrays: element by element for equal shapes,
    an array of one element is broadcast, other shapes raise ValueError. *)
Definition np_sub (a b : list float) : result (list float) :=
  if (length a =? length b)%nat then
    Ok (map (fun '(u, v) => (u - v)%float) (combine a b))
  else
    match a, b with
    | [u], _ => Ok (map (fun v => (u - v)%float) b)
    | _, [v] => Ok (map (fun u => (u - v)%float) a)
    | _, _ => Raise ValueError
    end.

(** [np.linalg.norm(x - sx) < epsilon and np.linalg.norm(y - sy) < epsilon];
    the second norm is computed only when the first test holds. *)
Definition too_close {L : Numpy} (eps : float) (x y sx sy : list float)
  : result bool :=
  dx <- np_sub x sx ;;
  if (linalg_norm dx <? eps)%float then
    dy <- np_sub y sy ;;
    Ok (linalg_norm dy <? eps)%float
  else Ok false.

(** [unique = True; for sig in saved_signatures: if ...: unique = False; break] *)
Fixpoint check_unique {L : Numpy} (eps : float) (x y : list float)
    (saved_signatures : list (list float * list float)) : result bool :=
  match saved_signatures with
  | [] => Ok true
  | (sx, sy) :: rest =>
      close <- too_close eps x y sx sy ;;
      if close then Ok false else check_unique eps x y rest
  end.

Record entry : Type := {
  entry_alpha : float;
  entry_gamma1 : float;
  entry_gamma2 : float;
  entry_method : string;
  entry_x0 : float;
  entry_y0 : float;
  entry_t : list float;
  entry_x : list float;
  entry_y : list float
}.

Record filter_state : Type := {
  entries : list entry;
  saved_signatures : list (list float * list float);
  total_attempts : Z;
  skipped_due_to_similarity : Z;
  printed : list log_line
}.

Definition initial_filter_state : filter_state :=
  {| entries := []; saved_signatures := []; total_attempts := 0;
     skipped_due_to_similarity := 0; printed := [] |}.

Definition count_attempt (s : filter_state) : filter_state :=
  {| entries := entries s; saved_signatures := saved_signatures s;
     total_attempts := total_attempts s + 1;
     skipped_due_to_similarity := skipped_due_to_similarity s;
     printed := printed s |}.

Definition count_skip (s : filter_state) : filter_state :=
  {| entries := entries s; saved_signatures := saved_signatures s;
     total_attempts := total_attempts s;
     skipped_due_to_similarity := skipped_due_to_similarity s + 1;
     printed := printed s |}.

Definition save_signature (sig : list float * list float) (s : filter_state) :=
  {| entries := entries s; saved_signatures := saved_signatures s ++ [sig];
     total_attempts := total_attempts s;
     skipped_due_to_similarity := skipped_due_to_similarity s;
     printed := printed s |}.

Definition save_entry (e : entry) (s : filter_state) :=
  {| entries := entries s ++ [e]; saved_signatures := saved_signatures s;
     total_attempts := total_attempts s;
     skipped_due_to_similarity := skipped_due_to_similarity s;
     printed := printed s |}.

Definition print_line (line : log_line) : prog filter_state unit :=
  modify (fun s =>
    {| entries := entries s; saved_signatures := saved_signatures s;
       total_attempts := total_attempts s;
       skipped_due_to_similarity := skipped_due_to_similarity s;
       printed := printed s ++ [line] |}).

Local Open Scope prog_scope.

Section Cells.

Variable G : globals.

(** The body of the innermost loop; each [continue] ends the body. *)
Definition body_95 (x0 y0 gamma1 gamma2 : float) (m : string) (alpha : float)
  : prog filter_state unit :=
  modify count_attempt ;;;
  try_except
    (sol <- call_solver G alpha gamma1 gamma2 x0 y0 m ;;
     if negb (sol_success sol) then ret tt                       (* continue *)
     else
       let x := sol_x sol in
       let y := sol_y sol in
       s <- get ;;
       unique <- eval (check_unique (L := np G) (epsilon G) x y (saved_signatures s)) ;;
       if negb unique then modify count_skip                     (* continue *)
       else
         modify (save_signature (x, y)) ;;;
         modify (save_entry
                   {| entry_alpha := alpha; entry_gamma1 := gamma1;
                      entry_gamma2 := gamma2; entry_method := m;
                      entry_x0 := x0; entry_y0 := y0; entry_t := sol_t sol;
                      entry_x := x; entry_y := y |}))
    (fun e => print_line (ErrorLine m alpha gamma1 gamma2 x0 e)).

Definition sweep_95 : prog filter_state unit :=
  for_each (initial_conditions G) (fun '(x0, y0) =>
    for_each (gamma_1_list G) (fun gamma1 =>
      for_each (gamma_2_list G) (fun gamma2 =>
        for_each (all_methods G) (fun m =>
          for_each (alpha_list G) (fun alpha =>
            body_95 x0 y0 gamma1 gamma2 m alpha))))).

End Cells.

Definition step_95 (G : globals) (p : float * float * float * float * float * string)
  : prog filter_state unit :=
  let '(x0, y0, gamma1, gamma2, alpha, m) := p in body_95 G x0 y0 gamma1 gamma2 m alpha.

(** The arrays of every saved signature have the shapes of [x] and [y]. *)
Definition same_shape (x y : list float)
    (saved_signatures : list (list float * list float)) : Prop :=
  Forall (fun sig => length (fst sig) = length x /\ length (snd sig) = length y)
    saved_signatures.

(** What one grid point does to [entries] and [saved_signatures]. *)
Definition next_store_95 (G : globals)
    (p : float * float * float * float * float * string)
    (store : list entry * list (list float * list float))
  : list entry * list (list float * list float) :=
  let '(x0, y0, gamma1, gamma2, alpha, m) := p in
  let '(es, sigs) := store in
  match solve_ivp G alpha gamma1 gamma2 x0 y0 m with
  | Solved sol =>
      if sol_success sol then
        match check_unique (L := np G) (epsilon G) (sol_x sol) (sol_y sol) sigs with
        | Ok true =>
            (es ++ [{| entry_alpha := alpha; entry_gamma1 := gamma1;
                       entry_gamma2 := gamma2; entry_method := m;
                       entry_x0 := x0; entry_y0 := y0; entry_t := sol_t sol;
                       entry_x := sol_x sol; entry_y := sol_y sol |}],
             sigs ++ [(sol_x sol, sol_y sol)])
        | _ => store
        end
      else store
  | SolverRaises _ => store
  end.

(** A sweep over a single grid point whose integration returns
    [success = False]. *)
Definition unsuccessful_sweep : globals :=
  {| np := products;
     solve_ivp := fun _ _ _ _ _ _ =>
       Solved {| sol_t := [0%float]; sol_x := [1%float]; sol_y := [1%float];
                 sol_success := false |};
     initial_conditions := [(1%float, 1%float)];
     gamma_1_list := [0%float];
     gamma_2_list := [0.5%float];
     alpha_list := [0x1p-10%float];
     all_methods := ["DOP853"%string];
     method := "DOP853"%string;
     delta := 0.0625%float;
     epsilon := 0x1.4f8b588e368f1p-17%float |}.

(** A sweep over one grid point and two methods, each integration returning
    the same three samples. *)
Definition two_method_sweep : globals :=
  {| np := products;
     solve_ivp := fun _ _ _ _ _ _ =>
       Solved {| sol_t := [0; 0.5; 1]%float; sol_x := [1; 1.5; 2]%float;
                 sol_y := [1; 0.75; 0.5]%float; sol_success := true |};
     initial_conditions := [(1%float, 1%float)];
     gamma_1_list := [0%float];
     gamma_2_list := [0.5%float];
     alpha_list := [0x1p-10%float];
     all_methods := ["DOP853"%string; "BDF"%string];
     method := "DOP853"%string;
     delta := 0.0625%float;
     epsilon := 0x1.4f8b588e368f1p-17%float |}.

(** [epsilon = 1e-5], the binary64 value nearest to it. *)
Definition epsilon_95 : float := 0x1.4f8b588e368f1p-17%float.

End Unique.

Import Unique.

(** ** Cell 2 of 98_DOP853.ipynb: [get_rhs] *)

Module Hill.

(** [np.maximum], [np.minimum] and [np.clip] on scalars: a NaN operand is
    returned as it is. *)
Definition np_max (a c : float) : float :=
  if is_nan a || (c <? a)%float then a else c.

Definition np_min (a c : float) : float :=
  if is_nan a || (a <? c)%float then a else c.

Definition np_clip (a a_min a_max : float) : float :=
  np_min (np_max a a_min) a_max.

(** [a / c] on Python floats. *)
Definition truediv (a c : float) : result float :=
  if (c =? 0)%float then Raise ZeroDivisionError else Ok (a / c)%float.

(** The notebook's globals. *)
Definition b : float := 1.
Definition K : float := 1.

(** The decimal literals of the cell, as the binary64 values Python reads:
    [1e-20], [1e20] and [700]. *)
Definition lit_1e_20 : float := 0x1.79ca10c924223p-67.
Definition lit_1e20 : float := 0x1.5af1d78b58c4p+66.
Definition lit_700 : float := 700.

Section Numpy.

(** [np.exp] and [np.log] are not operations of binary64 arithmetic; the
    evaluator is read over any pair of functions in their place. *)
Variables np_exp np_log : float -> float.

Definition get_rhs (alpha gamma1 gamma2 : float) (t : float) (xy : list float)
  : result (list float) :=
  xy0 <- getitem xy 0 ;;
  let x := np_clip xy0 lit_1e_20 lit_1e20 in
  xy1 <- getitem xy 1 ;;
  let y := np_clip xy1 lit_1e_20 lit_1e20 in
  inv_alpha <- truediv 1 alpha ;;
  let x_alpha := np_exp (np_clip (np_log x * inv_alpha) (- lit_700) lit_700) in
  let y_alpha := np_exp (np_clip (np_log y * inv_alpha) (- lit_700) lit_700) in
  let b_alpha := np_exp (np_clip (np_log b * inv_alpha) (- lit_700) lit_700) in
  let dxdt := (K * x_alpha / (b_alpha + x_alpha) - gamma1 * x)%float in
  let dydt := (K * y_alpha / (b_alpha + y_alpha) - gamma2 * y)%float in
  Ok [dxdt; dydt].

End Numpy.

(** *** Vocabulary of the specification *)

Definition within (lo hi v : float) : Prop :=
  (lo <=? v)%float = true /\ (v <=? hi)%float = true.

(** [1e-14], the least [alpha] of the claim. *)
Definition alpha_min : float := 0x1.6849b86a12b9bp-47.

(** Powers of two around [exp(-700) = 9.86e-305] and [exp(700) = 1.01e304]. *)
Definition exp_lo : float := 0x1p-1011.
Definition exp_hi : float := 0x1p+1010.

(** A bound on the decay rates under which [gamma * x] stays finite. *)
Definition gamma_max : float := 0x1p+900.

(** [1e300], a decay rate beyond that bound. *)
Definition lit_1e300 : float := 0x1.7e43c8800759cp+996.

(** Stand-ins for [np.exp] and [np.log] that meet the range conditions. *)
Definition unit_exp (_ : float) : float := 1.
Definition zero_log (_ : float) : float := 0.

End Hill.

(** ** What the sweeps count and keep *)

Module Accounting.

(** The number of time samples held by the collection: the sum of
    [len(rec['t'])]. *)
Definition stored_points (rs : list record) : Z :=
  fold_right (fun r n => Z.of_nat (length (rec_t r)) + n) 0 rs.

(** A record as 98_DOP853.ipynb stores it: one entry in [solutions], under
    the method [m], whose two arrays have the length of [t], which is not
    empty. *)
Definition single_solution (m : string) (r : record) : Prop :=
  exists x y, rec_solutions r = [(m, (x, y))] /\
              length x = length (rec_t r) /\ length y = length (rec_t r) /\
              (1 <= length (rec_t r))%nat.

(** What a sweep of 98_DOP853.ipynb adds between two states. *)
Definition grows_98 (m : string) (s s' : sweep_state) : Prop :=
  exists new,
    records s' = records s ++ new /\
    solution_count s' = solution_count s + Z.of_nat (length new) /\
    kept_total s' = kept_total s + stored_points new /\
    skipped_total s <= skipped_total s' /\
    (new = [] -> skipped_total s' = skipped_total s) /\
    Forall (single_solution m) new.

(** What a sweep of 97_filtering_t_x_y_Euclidean_values.ipynb changes between
    two states: rows are added but not for every counted run, and time
    samples are stored but not for every kept point. *)
Definition grows_97 (s s' : sweep_state) : Prop :=
  (length (records s) <= length (records s'))%nat /\
  Z.of_nat (length (records s')) - Z.of_nat (length (records s))
    <= solution_count s' - solution_count s /\
  0 <= stored_points (records s') - stored_points (records s)
    <= kept_total s' - kept_total s /\
  skipped_total s <= skipped_total s'.

(** The signature [{'x': x, 'y': y}] saved with an entry. *)
Definition signature (e : entry) : list float * list float :=
  (entry_x e, entry_y e).

(** What a sweep of 95_save_for_streamlit_unique_x_y.ipynb adds between two
    states: entries with their signatures, and attempts that cover the
    entries and the skips. *)
Definition grows_95 (s s' : filter_state) : Prop :=
  exists new,
    entries s' = entries s ++ new /\
    saved_signatures s' = saved_signatures s ++ map signature new /\
    skipped_due_to_similarity s <= skipped_due_to_similarity s' /\
    Z.of_nat (length new) +
      (skipped_due_to_similarity s' - skipped_due_to_similarity s)
    <= total_attempts s' - total_attempts s.

(** Every saved signature fails the test [too_close] against every signature
    saved before it. *)
Definition apart {L : Numpy} (eps : float) (sigs : list (list float * list float))
  : Prop :=
  forall i j sa sb, (i < j)%nat ->
    nth_error sigs i = Some sa -> nth_error sigs j = Some sb ->
    too_close eps (fst sb) (snd sb) (fst sa) (snd sa) = Ok false.

(** [rec['solutions'][m]] of the first record whose key equals [k]. *)
Fixpoint lookup (records : list record) (k : key) (m : string)
  : option (list float * list float) :=
  match records with
  | [] => None
  | r :: rest =>
      if key_eqb (key_of r) k then dict_get (rec_solutions r) m
      else lookup rest k m
  end.

End Accounting.

Import Accounting.

(** ** 93_gamma_correct_y_without_initial_shifts.ipynb and
       94_save_for_streamlit.ipynb: every returned run is archived *)

Module Archive.

(** An element of [data]; [success] is [sol.success]. *)
Record archive_entry : Type := {
  arch_alpha : float;
  arch_gamma1 : float;
  arch_gamma2 : float;
  arch_method : string;
  arch_x0 : float;
  arch_y0 : float;
  arch_t : list float;
  arch_x : list float;
  arch_y : list float;
  arch_success : bool
}.

(** The line printed by the [except] clause; 94 also prints [x0]. *)
Inductive archive_line : Type :=
| ErrorWith (alpha gamma1 gamma2 : float) (m : string) (x0 : option float) (e : exn).

Record archive_state : Type := {
  data : list archive_entry;
  archive_out : list archive_line
}.

Definition initial_archive : archive_state := {| data := []; archive_out := [] |}.

Definition append_data (e : archive_entry) (s : archive_state) : archive_state :=
  {| data := data s ++ [e]; archive_out := archive_out s |}.

Definition print_archive (line : archive_line) : prog archive_state unit :=
  modify (fun s => {| data := data s; archive_out := archive_out s ++ [line] |}).

Local Open Scope prog_scope.

Section Cells.

Variable G : globals.

(** The body of the innermost loop; [with_x0] tells 94 from 93. *)
Definition body_archive (with_x0 : bool) (alpha gamma1 gamma2 : float) (m : string)
    (x0 y0 : float) : prog archive_state unit :=
  try_except
    (sol <- call_solver G alpha gamma1 gamma2 x0 y0 m ;;
     let entry := {| arch_alpha := alpha; arch_gamma1 := gamma1;
                     arch_gamma2 := gamma2; arch_method := m;
                     arch_x0 := x0; arch_y0 := y0; arch_t := sol_t sol;
                     arch_x := sol_x sol; arch_y := sol_y sol;
                     arch_success := sol_success sol |} in
     modify (append_data entry))
    (fun e => print_archive
                (ErrorWith alpha gamma1 gamma2 m (if with_x0 then Some x0 else None) e)).

Definition sweep_archive (with_x0 : bool) : prog archive_state unit :=
  for_each (alpha_list G) (fun alpha =>
    for_each (gamma_1_list G) (fun gamma1 =>
      for_each (gamma_2_list G) (fun gamma2 =>
        for_each (all_methods G) (fun m =>
          for_each (initial_conditions G) (fun '(x0, y0) =>
            body_archive with_x0 alpha gamma1 gamma2 m x0 y0))))).

Definition sweep_93 : prog archive_state unit := sweep_archive false.
Definition sweep_94 : prog archive_state unit := sweep_archive true.

End Cells.

(** Grid points in the order these two notebooks visit them. *)
Definition grid_93 (G : globals)
  : list (float * float * float * string * (float * float)) :=
  flat_map (fun alpha =>
    flat_map (fun gamma1 =>
      flat_map (fun gamma2 =>
        flat_map (fun m =>
          map (fun xy0 => (alpha, gamma1, gamma2, m, xy0)) (initial_conditions G))
        (all_methods G)) (gamma_2_list G)) (gamma_1_list G)) (alpha_list G).

Definition step_archive (G : globals) (with_x0 : bool)
    (p : float * float * float * string * (float * float))
  : prog archive_state unit :=
  let '(alpha, gamma1, gamma2, m, (x0, y0)) := p in
  body_archive G with_x0 alpha gamma1 gamma2 m x0 y0.

(** The entry a grid point appends to [data], if its integration returns. *)
Definition archived (G : globals)
    (p : float * float * float * string * (float * float)) : list archive_entry :=
  let '(alpha, gamma1, gamma2, m, (x0, y0)) := p in
  match solve_ivp G alpha gamma1 gamma2 x0 y0 m with
  | Solved sol =>
      [{| arch_alpha := alpha; arch_gamma1 := gamma1; arch_gamma2 := gamma2;
          arch_method := m; arch_x0 := x0; arch_y0 := y0; arch_t := sol_t sol;
          arch_x := sol_x sol; arch_y := sol_y sol;
          arch_success := sol_success sol |}]
  | SolverRaises _ => []
  end.

(** The line a grid point prints, if its integration raises. *)
Definition reported (G : globals) (with_x0 : bool)
    (p : float * float * float * string * (float * float)) : list archive_line :=
  let '(alpha, gamma1, gamma2, m, (x0, y0)) := p in
  match solve_ivp G alpha gamma1 gamma2 x0 y0 m with
  | Solved _ => []
  | SolverRaises msg =>
      [ErrorWith alpha gamma1 gamma2 m (if with_x0 then Some x0 else None)
         (SolverError msg)]
  end.

End Archive.

Import Archive.

(** ** Cell 4: saving and the closing report *)

Module Cell4.

(** [float(n)] for a Python int, as arithmetic with a float operand does it:
    the nearest binary64 value, ties to even; [None] stands for the
    OverflowError raised when [n] is too large. *)
Definition float_of_int (n : Z) : option float :=
  match binary_normalize prec emax n 0 false with
  | S754_infinity _ => None
  | r => Some (SF2Prim r)
  end.

(** The ArithmeticErrors the cell can raise: ZeroDivisionError and
    OverflowError. *)
Inductive arithmetic_error : Type :=
| ZeroDivision
| Overflow.

(** [100.0 * part / whole] for Python ints [part] and [whole]. *)
Definition percent (part whole : Z) : float + arithmetic_error :=
  match float_of_int part with
  | None => inr Overflow
  | Some p =>
      match float_of_int whole with
      | None => inr Overflow
      | Some w =>
          if (w =? 0)%float then inr ZeroDivision else inl (100 * p / w)%float
      end
  end.

(** Lines printed by Cell 4. *)
Inductive report_line : Type :=
| SavedRows (rows : nat)
| FilteredPoints (kept skipped : Z) (percent_removed : float)
| SavedEntries (n : nat)
| TotalAttempts (n : Z)
| SkippedSimilar (skipped : Z) (percent_skipped : float).

(** What Cell 4 leaves behind: the pickled collection, the printed lines,
    and the exception that ended the cell, if any. *)
Record report (A : Type) : Type := {
  pickle : list A;
  lines : list report_line;
  raised : option arithmetic_error
}.

Arguments pickle {A} r.
Arguments lines {A} r.
Arguments raised {A} r.

(** Cell 4 of 98_DOP853.ipynb (and of 97 and 99). *)
Definition cell4_98 (s : sweep_state) : report record :=
  let df := records s in
  match percent (skipped_total s) (kept_total s + skipped_total s) with
  | inl p =>
      {| pickle := df;
         lines := [SavedRows (length df);
                   FilteredPoints (kept_total s) (skipped_total s) p];
         raised := None |}
  | inr e =>
      {| pickle := df; lines := [SavedRows (length df)]; raised := Some e |}
  end.

(** Cell 4 of 95_save_for_streamlit_unique_x_y.ipynb. *)
Definition cell4_95 (s : filter_state) : report entry :=
  let saved := entries s in
  match percent (skipped_due_to_similarity s) (total_attempts s) with
  | inl p =>
      {| pickle := saved;
         lines := [SavedEntries (length saved); TotalAttempts (total_attempts s);
                   SkippedSimilar (skipped_due_to_similarity s) p];
         raised := None |}
  | inr e =>
      {| pickle := saved;
         lines := [SavedEntries (length saved); TotalAttempts (total_attempts s)];
         raised := Some e |}
  end.

End Cell4.

Import Cell4.

(** ** 99_DOP853_round3_float32.ipynb: the sweep of 98 with rounded arrays *)

Module Rounded.

(** A record of 99: the arrays are stored next to the parameters. *)
Record record_99 : Type := {
  r99_x0 : float;
  r99_y0 : float;
  r99_gamma1 : float;
  r99_gamma2 : float;
  r99_alpha : float;
  r99_t : list float;
  r99_x : list float;
  r99_y : list float
}.

Record sweep_state_99 : Type := {
  records_99 : list record_99;
  solution_count_99 : Z;
  skipped_total_99 : Z;
  kept_total_99 : Z;
  stdout_99 : list log_line
}.

Definition initial_state_99 : sweep_state_99 :=
  {| records_99 := []; solution_count_99 := 0; skipped_total_99 := 0;
     kept_total_99 := 0; stdout_99 := [] |}.

Definition print_99 (line : log_line) : prog sweep_state_99 unit :=
  modify (fun s =>
    {| records_99 := records_99 s; solution_count_99 := solution_count_99 s;
       skipped_total_99 := skipped_total_99 s; kept_total_99 := kept_total_99 s;
       stdout_99 := stdout_99 s ++ [line] |}).

Local Open Scope prog_scope.

Section Cells.

(** [np.round(v, 3).astype(np.float32)] on one element: rounding to three
    decimals and to single precision is not an operation of binary64
    arithmetic; the sweep is read over any function in its place. *)
Variable round3_float32 : float -> float.

Variable G : globals.

Definition body_99 (x0 y0 gamma1 gamma2 alpha : float) : prog sweep_state_99 unit :=
  try_except
    (sol <- call_solver G alpha gamma1 gamma2 x0 y0 (method G) ;;
     if sol_success sol then
       let x := sol_x sol in
       let y := sol_y sol in
       let t := sol_t sol in
       indices <- eval (compress_trajectory (L := np G) t x y (delta G)) ;;
       x_sel <- eval (take x indices) ;;
       let x_filt := map round3_float32 x_sel in
       y_sel <- eval (take y indices) ;;
       let y_filt := map round3_float32 y_sel in
       t_sel <- eval (take t indices) ;;
       let t_filt := map round3_float32 t_sel in
       modify (fun s =>
         {| records_99 := records_99 s; solution_count_99 := solution_count_99 s;
            skipped_total_99 := skipped_total_99 s;
            kept_total_99 := kept_total_99 s + Z.of_nat (length indices);
            stdout_99 := stdout_99 s |}) ;;;
       modify (fun s =>
         {| records_99 := records_99 s; solution_count_99 := solution_count_99 s;
            skipped_total_99 :=
              skipped_total_99 s + (Z.of_nat (length t) - Z.of_nat (length indices));
            kept_total_99 := kept_total_99 s; stdout_99 := stdout_99 s |}) ;;;
       modify (fun s =>
         {| records_99 := records_99 s ++
              [{| r99_x0 := x0; r99_y0 := y0; r99_gamma1 := gamma1;
                  r99_gamma2 := gamma2; r99_alpha := alpha; r99_t := t_filt;
                  r99_x := x_filt; r99_y := y_filt |}];
            solution_count_99 := solution_count_99 s;
            skipped_total_99 := skipped_total_99 s;
            kept_total_99 := kept_total_99 s; stdout_99 := stdout_99 s |}) ;;;
       modify (fun s =>
         {| records_99 := records_99 s;
            solution_count_99 := solution_count_99 s + 1;
            skipped_total_99 := skipped_total_99 s;
            kept_total_99 := kept_total_99 s; stdout_99 := stdout_99 s |}) ;;;
       s <- get ;;
       if solution_count_99 s mod 1000 =? 0 then
         print_99 (ProgressLine (solution_count_99 s) x0 alpha gamma1 gamma2 (method G)
                     (length indices) (firstn 5 indices) (5 <? length indices)%nat) ;;;
         print_99 (ValuesLine (firstn 5 x_filt) (firstn 5 y_filt)
                     (5 <? length x_filt)%nat)
       else ret tt
     else ret tt)
    (fun e => print_99 (ErrorLine (method G) alpha gamma1 gamma2 x0 e)).

Definition sweep_99 : prog sweep_state_99 unit :=
  for_each (initial_conditions G) (fun '(x0, y0) =>
    for_each (gamma_1_list G) (fun gamma1 =>
      for_each (gamma_2_list G) (fun gamma2 =>
        for_each (alpha_list G) (fun alpha =>
          body_99 x0 y0 gamma1 gamma2 alpha)))).

(** The record of 99 that holds the arrays of a record of 98, rounded. *)
Definition round_record (r : record) : record_99 :=
  let '(x, y) := match rec_solutions r with
                 | (_, v) :: _ => v
                 | [] => ([], [])
                 end in
  {| r99_x0 := rec_x0 r; r99_y0 := rec_y0 r; r99_gamma1 := rec_gamma1 r;
     r99_gamma2 := rec_gamma2 r; r99_alpha := rec_alpha r;
     r99_t := map round3_float32 (rec_t r);
     r99_x := map round3_float32 x; r99_y := map round3_float32 y |}.

(** The two sweeps are in step: same counters, and the records of 99 are
    those of 98 with every array rounded. *)
Definition in_step (s : sweep_state) (s99 : sweep_state_99) : Prop :=
  records_99 s99 = map round_record (records s) /\
  solution_count_99 s99 = solution_count s /\
  skipped_total_99 s99 = skipped_total s /\
  kept_total_99 s99 = kept_total s.

End Cells.

Definition step_99 (round3_float32 : float -> float) (G : globals)
    (p : float * float * float * float * float) : prog sweep_state_99 unit :=
  let '(x0, y0, gamma1, gamma2, alpha) := p in
  body_99 round3_float32 G x0 y0 gamma1 gamma2 alpha.

End Rounded.

Import Rounded.

(** * Facts *)

(** ** Indexing *)
Lemma getitem_nonneg {A} (a : list A) (k : Z) :
  0 <= k < Z.of_nat (length a) ->
  exists v, getitem a k = Ok v /\ nth_error a (Z.to_nat k) = Some v.
Proof.
  intros Hk. unfold getitem.
  destruct (Z.ltb_spec k 0); [lia|].
  destruct (Z.leb_spec 0 k); [|lia].
  destruct (Z.ltb_spec k (Z.of_nat (length a))); [|lia].
  simpl. destruct (nth_error a (Z.to_nat k)) eqn:E.
  - eauto.
  - apply nth_error_None in E. lia.
Qed.

Lemma getitem_Ok_range {A} (a : list A) (k : Z) v :
  getitem a k = Ok v -> - Z.of_nat (length a) <= k < Z.of_nat (length a).
Proof.
  unfold getitem. intros H.
  destruct (Z.ltb_spec k 0).
  - destruct (Z.leb_spec 0 (k + Z.of_nat (length a))); [|discriminate]. lia.
  - destruct (Z.leb_spec 0 k); [|lia].
    destruct (Z.ltb_spec k (Z.of_nat (length a))); [lia|discriminate].
Qed.

Lemma getitem_last {A} (a : list A) (v : A) :
  getitem (a ++ [v]) (-1) = Ok v.
Proof.
  unfold getitem. rewrite length_app. simpl length.
  change (-1 <? 0) with true. cbv iota zeta.
  destruct (Z.leb_spec 0 (-1 + Z.of_nat (length a + 1))); [|lia].
  destruct (Z.ltb_spec (-1 + Z.of_nat (length a + 1)) (Z.of_nat (length a + 1))); [|lia].
  cbn [andb].
  replace (Z.to_nat (-1 + Z.of_nat (length a + 1))) with (length a) by lia.
  rewrite (nth_error_app2 a [v] (Nat.le_refl _)), Nat.sub_diag. reflexivity.
Qed.

Lemma getitem_not_fuel {A} (a : list A) (k : Z) : getitem a k <> OutOfFuel.
Proof.
  unfold getitem.
  destruct ((0 <=? (if k <? 0 then k + Z.of_nat (length a) else k)) &&
            ((if k <? 0 then k + Z.of_nat (length a) else k) <?
               Z.of_nat (length a))); [|discriminate].
  destruct (nth_error a _); discriminate.
Qed.

(** ** Comparisons and rounding of binary64 values *)

Lemma SFcompare_refl p : sf_is_nan p = false -> SFcompare p p = Some Eq.
Proof.
  destruct p as [s|s| |s m e]; simpl; try discriminate; intros _;
    try (destruct s; reflexivity).
  rewrite Z.compare_refl.
  change (Pos.compare_cont Eq m m) with (Pos.compare m m).
  rewrite Pos.compare_refl. destruct s; reflexivity.
Qed.

Lemma SFcompare_nan p q :
  SFcompare p q = None <-> sf_is_nan p = true \/ sf_is_nan q = true.
Proof.
  destruct p as [s|s| |s m e], q as [s'|s'| |s' m' e']; simpl;
    split; intros H; try discriminate; auto; try (destruct H; discriminate).
  all: try (destruct s, s'; discriminate).
Qed.

Lemma SFcompare_antisym p q :
  SFcompare q p = option_map CompOpp (SFcompare p q).
Proof.
  destruct p as [s|s| |s m e], q as [s'|s'| |s' m' e']; simpl; auto;
    try (destruct s; reflexivity); try (destruct s'; reflexivity);
    try (destruct s, s'; reflexivity).
  change (Pos.compare_cont Eq m m') with (Pos.compare m m').
  change (Pos.compare_cont Eq m' m) with (Pos.compare m' m).
  rewrite (Z.compare_antisym e e'), (Pos.compare_antisym m m').
  destruct s, s'; simpl; auto;
    destruct (e ?= e'); simpl; auto; destruct (m ?= m')%positive; reflexivity.
Qed.

Lemma is_nan_spec f : is_nan f = sf_is_nan (Prim2SF f).
Proof.
  unfold is_nan. rewrite eqb_spec. unfold SFeqb.
  destruct (sf_is_nan (Prim2SF f)) eqn:E.
  - destruct (Prim2SF f); try discriminate. reflexivity.
  - now rewrite SFcompare_refl.
Qed.

Lemma SFcompare_lt_trans p q r :
  SFcompare p q = Some Lt -> SFcompare q r = Some Lt -> SFcompare p r = Some Lt.
Proof.
  destruct p as [s|s| |s m e], q as [s'|s'| |s' m' e'], r as [s''|s''| |s'' m'' e''];
    simpl; try discriminate; auto;
    try (destruct s; discriminate); try (destruct s'; discriminate);
    try (destruct s''; discriminate);
    try (destruct s, s'; discriminate || auto; fail);
    try (destruct s', s''; discriminate || auto; fail);
    try (destruct s, s''; discriminate || auto; fail);
    try (destruct s, s', s''; discriminate || auto; fail).
  change (Pos.compare_cont Eq m m') with (Pos.compare m m').
  change (Pos.compare_cont Eq m' m'') with (Pos.compare m' m'').
  change (Pos.compare_cont Eq m m'') with (Pos.compare m m'').
  destruct s, s', s''; try discriminate; auto;
    destruct (Z.compare_spec e e'), (Z.compare_spec e' e''), (Z.compare_spec e e'');
    try discriminate; auto; try lia; subst;
    destruct (Pos.compare_spec m m'), (Pos.compare_spec m' m''), (Pos.compare_spec m m'');
    simpl; try discriminate; auto; try lia.
Qed.

Lemma SFcompare_eq_trans p q r :
  SFcompare p q = Some Eq -> SFcompare q r = Some Eq -> SFcompare p r = Some Eq.
Proof.
  destruct p as [s|s| |s m e], q as [s'|s'| |s' m' e'], r as [s''|s''| |s'' m'' e''];
    simpl; try discriminate; auto;
    try (destruct s; discriminate); try (destruct s'; discriminate);
    try (destruct s''; discriminate);
    try (destruct s, s'; discriminate || auto; fail);
    try (destruct s', s''; discriminate || auto; fail);
    try (destruct s, s''; discriminate || auto; fail);
    try (destruct s, s', s''; discriminate || auto; fail).
  change (Pos.compare_cont Eq m m') with (Pos.compare m m').
  change (Pos.compare_cont Eq m' m'') with (Pos.compare m' m'').
  change (Pos.compare_cont Eq m m'') with (Pos.compare m m'').
  destruct s, s', s''; try discriminate; auto;
    destruct (Z.compare_spec e e'), (Z.compare_spec e' e''), (Z.compare_spec e e'');
    try discriminate; auto; try lia; subst;
    destruct (Pos.compare_spec m m'), (Pos.compare_spec m' m''), (Pos.compare_spec m m'');
    simpl; try discriminate; auto; try lia.
Qed.

Lemma SFcompare_lt_eq_trans p q r :
  SFcompare p q = Some Lt -> SFcompare q r = Some Eq -> SFcompare p r = Some Lt.
Proof.
  destruct p as [s|s| |s m e], q as [s'|s'| |s' m' e'], r as [s''|s''| |s'' m'' e''];
    simpl; try discriminate; auto;
    try (destruct s; discriminate); try (destruct s'; discriminate);
    try (destruct s''; discriminate);
    try (destruct s, s'; discriminate || auto; fail);
    try (destruct s', s''; discriminate || auto; fail);
    try (destruct s, s''; discriminate || auto; fail);
    try (destruct s, s', s''; discriminate || auto; fail).
  change (Pos.compare_cont Eq m m') with (Pos.compare m m').
  change (Pos.compare_cont Eq m' m'') with (Pos.compare m' m'').
  change (Pos.compare_cont Eq m m'') with (Pos.compare m m'').
  destruct s, s', s''; try discriminate; auto;
    destruct (Z.compare_spec e e'), (Z.compare_spec e' e''), (Z.compare_spec e e'');
    try discriminate; auto; try lia; subst;
    destruct (Pos.compare_spec m m'), (Pos.compare_spec m' m''), (Pos.compare_spec m m'');
    simpl; try discriminate; auto; try lia.
Qed.

Lemma float_ltb_leb_trans a b c :
  (a <? b)%float = true -> (b <=? c)%float = true -> (a <? c)%float = true.
Proof.
  rewrite !ltb_spec, leb_spec. unfold SFltb, SFleb. intros H1 H2.
  destruct (SFcompare (Prim2SF a) (Prim2SF b)) as [[]|] eqn:E1; try discriminate.
  destruct (SFcompare (Prim2SF b) (Prim2SF c)) as [[]|] eqn:E2; try discriminate.
  - now rewrite (SFcompare_lt_eq_trans _ _ _ E1 E2).
  - now rewrite (SFcompare_lt_trans _ _ _ E1 E2).
Qed.

Lemma float_ltb_trans a b c :
  (a <? b)%float = true -> (b <? c)%float = true -> (a <? c)%float = true.
Proof.
  rewrite !ltb_spec. unfold SFltb. intros H1 H2.
  destruct (SFcompare (Prim2SF a) (Prim2SF b)) as [[]|] eqn:E1; try discriminate.
  destruct (SFcompare (Prim2SF b) (Prim2SF c)) as [[]|] eqn:E2; try discriminate.
  now rewrite (SFcompare_lt_trans _ _ _ E1 E2).
Qed.

Lemma float_ltb_not_nan a b :
  (a <? b)%float = true -> is_nan a = false /\ is_nan b = false.
Proof.
  rewrite ltb_spec, !is_nan_spec. unfold SFltb. intros H.
  destruct (SFcompare (Prim2SF a) (Prim2SF b)) as [c|] eqn:E; [|discriminate].
  destruct (sf_is_nan (Prim2SF a)) eqn:Ea.
  - assert (SFcompare (Prim2SF a) (Prim2SF b) = None) by (apply SFcompare_nan; auto).
    congruence.
  - destruct (sf_is_nan (Prim2SF b)) eqn:Eb; auto.
    assert (SFcompare (Prim2SF a) (Prim2SF b) = None) by (apply SFcompare_nan; auto).
    congruence.
Qed.

Lemma float_ltb_false_leb a b :
  is_nan a = false -> is_nan b = false ->
  (a <? b)%float = false -> (b <=? a)%float = true.
Proof.
  rewrite ltb_spec, leb_spec, !is_nan_spec. unfold SFltb, SFleb.
  intros Ha Hb. rewrite (SFcompare_antisym (Prim2SF a) (Prim2SF b)).
  destruct (SFcompare (Prim2SF a) (Prim2SF b)) as [[]|] eqn:E; simpl; auto.
  apply SFcompare_nan in E. destruct E; congruence.
Qed.

Lemma float_eqb_sym a b : (a =? b)%float = (b =? a)%float.
Proof.
  rewrite !eqb_spec. unfold SFeqb.
  rewrite (SFcompare_antisym (Prim2SF a) (Prim2SF b)).
  destruct (SFcompare (Prim2SF a) (Prim2SF b)) as [[]|]; reflexivity.
Qed.

Lemma float_eqb_trans a b c :
  (a =? b)%float = true -> (b =? c)%float = true -> (a =? c)%float = true.
Proof.
  rewrite !eqb_spec. unfold SFeqb. intros H1 H2.
  destruct (SFcompare (Prim2SF a) (Prim2SF b)) as [[]|] eqn:E1; try discriminate.
  destruct (SFcompare (Prim2SF b) (Prim2SF c)) as [[]|] eqn:E2; try discriminate.
  now rewrite (SFcompare_eq_trans _ _ _ E1 E2).
Qed.

Section Rounding.
Variables prec emax : Z.

Lemma shr_1_nonneg mrs : 0 <= shr_m mrs -> 0 <= shr_m (shr_1 mrs).
Proof.
  destruct mrs as [m r s]. simpl. destruct m as [|p|p]; simpl; try lia;
    destruct p; simpl; lia.
Qed.

Lemma iter_pos_shr_1_nonneg p : forall mrs,
  0 <= shr_m mrs -> 0 <= shr_m (iter_pos shr_1 p mrs).
Proof.
  induction p as [p IH|p IH|]; intros mrs H; simpl.
  - apply IH, IH, shr_1_nonneg, H.
  - apply IH, IH, H.
  - apply shr_1_nonneg, H.
Qed.

Lemma shr_fexp_nonneg m e l :
  0 <= m -> 0 <= shr_m (fst (shr_fexp prec emax m e l)).
Proof.
  intros Hm. unfold shr_fexp, shr.
  assert (H0 : 0 <= shr_m (shr_record_of_loc m l))
    by (destruct l as [|[]]; simpl; lia).
  destruct (fexp prec emax (Zdigits2 m + e) - e); simpl; auto.
  now apply iter_pos_shr_1_nonneg.
Qed.

Lemma round_nearest_even_nonneg m l : 0 <= m -> 0 <= round_nearest_even m l.
Proof.
  intros Hm. unfold round_nearest_even.
  destruct l as [|[]]; try lia. destruct (Z.even m); lia.
Qed.

Lemma binary_round_aux_signed s m e l :
  0 <= m -> sf_signed s (binary_round_aux prec emax s m e l) = true.
Proof.
  intros Hm. unfold binary_round_aux.
  pose proof (shr_fexp_nonneg m e l Hm) as H1.
  destruct (shr_fexp prec emax m e l) as [mrs' e'] eqn:E1. simpl in H1.
  pose proof (shr_fexp_nonneg (round_nearest_even (shr_m mrs') (loc_of_shr_record mrs'))
                e' loc_Exact (round_nearest_even_nonneg _ _ H1)) as H2.
  destruct (shr_fexp prec emax _ e' loc_Exact) as [mrs'' e''] eqn:E2. simpl in H2.
  destruct (shr_m mrs'') as [|p|p]; simpl; try lia.
  - apply Bool.eqb_reflx.
  - destruct (e'' <=? emax - prec); simpl; apply Bool.eqb_reflx.
Qed.

Lemma binary_round_signed s m e :
  sf_signed s (binary_round prec emax s m e) = true.
Proof.
  unfold binary_round.
  destruct (shl_align m e (fexp prec emax (Z.pos (digits2_pos m) + e))) as [mz ez].
  apply binary_round_aux_signed. lia.
Qed.

Lemma binary_normalize_not_nan m e sz :
  sf_is_nan (binary_normalize prec emax m e sz) = false.
Proof.
  unfold binary_normalize. destruct m as [|p|p]; auto.
  - pose proof (binary_round_signed false p e) as H.
    destruct (binary_round prec emax false p e); auto; discriminate.
  - pose proof (binary_round_signed true p e) as H.
    destruct (binary_round prec emax true p e); auto; discriminate.
Qed.

End Rounding.



Lemma is_finite_spec f : is_finite f = sf_is_finite (Prim2SF f).
Proof.
  unfold is_finite, is_infinity. rewrite is_nan_spec, eqb_spec, abs_spec.
  change (Prim2SF infinity) with (S754_infinity false).
  destruct (Prim2SF f) as [s|s| |s m e]; try reflexivity; destruct s; reflexivity.
Qed.

Lemma SFsub_finite a b :
  sf_is_finite a = true -> sf_is_finite b = true ->
  sf_is_nan (SF64sub a b) = false.
Proof.
  destruct a as [s|s| |s m e], b as [s'|s'| |s' m' e']; simpl; try discriminate;
    intros _ _; auto.
  - destruct s, s'; reflexivity.
  - apply binary_normalize_not_nan.
Qed.

Lemma SFmul_self_nonneg a : sf_is_nan a = false -> sf_nonneg (SF64mul a a) = true.
Proof.
  destruct a as [s|s| |s m e]; simpl; try discriminate; intros _.
  - reflexivity.
  - now destruct s.
  - pose proof (binary_round_aux_signed prec emax (xorb s s) (Z.pos (m * m)) (e + e)
                  loc_Exact ltac:(lia)) as H.
    rewrite xorb_nilpotent in *.
    destruct (binary_round_aux prec emax false (Z.pos (m * m)) (e + e) loc_Exact)
      as [s1|s1| |s1 m1 e1]; simpl in *; auto; destruct s1; auto; discriminate.
Qed.

Lemma SFadd_nonneg a b :
  sf_nonneg a = true -> sf_nonneg b = true -> sf_nonneg (SF64add a b) = true.
Proof.
  destruct a as [s|s| |s m e], b as [s'|s'| |s' m' e']; simpl; try discriminate;
    auto; try (destruct s; try discriminate; destruct s'; try discriminate;
               reflexivity).
  destruct s; [discriminate|]. destruct s'; [discriminate|]. intros _ _.
  simpl.
  match goal with |- context [binary_round ?p ?em false ?m ?e] =>
    pose proof (binary_round_signed p em false m e) as H;
    destruct (binary_round p em false m e) as [s1|s1| |s1 m1 e1]
  end; simpl in *; auto; destruct s1; auto; discriminate.
Qed.

Lemma Zsqrtrem_nonneg n : 0 <= fst (Z.sqrtrem n).
Proof.
  destruct n as [|p|p]; simpl; try lia.
  destruct (Pos.sqrtrem p) as [s [|r|]]; simpl; lia.
Qed.

Lemma SFsqrt_nonneg a : sf_nonneg a = true -> sf_is_nan (SF64sqrt a) = false.
Proof.
  destruct a as [s|s| |s m e]; simpl; try discriminate; auto.
  - destruct s; [discriminate|reflexivity].
  - destruct s; [discriminate|]. intros _.
    unfold SFsqrt_core_binary.
    match goal with |- context [Z.sqrtrem ?n] =>
      pose proof (Zsqrtrem_nonneg n) as Hq; destruct (Z.sqrtrem n) as [q r]
    end. simpl in Hq.
    match goal with |- context [binary_round_aux ?p ?em false q ?e ?l] =>
      pose proof (binary_round_aux_signed p em false q e l Hq) as H;
      destruct (binary_round_aux p em false q e l)
    end; simpl in *; auto; discriminate.
Qed.

Lemma float_sub_self x : is_finite x = true -> (x - x)%float = 0%float.
Proof.
  rewrite is_finite_spec. intros H. apply Prim2SF_inj. rewrite sub_spec.
  change (Prim2SF 0) with (S754_zero false).
  destruct (Prim2SF x) as [s|s| |s m e]; try discriminate; simpl.
  - now destruct s.
  - now rewrite Z.sub_diag.
Qed.

Lemma float_sub_not_nan a b :
  is_finite a = true -> is_finite b = true -> is_nan (a - b)%float = false.
Proof.
  rewrite !is_finite_spec, is_nan_spec, sub_spec. apply SFsub_finite.
Qed.

(** The build that squares with a product is sound. *)
Lemma products_squares_sound : squares_sound products.
Proof.
  intros v Hv. cbn [power_2 products]. rewrite mul_spec.
  apply SFmul_self_nonneg. now rewrite <- is_nan_spec.
Qed.

Lemma euclid_not_nan {L : Numpy} xi xj yi yj :
  squares_sound L ->
  is_finite xi = true -> is_finite xj = true ->
  is_finite yi = true -> is_finite yj = true ->
  is_nan (sqrt (power_2 (xj - xi) + power_2 (yj - yi)))%float = false.
Proof.
  intros HL Hxi Hxj Hyi Hyj.
  rewrite is_nan_spec, sqrt_spec, add_spec.
  apply SFsqrt_nonneg, SFadd_nonneg; apply HL, float_sub_not_nan; auto.
Qed.

(** ** Magnitudes of rounded results *)

Lemma digits2_pos_size p : digits2_pos p = Pos.size p.
Proof. induction p; simpl; congruence. Qed.

Lemma Zdigits2_log2 m : 0 < m -> Zdigits2 m = Z.log2 m + 1.
Proof.
  destruct m as [|p|p]; try lia. intros _. simpl. rewrite digits2_pos_size.
  destruct p; simpl; lia.
Qed.

Lemma digits2_log2 p : Z.pos (digits2_pos p) = Z.log2 (Z.pos p) + 1.
Proof. apply (Zdigits2_log2 (Z.pos p)). lia. Qed.

Lemma shr_1_div2 mrs : 0 <= shr_m mrs -> shr_m (shr_1 mrs) = Z.div2 (shr_m mrs).
Proof.
  destruct mrs as [m r s]. simpl. destruct m as [|p|p]; simpl; try lia;
    destruct p; reflexivity.
Qed.

Lemma iter_pos_shr_1_shiftr p : forall mrs,
  0 <= shr_m mrs ->
  shr_m (iter_pos shr_1 p mrs) = Z.shiftr (shr_m mrs) (Z.pos p).
Proof.
  induction p as [p IH|p IH|]; intros mrs H; simpl iter_pos.
  - rewrite IH by (apply iter_pos_shr_1_nonneg, shr_1_nonneg, H).
    rewrite IH by (apply shr_1_nonneg, H).
    rewrite shr_1_div2 by exact H.
    rewrite Z.div2_spec, !Z.shiftr_shiftr by lia. f_equal. lia.
  - rewrite IH by (apply iter_pos_shr_1_nonneg, H). rewrite IH by exact H.
    rewrite !Z.shiftr_shiftr by lia. f_equal. lia.
  - rewrite shr_1_div2 by assumption. now rewrite Z.div2_spec.
Qed.

Section Magnitude.
Variables prec emax : Z.
Hypothesis Hprec : 0 < prec.
Hypothesis Hemax : 3 - emax - prec <= emax - prec.

Local Abbreviation emin := (SpecFloat.emin prec emax).
Local Abbreviation fexp := (SpecFloat.fexp prec emax).

(** [shr_fexp]: the mantissa is shifted right and the exponent moved up by
    the same amount. *)
Lemma shr_fexp_spec m e l :
  0 <= m ->
  let n := Z.max 0 (fexp (Zdigits2 m + e) - e) in
  shr_m (fst (shr_fexp prec emax m e l)) = Z.shiftr m n /\
  snd (shr_fexp prec emax m e l) = e + n.
Proof.
  intros Hm. unfold shr_fexp, shr.
  assert (H0 : shr_m (shr_record_of_loc m l) = m) by (destruct l as [|[]]; reflexivity).
  destruct (fexp (Zdigits2 m + e) - e) as [|p|p] eqn:En; cbn [fst snd Z.max Z.compare].
  - rewrite H0, Z.shiftr_0_r. split; [reflexivity|lia].
  - rewrite iter_pos_shr_1_shiftr by (rewrite H0; lia). rewrite H0.
    split; reflexivity.
  - rewrite H0, Z.shiftr_0_r. split; [reflexivity|lia].
Qed.

Lemma round_nearest_even_range m l :
  round_nearest_even m l = m \/ round_nearest_even m l = m + 1.
Proof.
  unfold round_nearest_even. destruct l as [|[]]; auto. destruct (Z.even m); auto.
Qed.

(** The result of rounding, spelled out. *)
Lemma binary_round_aux_spec s m e l :
  0 <= m ->
  let n1 := Z.max 0 (fexp (Zdigits2 m + e) - e) in
  let m1 := Z.shiftr m n1 in
  let e1 := e + n1 in
  exists m2, (m2 = m1 \/ m2 = m1 + 1) /\
    let n2 := Z.max 0 (fexp (Zdigits2 m2 + e1) - e1) in
    let m3 := Z.shiftr m2 n2 in
    let e3 := e1 + n2 in
    binary_round_aux prec emax s m e l =
      match m3 with
      | Z0 => S754_zero s
      | Zpos p => if e3 <=? emax - prec then S754_finite s p e3 else S754_infinity s
      | Zneg _ => S754_nan
      end.
Proof.
  intros Hm n1 m1 e1. unfold binary_round_aux.
  destruct (shr_fexp_spec m e l Hm) as [S1 E1].
  destruct (shr_fexp prec emax m e l) as [mrs' e'].
  cbn [fst snd] in S1, E1. fold n1 in S1, E1. fold m1 in S1. fold e1 in E1.
  set (m2 := round_nearest_even (shr_m mrs') (loc_of_shr_record mrs')).
  assert (Hm1 : 0 <= m1) by (apply Z.shiftr_nonneg; exact Hm).
  assert (R : m2 = m1 \/ m2 = m1 + 1)
    by (unfold m2; rewrite <- S1; apply round_nearest_even_range).
  assert (Hm2 : 0 <= m2) by lia.
  destruct (shr_fexp_spec m2 e' loc_Exact Hm2) as [S2 E2].
  destruct (shr_fexp prec emax m2 e' loc_Exact) as [mrs'' e''].
  cbn [fst snd] in S2, E2. subst e'.
  exists m2. split; [exact R|]. cbn zeta. now rewrite S2, E2.
Qed.

Lemma Zdigits2_nonneg m : 0 <= Zdigits2 m.
Proof. destruct m; simpl; lia. Qed.

Lemma Zdigits2_log2_le m : 0 <= m -> Zdigits2 m <= Z.log2 m + 1.
Proof.
  intros H. destruct (Z.eq_dec m 0) as [->|]; [simpl; lia|].
  rewrite Zdigits2_log2; lia.
Qed.

(** Rounding keeps a value below [2^B] representable and below [2^(B+1)]. *)
Lemma binary_round_aux_below s m e l B :
  0 < m -> Zdigits2 m + e <= B -> B + 1 <= emax -> e <= emax - prec ->
  sf_below (Z.max (B + 1) (emin + 2)) (binary_round_aux prec emax s m e l).
Proof.
  intros Hm HB HBe He.
  destruct (binary_round_aux_spec s m e l ltac:(lia)) as (m2 & R & ->).
  cbn zeta.
  set (n1 := Z.max 0 (fexp (Zdigits2 m + e) - e)) in *.
  set (m1 := Z.shiftr m n1) in *.
  set (e1 := e + n1) in *.
  set (n2 := Z.max 0 (fexp (Zdigits2 m2 + e1) - e1)).
  assert (Hm1 : 0 <= m1) by (apply Z.shiftr_nonneg; lia).
  assert (Hm2 : 0 <= m2) by lia.
  assert (L1 : Z.log2 m1 = Z.max 0 (Z.log2 m - n1)) by (apply Z.log2_shiftr; lia).
  assert (L2 : Z.log2 m2 <= Z.log2 m1 + 1).
  { destruct R as [->| ->]; [lia|]. apply Z.log2_succ_le. }
  assert (D : Zdigits2 m = Z.log2 m + 1) by (apply Zdigits2_log2; lia).
  pose proof (Z.log2_nonneg m) as Lm.
  pose proof (Zdigits2_log2_le m2 Hm2) as D2.
  pose proof (Zdigits2_nonneg m2) as D2'.
  assert (Hm3 : 0 <= Z.shiftr m2 n2) by (apply Z.shiftr_nonneg; lia).
  destruct (Z.shiftr m2 n2) as [|p|p] eqn:E3; [exact I| |lia].
  assert (L3 : Z.log2 (Z.pos p) = Z.max 0 (Z.log2 m2 - n2)).
  { rewrite <- E3. apply Z.log2_shiftr.
    destruct (Z.eq_dec m2 0) as [->|]; [|lia]. rewrite Z.shiftr_0_l in E3. lia. }
  assert (D3 : Z.pos (digits2_pos p) = Z.log2 (Z.pos p) + 1)
    by (apply (Zdigits2_log2 (Z.pos p)); lia).
  assert (Hm2' : 0 < m2).
  { destruct (Z.eq_dec m2 0) as [->|]; [|lia]. rewrite Z.shiftr_0_l in E3. lia. }
  assert (D2e : Zdigits2 m2 = Z.log2 m2 + 1) by (apply Zdigits2_log2; lia).
  pose proof (Z.log2_nonneg m1) as Lm1. pose proof (Z.log2_nonneg m2) as Lm2.
  assert (Hn2 : n2 <= Z.log2 m2).
  { destruct (Z.le_gt_cases n2 (Z.log2 m2)); [assumption|].
    rewrite Z.shiftr_eq_0 in E3 by lia. discriminate. }
  clearbody m1. unfold SpecFloat.fexp, SpecFloat.emin in *.
  destruct (Z.leb_spec (e1 + n2) (emax - prec)) as [Hfin|Hinf]; unfold sf_below.
  - rewrite D3, L3. subst n2 e1 n1. change IntDef.Z.max with Z.max in *. lia.
  - subst n2 e1 n1. change IntDef.Z.max with Z.max in *. lia.
Qed.

(** Rounding does not bring a value of at least [2^emin] below its power of
    two. *)
Lemma binary_round_aux_above s m e l :
  0 < m -> emin + 1 <= Zdigits2 m + e ->
  sf_above (Zdigits2 m + e) (binary_round_aux prec emax s m e l).
Proof.
  intros Hm HA.
  destruct (binary_round_aux_spec s m e l ltac:(lia)) as (m2 & R & ->).
  cbn zeta.
  set (n1 := Z.max 0 (fexp (Zdigits2 m + e) - e)) in *.
  set (m1 := Z.shiftr m n1) in *.
  set (e1 := e + n1) in *.
  set (n2 := Z.max 0 (fexp (Zdigits2 m2 + e1) - e1)).
  assert (D : Zdigits2 m = Z.log2 m + 1) by (apply Zdigits2_log2; lia).
  pose proof (Z.log2_nonneg m) as Lm.
  assert (Hn1 : n1 <= Z.log2 m).
  { subst n1. unfold SpecFloat.fexp, SpecFloat.emin in *.
    change IntDef.Z.max with Z.max in *. lia. }
  assert (L1 : Z.log2 m1 = Z.max 0 (Z.log2 m - n1)) by (apply Z.log2_shiftr; lia).
  assert (Hm1 : 0 < m1).
  { subst m1. rewrite Z.shiftr_div_pow2 by (subst n1; lia).
    apply Z.div_str_pos. split; [apply Z.pow_pos_nonneg; subst n1; lia|].
    apply Z.log2_le_pow2; lia. }
  assert (Hm2 : 0 < m2) by lia.
  assert (L2 : Z.log2 m1 <= Z.log2 m2) by (apply Z.log2_le_mono; lia).
  assert (D2 : Zdigits2 m2 = Z.log2 m2 + 1) by (apply Zdigits2_log2; lia).
  pose proof (Z.log2_nonneg m2) as Lm2.
  assert (Hn2 : n2 <= Z.log2 m2).
  { subst n2 e1 n1. unfold SpecFloat.fexp, SpecFloat.emin in *.
    change IntDef.Z.max with Z.max in *. lia. }
  assert (L3 : Z.log2 (Z.shiftr m2 n2) = Z.max 0 (Z.log2 m2 - n2))
    by (apply Z.log2_shiftr; lia).
  assert (Hm3 : 0 < Z.shiftr m2 n2).
  { rewrite Z.shiftr_div_pow2 by (subst n2; lia).
    apply Z.div_str_pos. split; [apply Z.pow_pos_nonneg; subst n2; lia|].
    apply Z.log2_le_pow2; lia. }
  destruct (Z.shiftr m2 n2) as [|p|p] eqn:E3; try lia.
  assert (D3 : Z.pos (digits2_pos p) = Z.log2 (Z.pos p) + 1)
    by (apply (Zdigits2_log2 (Z.pos p)); lia).
  destruct (e1 + n2 <=? emax - prec); unfold sf_above; [|exact I].
  rewrite D3, L3. subst e1. lia.
Qed.

Lemma pos_iter_xO (m d : positive) : Z.pos (Pos.iter xO m d) = Z.pos m * 2 ^ Z.pos d.
Proof.
  induction d as [|d IH] using Pos.peano_ind.
  - simpl. lia.
  - rewrite Pos.iter_succ, Pos2Z.inj_succ, Z.pow_succ_r by lia.
    rewrite Pos2Z.inj_xO, IH. lia.
Qed.

Lemma shl_align_spec mx ex ex' :
  let '(mz, ez) := shl_align mx ex ex' in
  ez = Z.min ex ex' /\ Z.pos mz = Z.pos mx * 2 ^ (ex - ez).
Proof.
  unfold shl_align. destruct (ex' - ex) as [|d|d] eqn:E.
  - split; [lia|]. replace (ex - ex) with 0 by lia. lia.
  - split; [lia|]. replace (ex - ex) with 0 by lia. lia.
  - split; [lia|]. rewrite pos_iter_xO. f_equal. f_equal. lia.
Qed.

Lemma shl_align_mag mx ex ex' :
  let '(mz, ez) := shl_align mx ex ex' in
  ez = Z.min ex ex' /\ Z.pos (digits2_pos mz) + ez = Z.pos (digits2_pos mx) + ex.
Proof.
  pose proof (shl_align_spec mx ex ex') as H.
  destruct (shl_align mx ex ex') as [mz ez]. destruct H as [He Hm].
  split; [exact He|].
  rewrite !digits2_log2, Hm, Z.log2_mul_pow2 by lia. lia.
Qed.

Lemma binary_round_below s mx ex B :
  Z.pos (digits2_pos mx) + ex <= B -> B + 1 <= emax ->
  sf_below (Z.max (B + 1) (emin + 2)) (binary_round prec emax s mx ex).
Proof.
  intros HB HBe. unfold binary_round.
  pose proof (shl_align_mag mx ex (fexp (Z.pos (digits2_pos mx) + ex))) as H.
  destruct (shl_align mx ex _) as [mz ez]. destruct H as [He Hm].
  apply binary_round_aux_below; try lia.
  - change (Zdigits2 (Z.pos mz)) with (Z.pos (digits2_pos mz)). lia.
  - subst ez. unfold SpecFloat.fexp, SpecFloat.emin in *.
    change IntDef.Z.max with Z.max in *. lia.
Qed.

Lemma binary_round_above s mx ex :
  emin + 1 <= Z.pos (digits2_pos mx) + ex ->
  sf_above (Z.pos (digits2_pos mx) + ex) (binary_round prec emax s mx ex).
Proof.
  intros HA. unfold binary_round.
  pose proof (shl_align_mag mx ex (fexp (Z.pos (digits2_pos mx) + ex))) as H.
  destruct (shl_align mx ex _) as [mz ez]. destruct H as [He Hm].
  rewrite <- Hm. apply (binary_round_aux_above s (Z.pos mz) ez loc_Exact); [lia|].
  change (Zdigits2 (Z.pos mz)) with (Z.pos (digits2_pos mz)). lia.
Qed.

End Magnitude.

(** *** binary64 *)

Lemma valid_finite s m e :
  valid_binary (S754_finite s m e) = true ->
  -1074 <= e <= 971 /\ Z.pos (digits2_pos m) <= 53 /\
  (Z.pos (digits2_pos m) = 53 \/ e = -1074).
Proof.
  unfold SpecFloat.valid_binary, bounded, canonical_mantissa, SpecFloat.fexp,
    SpecFloat.emin, prec, emax.
  rewrite andb_true_iff, Z.eqb_eq, Z.leb_le.
  change IntDef.Z.max with Z.max. lia.
Qed.

Lemma binary64_aux_below s m e l B :
  0 < m -> Zdigits2 m + e <= B -> B + 1 <= 1024 -> e <= 971 ->
  sf_below (Z.max (B + 1) (-1072)) (binary_round_aux prec emax s m e l).
Proof.
  intros. apply (binary_round_aux_below prec emax); unfold prec, emax; lia.
Qed.

Lemma binary64_round_below s m e B :
  Z.pos (digits2_pos m) + e <= B -> B + 1 <= 1024 ->
  sf_below (Z.max (B + 1) (-1072)) (binary_round prec emax s m e).
Proof.
  intros. apply (binary_round_below prec emax); unfold prec, emax; lia.
Qed.

Lemma binary64_round_above s m e :
  -1073 <= Z.pos (digits2_pos m) + e ->
  sf_above (Z.pos (digits2_pos m) + e) (binary_round prec emax s m e).
Proof.
  intros. apply (binary_round_above prec emax); unfold SpecFloat.emin, prec, emax; lia.
Qed.

Lemma sf_below_mono B B' r : B <= B' -> sf_below B r -> sf_below B' r.
Proof. destruct r; simpl; auto. lia. Qed.

Lemma sf_below_finite B r : sf_below B r -> sf_is_finite r = true.
Proof. destruct r; simpl; auto; contradiction. Qed.

(** Products *)
Lemma SFmul_below a b Ba Bb :
  valid_binary a = true -> valid_binary b = true ->
  sf_below Ba a -> sf_below Bb b -> Ba + Bb + 1 <= 1024 ->
  sf_below (Z.max (Ba + Bb + 1) (-1072)) (SF64mul a b).
Proof.
  intros Va Vb Ha Hb HB.
  destruct a as [sa|sa| |sa ma ea], b as [sb|sb| |sb mb eb];
    unfold sf_below in Ha, Hb; try contradiction; try exact I.
  apply valid_finite in Va, Vb.
  unfold SF64mul, SFmul.
  apply binary64_aux_below; try lia.
  change (Z.pos (ma * mb)) with (Z.pos ma * Z.pos mb).
  rewrite Zdigits2_log2 by lia.
  pose proof (Z.log2_mul_above (Z.pos ma) (Z.pos mb) ltac:(lia) ltac:(lia)).
  rewrite !digits2_log2 in *. lia.
Qed.

(** Sums and differences *)
Lemma aligned_below m e ez B :
  ez <= e -> Z.pos (digits2_pos m) + e <= B ->
  Z.pos (fst (shl_align m e ez)) < 2 ^ (B - ez).
Proof.
  intros Hez HB. pose proof (shl_align_spec m e ez) as H.
  destruct (shl_align m e ez) as [mz ez']. destruct H as [He Hm]. cbn [fst].
  rewrite Hm. replace ez' with ez by lia.
  rewrite digits2_log2 in HB.
  pose proof (Z.log2_nonneg (Z.pos m)).
  apply Z.log2_lt_pow2; [lia|]. rewrite Z.log2_mul_pow2 by lia. lia.
Qed.

Lemma aligned_above m e ez :
  ez <= e ->
  Z.log2 (Z.pos (fst (shl_align m e ez))) + 1 + ez = Z.pos (digits2_pos m) + e.
Proof.
  intros Hez. pose proof (shl_align_spec m e ez) as H.
  destruct (shl_align m e ez) as [mz ez']. destruct H as [He Hm]. cbn [fst].
  rewrite Hm. replace ez' with ez by lia.
  rewrite digits2_log2, Z.log2_mul_pow2 by lia. lia.
Qed.

Lemma binary64_normalize_below z ez sz B :
  Z.abs z < 2 ^ (B - ez) -> 0 <= B - ez -> B + 1 <= 1024 ->
  sf_below (Z.max (B + 1) (-1072)) (binary_normalize prec emax z ez sz).
Proof.
  intros Hz H0 HB. unfold binary_normalize.
  destruct z as [|p|p]; [exact I| |];
    apply binary64_round_below; try lia; rewrite digits2_log2;
    assert (Z.log2 (Z.pos p) < B - ez) by (apply Z.log2_lt_pow2; lia); lia.
Qed.

Lemma SFadd_below a b B :
  valid_binary a = true -> valid_binary b = true ->
  sf_below B a -> sf_below B b -> B + 2 <= 1024 ->
  sf_below (Z.max (B + 2) (-1072)) (SF64add a b).
Proof.
  intros Va Vb Ha Hb HB.
  destruct a as [sa|sa| |sa ma ea], b as [sb|sb| |sb mb eb];
    unfold sf_below in Ha, Hb; try contradiction.
  - unfold SF64add, SFadd. destruct sa, sb; exact I.
  - unfold SF64add, SFadd, sf_below. lia.
  - unfold SF64add, SFadd, sf_below. lia.
  - unfold SF64add, SFadd.
    set (ez := Z.min ea eb).
    pose proof (aligned_below ma ea ez B ltac:(lia) Ha) as Ma.
    pose proof (aligned_below mb eb ez B ltac:(lia) Hb) as Mb.
    replace (Z.max (B + 2) (-1072)) with (Z.max (B + 1 + 1) (-1072)) by lia.
    apply binary64_normalize_below; try lia.
    replace (B + 1 - ez) with (Z.succ (B - ez)) by lia.
    rewrite Z.pow_succ_r by lia.
    unfold cond_Zopp. destruct sa, sb; lia.
Qed.

Lemma SFsub_below a b B :
  valid_binary a = true -> valid_binary b = true ->
  sf_below B a -> sf_below B b -> B + 2 <= 1024 ->
  sf_below (Z.max (B + 2) (-1072)) (SF64sub a b).
Proof.
  intros Va Vb Ha Hb HB.
  destruct a as [sa|sa| |sa ma ea], b as [sb|sb| |sb mb eb];
    unfold sf_below in Ha, Hb; try contradiction.
  - unfold SF64sub, SFsub. destruct sa, sb; exact I.
  - unfold SF64sub, SFsub, sf_below. lia.
  - unfold SF64sub, SFsub, sf_below. lia.
  - unfold SF64sub, SFsub.
    set (ez := Z.min ea eb).
    pose proof (aligned_below ma ea ez B ltac:(lia) Ha) as Ma.
    pose proof (aligned_below mb eb ez B ltac:(lia) Hb) as Mb.
    replace (Z.max (B + 2) (-1072)) with (Z.max (B + 1 + 1) (-1072)) by lia.
    apply binary64_normalize_below; try lia.
    replace (B + 1 - ez) with (Z.succ (B - ez)) by lia.
    rewrite Z.pow_succ_r by lia.
    unfold cond_Zopp. destruct sa, sb; lia.
Qed.

Lemma binary64_aux_zero s e l :
  e <= 971 ->
  sf_below (Z.max (e + 1) (-1073)) (binary_round_aux prec emax s 0 e l).
Proof.
  intros He.
  destruct (binary_round_aux_spec prec emax s 0 e l ltac:(lia)) as (m2 & R & ->).
  cbn zeta. rewrite Z.shiftr_0_l in *. change (Zdigits2 0) with 0 in *.
  unfold SpecFloat.fexp, SpecFloat.emin, prec, emax in *.
  change IntDef.Z.max with Z.max in *.
  destruct R as [-> | ->].
  - rewrite Z.shiftr_0_l. exact I.
  - change (0 + 1) with 1. change (Zdigits2 1) with 1.
    set (e1 := e + Z.max 0 (Z.max (0 + e - 53) (3 - 1024 - 53) - e)).
    assert (He1 : e1 = Z.max e (-1074)) by (subst e1; lia).
    replace (Z.max 0 (Z.max (1 + e1 - 53) (3 - 1024 - 53) - e1)) with 0 by lia.
    rewrite Z.shiftr_0_r, Z.add_0_r.
    destruct (Z.leb_spec e1 (1024 - 53)); unfold sf_below; simpl digits2_pos; lia.
Qed.

(** Quotients *)
Lemma SFdiv_below a sb mb eb Ba Ab :
  valid_binary a = true -> valid_binary (S754_finite sb mb eb) = true ->
  sf_below Ba a -> Ab <= Z.pos (digits2_pos mb) + eb -> Ba - Ab + 2 <= 1024 ->
  sf_below (Z.max (Ba - Ab + 2) (-1072)) (SF64div a (S754_finite sb mb eb)).
Proof.
  intros Va Vb Ha Hb HB.
  destruct a as [sa|sa| |sa ma ea]; unfold sf_below in Ha; try contradiction;
    [exact I|].
  apply valid_finite in Va, Vb.
  unfold SF64div, SFdiv, SFdiv_core_binary.
  change (Zdigits2 (Z.pos ma)) with (Z.pos (digits2_pos ma)).
  change (Zdigits2 (Z.pos mb)) with (Z.pos (digits2_pos mb)).
  set (e' := Z.min (SpecFloat.fexp prec emax
                      (Z.pos (digits2_pos ma) + ea - (Z.pos (digits2_pos mb) + eb)))
                   (ea - eb)).
  set (s := ea - eb - e').
  assert (Hs : 0 <= s) by (subst s e'; lia).
  set (m' := match s with
             | 0 => Z.pos ma
             | Z.pos _ => Z.shiftl (Z.pos ma) s
             | Z.neg _ => 0
             end).
  assert (Hm' : m' = Z.shiftl (Z.pos ma) s).
  { subst m'. destruct s; try lia. now rewrite Z.shiftl_0_r. }
  assert (Hm'0 : 0 < m').
  { rewrite Hm', Z.shiftl_mul_pow2 by lia.
    apply Z.mul_pos_pos; [lia|]. apply Z.pow_pos_nonneg; lia. }
  assert (Lm' : Z.log2 m' = Z.log2 (Z.pos ma) + s)
    by (rewrite Hm'; apply Z.log2_shiftl; lia).
  assert (Hq : fst (Z.div_eucl m' (Z.pos mb)) = m' / Z.pos mb) by reflexivity.
  destruct (Z.div_eucl m' (Z.pos mb)) as [q r]. cbn [fst] in Hq. subst q.
  assert (Hq0 : 0 <= m' / Z.pos mb) by (apply Z.div_pos; lia).
  assert (He' : e' <= 971).
  { subst e'. unfold SpecFloat.fexp, SpecFloat.emin, prec, emax.
    change IntDef.Z.max with Z.max. lia. }
  destruct (Z.eq_dec (m' / Z.pos mb) 0) as [Hz|Hnz].
  - rewrite Hz. eapply sf_below_mono; [|apply binary64_aux_zero; exact He'].
    subst e'. unfold SpecFloat.fexp, SpecFloat.emin, prec, emax.
    change IntDef.Z.max with Z.max. lia.
  - replace (Z.max (Ba - Ab + 2) (-1072)) with (Z.max (Ba - Ab + 1 + 1) (-1072)) by lia.
    apply binary64_aux_below; try lia.
    rewrite Zdigits2_log2 by lia.
    pose proof (Z.log2_mul_below (m' / Z.pos mb) (Z.pos mb) ltac:(lia) ltac:(lia)) as L1.
    pose proof (Z.mul_div_le m' (Z.pos mb) ltac:(lia)) as L2.
    pose proof (Z.log2_le_mono (Z.pos mb * (m' / Z.pos mb)) m' L2) as L3.
    rewrite Z.mul_comm in L3. rewrite !digits2_log2 in *. subst s. lia.
Qed.

Lemma SFadd_pos_above ma ea mb eb :
  valid_binary (S754_finite false ma ea) = true ->
  valid_binary (S754_finite false mb eb) = true ->
  sf_above (Z.pos (digits2_pos mb) + eb)
    (SF64add (S754_finite false ma ea) (S754_finite false mb eb)) /\
  sf_signed false (SF64add (S754_finite false ma ea) (S754_finite false mb eb)) = true.
Proof.
  intros Va Vb. apply valid_finite in Va, Vb.
  unfold SF64add, SFadd. set (ez := Z.min ea eb). unfold cond_Zopp.
  pose proof (aligned_above mb eb ez ltac:(lia)) as Mb.
  set (za := fst (shl_align ma ea ez)) in *.
  set (zb := fst (shl_align mb eb ez)) in *.
  change (Z.pos za + Z.pos zb) with (Z.pos (za + zb)).
  unfold binary_normalize. split; [|apply binary_round_signed].
  pose proof (Z.log2_le_mono (Z.pos zb) (Z.pos (za + zb)) ltac:(lia)) as L.
  pose proof (Z.log2_nonneg (Z.pos zb)).
  assert (HA : -1073 <= Z.pos (digits2_pos (za + zb)) + ez)
    by (rewrite digits2_log2; lia).
  pose proof (binary64_round_above false (za + zb) ez HA) as R.
  destruct (binary_round prec emax false (za + zb) ez); unfold sf_above in *;
    try contradiction; auto.
  rewrite digits2_log2 in R. lia.
Qed.

Lemma SFmul_finite_not_nan a b :
  sf_is_finite a = true -> sf_is_finite b = true -> sf_is_nan (SF64mul a b) = false.
Proof.
  destruct a as [sa|sa| |sa ma ea], b as [sb|sb| |sb mb eb]; try discriminate;
    intros _ _; try reflexivity.
  unfold SF64mul, SFmul.
  pose proof (binary_round_aux_signed prec emax (xorb sa sb) (Z.pos (ma * mb))
                (ea + eb) loc_Exact ltac:(lia)) as H.
  destruct (binary_round_aux _ _ _ _ _ _); auto; discriminate.
Qed.

(** *** From comparisons to magnitudes *)

Lemma SFleb_pos_mag ma ea mb eb :
  valid_binary (S754_finite false ma ea) = true ->
  valid_binary (S754_finite false mb eb) = true ->
  SFleb (S754_finite false ma ea) (S754_finite false mb eb) = true ->
  Z.pos (digits2_pos ma) + ea <= Z.pos (digits2_pos mb) + eb.
Proof.
  intros Va Vb. apply valid_finite in Va, Vb.
  unfold SFleb, SFcompare.
  change (Pos.compare_cont Eq ma mb) with (Pos.compare ma mb).
  destruct (Z.compare_spec ea eb) as [He|He|He]; try discriminate; [|lia].
  destruct (Pos.compare_spec ma mb) as [Hm|Hm|Hm]; try discriminate; intros _.
  - subst. lia.
  - rewrite !digits2_log2.
    pose proof (Z.log2_le_mono (Z.pos ma) (Z.pos mb) ltac:(lia)). lia.
Qed.

Lemma SFleb_between p ml el mh eh :
  SFleb (S754_finite false ml el) p = true ->
  SFleb p (S754_finite false mh eh) = true ->
  exists m e, p = S754_finite false m e.
Proof.
  destruct p as [s|s| |s m e]; unfold SFleb; simpl; try discriminate.
  - destruct s; discriminate.
  - destruct s; simpl; [discriminate|]. eauto.
Qed.

Lemma SFleb_abs_below p mg eg :
  valid_binary p = true -> valid_binary (S754_finite false mg eg) = true ->
  SFleb (SFabs p) (S754_finite false mg eg) = true ->
  sf_below (Z.pos (digits2_pos mg) + eg) p.
Proof.
  intros Vp Vg. destruct p as [s|s| |s m e]; try discriminate; try exact I.
  - intros _. exact I.
  - intros H. unfold SFabs in H. unfold sf_below.
    apply SFleb_pos_mag; auto.
Qed.

Lemma float_ltb_leb a b : (a <? b)%float = true -> (a <=? b)%float = true.
Proof.
  rewrite ltb_spec, leb_spec. unfold SFltb, SFleb.
  destruct (SFcompare (Prim2SF a) (Prim2SF b)) as [[]|]; auto.
Qed.

Lemma float_leb_refl a : is_nan a = false -> (a <=? a)%float = true.
Proof.
  rewrite is_nan_spec, leb_spec. unfold SFleb. intros H.
  now rewrite SFcompare_refl.
Qed.

Lemma float_leb_not_nan a b :
  (a <=? b)%float = true -> is_nan a = false /\ is_nan b = false.
Proof.
  rewrite leb_spec, !is_nan_spec. unfold SFleb. intros H.
  destruct (SFcompare (Prim2SF a) (Prim2SF b)) as [c|] eqn:E; [|discriminate].
  destruct (sf_is_nan (Prim2SF a)) eqn:Ea.
  - assert (SFcompare (Prim2SF a) (Prim2SF b) = None) by (apply SFcompare_nan; auto).
    congruence.
  - destruct (sf_is_nan (Prim2SF b)) eqn:Eb; auto.
    assert (SFcompare (Prim2SF a) (Prim2SF b) = None) by (apply SFcompare_nan; auto).
    congruence.
Qed.

(** ** The compression loop *)

Lemma dist_not_fuel {L : Numpy}
    (x y : list float) (i j : Z) : dist x y i j <> OutOfFuel.
Proof.
  unfold dist.
  pose proof (getitem_not_fuel x j). pose proof (getitem_not_fuel x i).
  pose proof (getitem_not_fuel y j). pose proof (getitem_not_fuel y i).
  destruct (getitem x j); cbn [bind]; try congruence.
  destruct (getitem x i); cbn [bind]; try congruence.
  destruct (getitem y j); cbn [bind]; try congruence.
  destruct (getitem y i); cbn [bind]; congruence.
Qed.

Section CompressTermination.

Context {L : Numpy}.

Variables t x y : list float.
Variable delta : float.

Local Abbreviation N := (len_t t).

Lemma inner_while_bounds fuel : forall i j j',
  inner_while t x y delta fuel i j = Ok j' -> j <= j' <= Z.max j N.
Proof.
  induction fuel as [|fuel IH]; intros i j j' H; [discriminate|].
  simpl in H. destruct (Z.ltb_spec j N) as [Hlt|Hge].
  - destruct (dist x y i j) as [d| |]; simpl in H; try discriminate.
    destruct (delta <? d)%float.
    + injection H as <-. lia.
    + apply IH in H. lia.
  - injection H as <-. lia.
Qed.

Lemma inner_while_stable fuel : forall fuel' i j,
  Z.max 0 (N - j) < Z.of_nat fuel -> Z.max 0 (N - j) < Z.of_nat fuel' ->
  inner_while t x y delta fuel i j = inner_while t x y delta fuel' i j /\
  inner_while t x y delta fuel i j <> OutOfFuel.
Proof.
  induction fuel as [|fuel IH]; intros fuel' i j Hf Hf'; [lia|].
  destruct fuel' as [|fuel']; [lia|]. simpl.
  destruct (Z.ltb_spec j N) as [Hlt|Hge]; [|split; congruence].
  pose proof (dist_not_fuel x y i j) as Hd.
  destruct (dist x y i j) as [d| |]; cbn [bind]; try (split; congruence).
  destruct (delta <? d)%float; [split; congruence|].
  apply IH; lia.
Qed.

Lemma outer_while_stable fuel : forall fuel' fuel_in fuel_in' acc i,
  0 <= i -> N - i <= Z.of_nat fuel -> N - i <= Z.of_nat fuel' ->
  (1 <= fuel)%nat -> (1 <= fuel')%nat ->
  N < Z.of_nat fuel_in -> N < Z.of_nat fuel_in' ->
  outer_while t x y delta fuel fuel_in acc i =
    outer_while t x y delta fuel' fuel_in' acc i /\
  outer_while t x y delta fuel fuel_in acc i <> OutOfFuel.
Proof.
  induction fuel as [|fuel IH];
    intros fuel' fin fin' acc i Hi Hf Hf' H1 H1' Hfi Hfi'; [lia|].
  destruct fuel' as [|fuel']; [lia|]. simpl.
  destruct (Z.ltb_spec i (N - 1)) as [Hlt|Hge]; [|split; congruence].
  destruct (inner_while_stable fin fin' i (i + 1)) as [He Hne]; try lia.
  rewrite <- He.
  destruct (inner_while t x y delta fin i (i + 1)) as [j| |] eqn:Hin;
    simpl; try (split; congruence).
  apply inner_while_bounds in Hin.
  destruct (Z.geb_spec j N) as [Hj|Hj]; [split; congruence|].
  apply IH; lia.
Qed.

Lemma outer_while_bounds fuel fuel_in : forall acc i res,
  outer_while t x y delta fuel fuel_in acc i = Ok res ->
  exists l, res = acc ++ l /\ Forall (fun k => i < k < N) l.
Proof.
  induction fuel as [|fuel IH]; intros acc i res H; [discriminate|].
  simpl in H. destruct (Z.ltb_spec i (N - 1)) as [Hlt|Hge].
  - destruct (inner_while t x y delta fuel_in i (i + 1)) as [j| |] eqn:Hin;
      simpl in H; try discriminate.
    apply inner_while_bounds in Hin.
    destruct (Z.geb_spec j N) as [Hj|Hj].
    + injection H as <-. exists []. now rewrite app_nil_r.
    + apply IH in H. destruct H as (l & -> & Hl).
      exists (j :: l). rewrite <- app_assoc. split; [reflexivity|].
      constructor; [lia|]. eapply Forall_impl; [|exact Hl].
      simpl. intros k Hk. lia.
  - injection H as <-. exists []. now rewrite app_nil_r.
Qed.

Lemma compress_trajectory_fuel_stable fuel fuel' :
  N < Z.of_nat fuel -> N < Z.of_nat fuel' ->
  compress_trajectory_fuel t x y delta fuel =
    compress_trajectory_fuel t x y delta fuel' /\
  compress_trajectory_fuel t x y delta fuel <> OutOfFuel.
Proof.
  intros Hf Hf'. unfold compress_trajectory_fuel.
  assert (HN : 0 <= N) by (unfold len_t; lia).
  destruct (outer_while_stable fuel fuel' fuel fuel' [0] 0) as [He Hne];
    try lia.
  rewrite <- He.
  destruct (outer_while t x y delta fuel fuel [0] 0) as [res| |] eqn:Ho;
    cbn [bind]; try (split; congruence).
  apply outer_while_bounds in Ho. destruct Ho as (l & -> & _).
  destruct (@exists_last _ ([0] ++ l)) as (pre & v & Hpre); [discriminate|].
  rewrite Hpre, getitem_last. cbn [bind].
  destruct (negb (v =? N - 1)); split; congruence.
Qed.

Lemma compress_trajectory_fuel_range fuel idx :
  1 <= N -> compress_trajectory_fuel t x y delta fuel = Ok idx ->
  Forall (fun k => 0 <= k <= N - 1) idx.
Proof.
  intros HN. unfold compress_trajectory_fuel.
  destruct (outer_while t x y delta fuel fuel [0] 0) as [res| |] eqn:Ho;
    cbn [bind]; try discriminate.
  apply outer_while_bounds in Ho. destruct Ho as (l & -> & Hl).
  assert (Hall : Forall (fun k => 0 <= k <= N - 1) ([0] ++ l)).
  { constructor; [lia|]. eapply Forall_impl; [|exact Hl]. simpl. lia. }
  destruct (getitem ([0] ++ l) (-1)) as [v| |]; cbn [bind]; try discriminate.
  destruct (negb (v =? N - 1)); intros H; injection H as <-; auto.
  apply (proj2 (Forall_app _ ([0] ++ l) [N - 1])). split; auto.
  constructor; [lia|constructor].
Qed.

Lemma scans_last i l i' : scans t x y delta i l i' ->
  forall acc, getitem (acc ++ i :: l) (-1) = Ok i'.
Proof.
  induction 1 as [i|i j l i' Hp Hs IH]; intros acc.
  - apply getitem_last.
  - specialize (IH (acc ++ [i])). now rewrite <- app_assoc in IH.
Qed.

Lemma scans_bounds i l i' : scans t x y delta i l i' ->
  i <= i' /\ (i < N -> i' < N) /\ Forall (fun k => i < k <= i') l.
Proof.
  induction 1 as [i|i j l i' (Hij & _) Hs (IH1 & IH2 & IH3)].
  - repeat split; auto; lia.
  - repeat split; try lia. constructor; [lia|].
    eapply Forall_impl; [|exact IH3]. simpl. lia.
Qed.

Lemma scans_increasing i l i' : scans t x y delta i l i' ->
  strictly_increasing (i :: l) = true /\
  forall m, i' < m -> strictly_increasing (i :: l ++ [m]) = true.
Proof.
  induction 1 as [i|i j l i' (Hij & _) Hs (IH1 & IH2)].
  - split; [reflexivity|]. intros m Hm. simpl.
    destruct (Z.ltb_spec i m); [reflexivity|lia].
  - split.
    + change (((i <? j) && strictly_increasing (j :: l)) = true).
      rewrite IH1. destruct (Z.ltb_spec i j); [reflexivity|lia].
    + intros m Hm.
      change (((i <? j) && strictly_increasing (j :: l ++ [m])) = true).
      rewrite (IH2 m Hm). destruct (Z.ltb_spec i j); [reflexivity|lia].
Qed.

Lemma finish_increasing l i' :
  scans t x y delta 0 l i' -> i' <= N - 1 ->
  strictly_increasing (finish t l i') = true.
Proof.
  intros Hs Hi. unfold finish. destruct (scans_increasing 0 l i' Hs) as [H1 H2].
  destruct (Z.eqb_spec i' (N - 1)).
  - now rewrite app_nil_r.
  - apply H2. lia.
Qed.

Lemma finish_last l i' :
  scans t x y delta 0 l i' -> getitem (finish t l i') (-1) = Ok (N - 1).
Proof.
  intros Hs. unfold finish. destruct (Z.eqb_spec i' (N - 1)) as [He|Hne].
  - rewrite app_nil_r, <- He. exact (scans_last 0 l i' Hs []).
  - exact (getitem_last (0 :: l) (N - 1)).
Qed.

End CompressTermination.

Section CompressFacts.

Context {L : Numpy}.

Variables t x y : list float.
Variable delta : float.
Hypothesis Hx : (length t <= length x)%nat.
Hypothesis Hy : (length t <= length y)%nat.

Local Abbreviation N := (len_t t).

Lemma dist_in_range i j :
  0 <= i < N -> 0 <= j < N -> exists d, dist x y i j = Ok d.
Proof using Hx Hy.
  intros Hi Hj. unfold dist, len_t in *.
  destruct (getitem_nonneg x j) as (xj & -> & _); [lia|].
  destruct (getitem_nonneg x i) as (xi & -> & _); [lia|].
  destruct (getitem_nonneg y j) as (yj & -> & _); [lia|].
  destruct (getitem_nonneg y i) as (yi & -> & _); [lia|].
  simpl. eauto.
Qed.

Lemma inner_while_spec fuel : forall i j,
  0 <= i < N -> i < j <= N -> N - j < Z.of_nat fuel ->
  exists j', inner_while t x y delta fuel i j = Ok j' /\ j <= j' <= N /\
             (forall k, j <= k < j' -> far x y delta i k = false) /\
             (j' < N -> far x y delta i j' = true).
Proof using Hx Hy.
  induction fuel as [|fuel IH]; intros i j Hi Hj Hf; [lia|].
  simpl. destruct (Z.ltb_spec j N) as [Hlt|Hge].
  - destruct (dist_in_range i j) as (d & Hd); [lia|lia|].
    rewrite Hd. simpl. destruct (delta <? d)%float eqn:Hcmp.
    + exists j. repeat split; try lia. intros _. unfold far. now rewrite Hd.
    + destruct (IH i (j + 1)) as (j' & He & Hr & Hq & Hfar); try lia.
      exists j'. repeat split; try lia; auto.
      intros k Hk. destruct (Z.eq_dec k j) as [->|Hne].
      * unfold far. now rewrite Hd.
      * apply Hq. lia.
  - exists j. repeat split; try lia.
Qed.

Lemma outer_while_spec fuel fuel_in : forall acc i,
  0 <= i < N -> N - i <= Z.of_nat fuel -> N < Z.of_nat fuel_in ->
  exists l i', outer_while t x y delta fuel fuel_in acc i = Ok (acc ++ l) /\
               scans t x y delta i l i' /\
               (i' = N - 1 \/ (i' < N - 1 /\ tail_quiet t x y delta i')).
Proof using Hx Hy.
  induction fuel as [|fuel IH]; intros acc i Hi Hf Hfi; [lia|].
  simpl. destruct (Z.ltb_spec i (N - 1)) as [Hlt|Hge].
  - destruct (inner_while_spec fuel_in i (i + 1)) as (j & He & Hr & Hq & Hfar);
      try lia.
    rewrite He. simpl. destruct (Z.geb_spec j N) as [Hj|Hj].
    + exists [], i. rewrite app_nil_r. repeat split; [constructor|].
      right. split; [lia|]. intros k Hk. apply Hq. lia.
    + destruct (IH (acc ++ [j]) j) as (l & i' & Ho & Hs & Hend); try lia.
      exists (j :: l), i'. rewrite Ho, <- app_assoc. repeat split; auto.
      constructor; auto. repeat split; try lia; auto.
      intros k Hk. apply Hq. lia.
  - exists [], i. rewrite app_nil_r. repeat split; [constructor|]. left. lia.
Qed.

Lemma compress_trajectory_fuel_spec fuel :
  1 <= N -> N < Z.of_nat fuel ->
  exists l i', compress_trajectory_fuel t x y delta fuel = Ok (finish t l i') /\
               scans t x y delta 0 l i' /\
               (i' = N - 1 \/ (i' < N - 1 /\ tail_quiet t x y delta i')).
Proof using Hx Hy.
  intros HN Hf. unfold compress_trajectory_fuel.
  destruct (outer_while_spec fuel fuel [0] 0) as (l & i' & Ho & Hs & Hend);
    try lia.
  exists l, i'. rewrite Ho. cbn [bind].
  pose proof (scans_last t x y delta 0 l i' Hs []) as Hl. cbn [app] in *.
  rewrite Hl. cbn [bind]. unfold finish.
  destruct (Z.eqb_spec i' (N - 1)); cbn [negb]; split; auto.
  now rewrite app_nil_r.
Qed.

End CompressFacts.


Lemma getitem_In {A} (a : list A) (k : Z) (v : A) : getitem a k = Ok v -> In v a.
Proof.
  unfold getitem.
  destruct ((0 <=? (if k <? 0 then k + Z.of_nat (length a) else k)) &&
            ((if k <? 0 then k + Z.of_nat (length a) else k) <?
               Z.of_nat (length a))); [|discriminate].
  destruct (nth_error a _) eqn:E; [|discriminate].
  intros H. injection H as <-. eapply nth_error_In, E.
Qed.

Lemma dist_finite_not_nan {L : Numpy} (x y : list float) (i j : Z) (d : float) :
  squares_sound L ->
  forallb is_finite x = true -> forallb is_finite y = true ->
  dist x y i j = Ok d -> is_nan d = false.
Proof.
  intros HL Hx Hy. unfold dist.
  rewrite forallb_forall in Hx, Hy.
  destruct (getitem x j) as [xj| |] eqn:E1; cbn [bind]; try discriminate.
  destruct (getitem x i) as [xi| |] eqn:E2; cbn [bind]; try discriminate.
  destruct (getitem y j) as [yj| |] eqn:E3; cbn [bind]; try discriminate.
  destruct (getitem y i) as [yi| |] eqn:E4; cbn [bind]; try discriminate.
  intros H. injection H as <-.
  apply euclid_not_nan; [exact HL|apply Hx|apply Hx|apply Hy|apply Hy];
    eapply getitem_In; eassumption.
Qed.

Lemma far_true_dist {L : Numpy} (x y : list float) (delta : float) (i j : Z) :
  far x y delta i j = true ->
  exists d, dist x y i j = Ok d /\ (delta <? d)%float = true.
Proof.
  unfold far. destruct (dist x y i j) as [d| |]; try discriminate. eauto.
Qed.

(** The compression depends on the library only through the squares of the
    differences of the samples. *)
Lemma dist_products {L : Numpy} (x y : list float) (i j : Z) :
  squares_as_products L x y -> dist x y i j = dist (L := products) x y i j.
Proof.
  intros H. unfold dist.
  destruct (getitem x j) as [xj| |] eqn:E1; cbn [bind]; try reflexivity.
  destruct (getitem x i) as [xi| |] eqn:E2; cbn [bind]; try reflexivity.
  destruct (getitem y j) as [yj| |] eqn:E3; cbn [bind]; try reflexivity.
  destruct (getitem y i) as [yi| |] eqn:E4; cbn [bind]; try reflexivity.
  apply getitem_In in E1, E2, E3, E4.
  rewrite (H xi xj), (H yi yj) by tauto. reflexivity.
Qed.

Lemma inner_while_products {L : Numpy} (t x y : list float) (delta : float) :
  squares_as_products L x y ->
  forall fuel i j,
    inner_while t x y delta fuel i j = inner_while (L := products) t x y delta fuel i j.
Proof.
  intros H. induction fuel as [|fuel IH]; intros i j; simpl; [reflexivity|].
  rewrite (dist_products x y i j H).
  destruct (j <? len_t t); [|reflexivity].
  destruct (dist (L := products) x y i j) as [d| |]; cbn [bind]; try reflexivity.
  destruct (delta <? d)%float; [reflexivity|apply IH].
Qed.

Lemma outer_while_products {L : Numpy} (t x y : list float) (delta : float) :
  squares_as_products L x y ->
  forall fuel fuel_in acc i,
    outer_while t x y delta fuel fuel_in acc i =
    outer_while (L := products) t x y delta fuel fuel_in acc i.
Proof.
  intros H. induction fuel as [|fuel IH]; intros fuel_in acc i; simpl; [reflexivity|].
  rewrite (inner_while_products t x y delta H).
  destruct (i <? len_t t - 1); [|reflexivity].
  destruct (inner_while (L := products) t x y delta fuel_in i (i + 1)) as [j| |];
    cbn [bind]; try reflexivity.
  destruct (j >=? len_t t); [reflexivity|apply IH].
Qed.

Lemma compress_trajectory_products {L : Numpy} (t x y : list float) (delta : float) :
  squares_as_products L x y ->
  compress_trajectory t x y delta = compress_trajectory (L := products) t x y delta.
Proof.
  intros H. unfold compress_trajectory, compress_trajectory_fuel.
  now rewrite (outer_while_products t x y delta H).
Qed.

Section CompressSpacing.

Context {L : Numpy}.

Variables t x y : list float.
Variable delta : float.
Hypothesis Hx : length x = length t.
Hypothesis Hy : length y = length t.
Hypothesis Fx : forallb is_finite x = true.
Hypothesis Fy : forallb is_finite y = true.
Hypothesis Hdelta : is_nan delta = false.
Hypothesis HL : squares_sound L.

Local Abbreviation N := (len_t t).

(** A point that the scan steps over is within [delta] of the anchor. *)
Lemma far_false_within i k :
  0 <= i < N -> 0 <= k < N -> far x y delta i k = false ->
  exists dk, dist x y i k = Ok dk /\ (dk <=? delta)%float = true.
Proof using Hx Hy Fx Fy Hdelta HL.
  intros Hi Hk Hfar.
  destruct (dist_in_range t x y) with (i := i) (j := k) as (dk & Hd); try lia.
  exists dk. split; [exact Hd|].
  unfold far in Hfar. rewrite Hd in Hfar.
  apply float_ltb_false_leb; auto.
  exact (dist_finite_not_nan x y i k dk HL Fx Fy Hd).
Qed.

End CompressSpacing.

Section ScanPairs.

Context {L : Numpy}.

Variables t x y : list float.
Variable delta : float.

Lemma scans_pairs i l i' : scans t x y delta i l i' ->
  forall p a b, nth_error (i :: l) p = Some a ->
                nth_error (i :: l) (S p) = Some b -> scan_pair t x y delta a b.
Proof.
  induction 1 as [i|i j l i' Hp Hs IH]; intros p a b Ha Hb.
  - destruct p; discriminate.
  - destruct p as [|p].
    + simpl in Ha, Hb. injection Ha as <-. injection Hb as <-. exact Hp.
    + exact (IH p a b Ha Hb).
Qed.

Lemma scans_nth_last i l i' : scans t x y delta i l i' ->
  nth_error (i :: l) (length l) = Some i'.
Proof.
  induction 1 as [i|i j l i' Hp Hs IH]; [reflexivity|exact IH].
Qed.

(** Adjacent entries of the returned list: a scanned pair, or the final pair
    made by the unconditional append. *)
Lemma finish_pairs l i' :
  scans t x y delta 0 l i' ->
  i' = len_t t - 1 \/ (i' < len_t t - 1 /\ tail_quiet t x y delta i') ->
  forall p a b, nth_error (finish t l i') p = Some a ->
                nth_error (finish t l i') (S p) = Some b ->
    scan_pair t x y delta a b \/
    (S (S p) = length (finish t l i') /\ b = len_t t - 1 /\
     a < len_t t - 1 /\ tail_quiet t x y delta a).
Proof.
  intros Hs Hend p a b Ha Hb. unfold finish in *.
  change (0 :: l ++ ?tl) with ((0 :: l) ++ tl) in *.
  destruct (Nat.lt_ge_cases (S p) (length (0 :: l))) as [Hin|Hout].
  - left. rewrite nth_error_app1 in Ha by (simpl in *; lia).
    rewrite nth_error_app1 in Hb by exact Hin.
    exact (scans_pairs 0 l i' Hs p a b Ha Hb).
  - right. destruct (Z.eqb_spec i' (len_t t - 1)) as [He|Hne].
    + rewrite app_nil_r in Hb.
      assert (nth_error (0%Z :: l) (S p) = None) by (apply nth_error_None; exact Hout).
      congruence.
    + assert (Hp : S p = length (0%Z :: l)).
      { assert (S p < length ((0%Z :: l) ++ [(len_t t - 1)%Z]))%nat
          by (apply nth_error_Some; congruence).
        rewrite length_app in H. simpl in *. lia. }
      rewrite nth_error_app2 in Hb by lia.
      rewrite Hp, Nat.sub_diag in Hb. simpl in Hb. injection Hb as <-.
      rewrite nth_error_app1 in Ha by (simpl in *; lia).
      simpl in Hp. injection Hp as ->.
      rewrite (scans_nth_last 0 l i' Hs) in Ha. injection Ha as <-.
      repeat split.
      * rewrite length_app. simpl. lia.
      * destruct Hend as [|[? ?]]; [contradiction|assumption].
      * destruct Hend as [|[? ?]]; [contradiction|assumption].
Qed.

End ScanPairs.

Lemma take_in_range {A} (a : list A) (idx : list Z) :
  Forall (fun k => 0 <= k < Z.of_nat (length a)) idx ->
  exists vs, take a idx = Ok vs /\ length vs = length idx /\
             forall p k, nth_error idx p = Some k ->
                         nth_error vs p = nth_error a (Z.to_nat k).
Proof.
  induction 1 as [|k idx Hk Hall (vs & Ht & Hlen & Hnth)].
  - exists []. repeat split. intros [|p] k H; discriminate.
  - destruct (getitem_nonneg a k Hk) as (v & Hg & Hv).
    exists (v :: vs). simpl. rewrite Hg, Ht. simpl. repeat split.
    + now rewrite Hlen.
    + intros [|p] k' H; simpl in *.
      * injection H as <-. now rewrite Hv.
      * now apply Hnth.
Qed.

Lemma compress_trajectory_spec {L : Numpy} (t x y : list float) (delta : float) :
  (1 <= length t)%nat -> (length t <= length x)%nat -> (length t <= length y)%nat ->
  exists l i', compress_trajectory t x y delta = Ok (finish t l i') /\
               scans t x y delta 0 l i' /\
               (i' = len_t t - 1 \/ (i' < len_t t - 1 /\ tail_quiet t x y delta i')).
Proof.
  intros HN Hx Hy.
  apply (compress_trajectory_fuel_spec t x y delta Hx Hy (S (length t)));
    unfold len_t; lia.
Qed.

Lemma compress_trajectory_range {L : Numpy}
    (t x y : list float) (delta : float) indices :
  (1 <= length t)%nat -> compress_trajectory t x y delta = Ok indices ->
  Forall (fun k => 0 <= k < Z.of_nat (length t)) indices.
Proof.
  intros HN Hc. apply compress_trajectory_fuel_range in Hc; [|unfold len_t; lia].
  eapply Forall_impl; [|exact Hc]. unfold len_t. simpl. lia.
Qed.

Lemma compress_trajectory_reindex {L : Numpy}
    (t x y : list float) (delta : float) indices :
  (1 <= length t)%nat -> length x = length t -> length y = length t ->
  compress_trajectory t x y delta = Ok indices ->
  exists x_filt y_filt t_filt,
    take x indices = Ok x_filt /\ take y indices = Ok y_filt /\
    take t indices = Ok t_filt.
Proof.
  intros HN Hx Hy Hc.
  pose proof (compress_trajectory_range t x y delta indices HN Hc) as Hall.
  destruct (take_in_range t indices Hall) as (tf & Htf & _).
  rewrite <- Hx in Hall. destruct (take_in_range x indices Hall) as (xf & Hxf & _).
  rewrite Hx, <- Hy in Hall.
  destruct (take_in_range y indices Hall) as (yf & Hyf & _).
  exists xf, yf, tf. auto.
Qed.

(** C1: on a trajectory with at least one sample the returned index list
    is non-empty, strictly increasing, starts with index 0 and ends with
    index [len(t) - 1], whatever the threshold. *)
Theorem compress_trajectory_index_set {L : Numpy} (t x y : list float) (delta : float) :
  (1 <= length t)%nat -> length x = length t -> length y = length t ->
  exists indices,
    compress_trajectory t x y delta = Ok indices /\
    indices <> [] /\
    strictly_increasing indices = true /\
    getitem indices 0 = Ok 0 /\
    getitem indices (-1) = Ok (len_t t - 1).
Proof.
  intros HN Hx Hy.
  destruct (compress_trajectory_spec t x y delta) as (l & i' & Hc & Hs & Hend);
    try lia.
  exists (finish t l i'). split; [exact Hc|]. split; [discriminate|].
  split; [|split].
  - apply (finish_increasing t x y delta l i' Hs). destruct Hend; lia.
  - reflexivity.
  - exact (finish_last t x y delta l i' Hs).
Qed.

Lemma compress_trajectory_index_set_witness :
  exists indices,
    compress_trajectory (L := products)
      [0; 1; 2]%float [1; 1.5; 4]%float [0; 0; 0]%float 1%float
      = Ok indices /\
    indices <> [] /\ strictly_increasing indices = true /\
    getitem indices 0 = Ok 0 /\ getitem indices (-1) = Ok 2.
Proof.
  apply (compress_trajectory_index_set
           [0; 1; 2]%float [1; 1.5; 4]%float [0; 0; 0]%float 1%float);
    simpl; lia.
Defined.

(** C9: with at least one time sample every returned index lies in
    [0, len(t) - 1], so [t[indices]] is in bounds; on a trajectory (arrays of
    one length) the call returns and [x[indices]], [y[indices]] and
    [t[indices]] are all in bounds. *)
Theorem compress_trajectory_in_bounds {L : Numpy} (t x y : list float) (delta : float) :
  (1 <= length t)%nat ->
  (forall indices, compress_trajectory t x y delta = Ok indices ->
     Forall (fun k => 0 <= k <= len_t t - 1) indices /\
     exists t_filt, take t indices = Ok t_filt) /\
  (length x = length t -> length y = length t ->
     exists indices x_filt y_filt t_filt,
       compress_trajectory t x y delta = Ok indices /\
       take x indices = Ok x_filt /\ take y indices = Ok y_filt /\
       take t indices = Ok t_filt).
Proof.
  intros HN. split.
  - intros idx Hc.
    pose proof (compress_trajectory_range t x y delta idx HN Hc) as Hr. split.
    + eapply Forall_impl; [|exact Hr]. unfold len_t. simpl. lia.
    + destruct (take_in_range t idx Hr) as (vs & Hv & _). eauto.
  - intros Hx Hy.
    destruct (compress_trajectory_spec t x y delta) as (l & i' & Hc & _); try lia.
    destruct (compress_trajectory_reindex t x y delta _ HN Hx Hy Hc)
      as (xf & yf & tf & Hxf & Hyf & Htf).
    exists (finish t l i'), xf, yf, tf. auto.
Qed.

Lemma compress_trajectory_in_bounds_witness :
  (forall indices,
     compress_trajectory (L := products)
       [0; 1; 2]%float [1; 1.5; 4]%float [0; 0; 0]%float 1%float
       = Ok indices ->
     Forall (fun k => 0 <= k <= 2) indices /\
     exists t_filt, take [0; 1; 2]%float indices = Ok t_filt) /\
  (length [1; 1.5; 4]%float = 3%nat -> length [0; 0; 0]%float = 3%nat ->
     exists indices x_filt y_filt t_filt,
       compress_trajectory (L := products)
         [0; 1; 2]%float [1; 1.5; 4]%float [0; 0; 0]%float
         1%float = Ok indices /\
       take [1; 1.5; 4]%float indices = Ok x_filt /\
       take [0; 0; 0]%float indices = Ok y_filt /\
       take [0; 1; 2]%float indices = Ok t_filt).
Proof.
  apply (compress_trajectory_in_bounds
           [0; 1; 2]%float [1; 1.5; 4]%float [0; 0; 0]%float 1%float).
  simpl. lia.
Defined.

(** C10: [compress_trajectory] terminates on every input, whatever the
    lengths, the threshold and the coordinates: a loop budget above [len(t)]
    is never exhausted and the result does not depend on it; the inner scan
    only moves [j] forward, so every retained index is beyond the previous
    one. *)
Theorem compress_trajectory_terminates {L : Numpy}
    (t x y : list float) (delta : float) :
  compress_trajectory t x y delta <> OutOfFuel /\
  (forall fuel, (length t < fuel)%nat ->
     compress_trajectory_fuel t x y delta fuel = compress_trajectory t x y delta) /\
  (forall fuel i j j',
     inner_while t x y delta fuel i j = Ok j' -> j <= j' <= Z.max j (len_t t)).
Proof.
  split; [|split].
  - apply (compress_trajectory_fuel_stable t x y delta (S (length t)) (S (length t)));
      unfold len_t; lia.
  - intros fuel Hf.
    apply (compress_trajectory_fuel_stable t x y delta fuel (S (length t)));
      unfold len_t; lia.
  - intros fuel i j j'. apply inner_while_bounds.
Qed.

Lemma compress_trajectory_terminates_witness :
  compress_trajectory_fuel (L := products)
    [0; 1; 2]%float [1; infinity; nan]%float [0; 0]%float
    (-1)%float 7 =
  compress_trajectory (L := products)
    [0; 1; 2]%float [1; infinity; nan]%float [0; 0]%float
    (-1)%float.
Proof.
  apply (proj1 (proj2 (compress_trajectory_terminates
           [0; 1; 2]%float [1; infinity; nan]%float [0; 0]%float (-1)%float))).
  simpl. lia.
Defined.

(** C2, as the code has it: on a trajectory of finite samples and a positive
    threshold, every pair of adjacent returned indices (i, j) either has a
    distance above [delta] with every index strictly between them within
    [delta] of [i], or it is the final pair, whose [j = len(t) - 1] was
    appended after the scan found every later point within [delta] of [i].
    The distances are the ones the code computes, whatever the library
    rounds its squares to. *)
Theorem compress_trajectory_spacing {L : Numpy} (t x y : list float) (delta : float) :
  squares_sound L ->
  length x = length t -> length y = length t ->
  forallb is_finite x = true -> forallb is_finite y = true ->
  (0 <? delta)%float = true ->
  exists indices,
    compress_trajectory t x y delta = Ok indices /\
    forall p i j,
      nth_error indices p = Some i -> nth_error indices (S p) = Some j ->
      (exists d, dist x y i j = Ok d /\ (delta <? d)%float = true /\
         forall k, i < k < j ->
           exists dk, dist x y i k = Ok dk /\ (dk <=? delta)%float = true) \/
      (S (S p) = length indices /\ j = len_t t - 1 /\
         forall k, i < k <= j ->
           exists dk, dist x y i k = Ok dk /\ (dk <=? delta)%float = true).
Proof.
  intros HL Hx Hy Fx Fy Hpos.
  destruct (float_ltb_not_nan _ _ Hpos) as [_ Hdelta].
  destruct t as [|t0 t'] eqn:Et.
  { destruct x; [|discriminate]. destruct y; [|discriminate].
    exists [0; -1]. split; [reflexivity|].
    intros [|[|p]] i j Hi Hj; try discriminate.
    simpl in Hi, Hj. injection Hi as <-. injection Hj as <-.
    right. repeat split. intros k Hk. lia. }
  rewrite <- Et in *. assert (HN : 1 <= len_t t) by (subst t; unfold len_t; simpl; lia).
  clear Et t0 t'.
  destruct (compress_trajectory_spec t x y delta) as (l & i' & Hc & Hs & Hend);
    unfold len_t in HN; try lia.
  exists (finish t l i'). split; [exact Hc|].
  pose proof (compress_trajectory_range t x y delta _ ltac:(lia) Hc) as Hrange.
  rewrite Forall_forall in Hrange.
  intros p i j Hi Hj.
  pose proof (Hrange i (nth_error_In _ _ Hi)) as Ri.
  destruct (finish_pairs t x y delta l i' Hs Hend p i j Hi Hj)
    as [(Hij & Hfar & Hq)|(Hp & -> & Hlt & Hq)].
  - left. destruct (far_true_dist _ _ _ _ _ Hfar) as (d & Hd & Hgt).
    exists d. repeat split; auto. intros k Hk.
    apply (far_false_within t x y delta Hx Hy Fx Fy Hdelta HL); try lia.
    apply Hq. lia.
  - right. repeat split; auto. intros k Hk.
    apply (far_false_within t x y delta Hx Hy Fx Fy Hdelta HL); try lia.
    apply Hq. lia.
Qed.

Lemma compress_trajectory_spacing_witness :
  exists indices,
    compress_trajectory (L := products) [0; 1; 2; 3]%float [1; 1.5; 4; 4.25]%float
      [0; 0; 0; 0]%float 1%float = Ok indices /\
    forall p i j,
      nth_error indices p = Some i -> nth_error indices (S p) = Some j ->
      (exists d, dist (L := products)
        [1; 1.5; 4; 4.25]%float [0; 0; 0; 0]%float i j = Ok d /\
         (1 <? d)%float = true /\
         forall k, i < k < j ->
           exists dk, dist (L := products)
             [1; 1.5; 4; 4.25]%float [0; 0; 0; 0]%float i k = Ok dk /\
                      (dk <=? 1)%float = true) \/
      (S (S p) = length indices /\ j = 3 /\
         forall k, i < k <= j ->
           exists dk, dist (L := products)
             [1; 1.5; 4; 4.25]%float [0; 0; 0; 0]%float i k = Ok dk /\
                      (dk <=? 1)%float = true).
Proof.
  apply (compress_trajectory_spacing (L := products)
           [0; 1; 2; 3]%float [1; 1.5; 4; 4.25]%float [0; 0; 0; 0]%float 1%float);
    try reflexivity.
  apply products_squares_sound.
Defined.

(** C2 as stated fails on a trajectory with a NaN sample: the scan steps
    over the sample at index 1, whose distance from index 0 is NaN and so
    not above the threshold, and retains index 2; the pair (0, 2) is not the
    final pair, and the point between is not within [delta] of the first.
    This is so for every library that squares the differences of these
    samples, which are 0, 5, 10 and NaN, as a product does. *)
Lemma compress_trajectory_spacing_nan :
  (nan <=? 1)%float = false /\
  forall L : Numpy, squares_as_products L nan_walk_x nan_walk_y ->
    compress_trajectory nan_walk_t nan_walk_x nan_walk_y 1%float = Ok [0; 2; 3] /\
    dist nan_walk_x nan_walk_y 0 1 = Ok nan /\
    ~ (forall (t x y : list float) (delta : float) indices p i j,
         length x = length t -> length y = length t ->
         (0 <? delta)%float = true ->
         compress_trajectory t x y delta = Ok indices ->
         nth_error indices p = Some i -> nth_error indices (S p) = Some j ->
         (S (S p) < length indices)%nat ->
         forall k, i < k < j ->
           exists dk, dist x y i k = Ok dk /\ (dk <=? delta)%float = true).
Proof.
  split; [reflexivity|]. intros L H.
  assert (Hc : compress_trajectory nan_walk_t nan_walk_x nan_walk_y 1%float
               = Ok [0; 2; 3])
    by (rewrite (compress_trajectory_products _ _ _ _ H); reflexivity).
  assert (Hd : dist nan_walk_x nan_walk_y 0 1 = Ok nan)
    by (rewrite (dist_products _ _ _ _ H); reflexivity).
  split; [exact Hc|]. split; [exact Hd|].
  intros Hclaim.
  destruct (Hclaim nan_walk_t nan_walk_x nan_walk_y 1%float [0; 2; 3] 0%nat 0 2
              eq_refl eq_refl eq_refl Hc eq_refl eq_refl ltac:(simpl; lia) 1
              ltac:(lia)) as (dk & Hdk & Hle).
  rewrite Hd in Hdk. injection Hdk as <-. discriminate.
Qed.

Section Dense.

Context {L : Numpy}.

Variables t x y : list float.
Variable delta : float.
Hypothesis Hx : (length t <= length x)%nat.
Hypothesis Hy : (length t <= length y)%nat.

Local Abbreviation N := (len_t t).

(** Every point but possibly the last is further than [delta] from its
    predecessor. *)
Hypothesis Hdense : forall p, 0 <= p -> p + 1 < N - 1 -> far x y delta p (p + 1) = true.

Lemma scan_pair_dense i j : 0 <= i -> scan_pair t x y delta i j -> j = i + 1.
Proof using Hdense.
  clear Hx Hy. intros Hi (Hij & _ & Hq).
  destruct (Z.eq_dec j (i + 1)) as [|Hne]; [assumption|].
  assert (Hf : far x y delta i (i + 1) = true) by (apply Hdense; lia).
  rewrite Hq in Hf by lia. discriminate.
Qed.

Lemma scans_dense i l i' : 0 <= i -> scans t x y delta i l i' ->
  l = map Z.of_nat (seq (S (Z.to_nat i)) (Z.to_nat (i' - i))).
Proof using Hdense.
  clear Hx Hy. intros Hi Hs. induction Hs as [i|i j l i' Hp Hs IH].
  - now rewrite Z.sub_diag.
  - pose proof (scan_pair_dense i j Hi Hp) as ->.
    destruct (scans_bounds t x y delta _ _ _ Hs) as (Hle & _).
    rewrite IH by lia.
    replace (Z.to_nat (i' - i)) with (S (Z.to_nat (i' - (i + 1)))) by lia.
    simpl. f_equal; [lia|]. do 2 f_equal. lia.
Qed.

Lemma compress_trajectory_dense :
  1 <= N -> compress_trajectory t x y delta = Ok (range (length t)).
Proof using Hx Hy Hdense.
  intros HN.
  destruct (compress_trajectory_fuel_spec t x y delta Hx Hy (S (length t)))
    as (l & i' & Hc & Hs & Hend); unfold len_t in *; try lia.
  fold (len_t t) in *. unfold compress_trajectory. rewrite Hc. f_equal.
  rewrite (scans_dense 0 l i' ltac:(lia) Hs). unfold finish, range.
  rewrite Z.sub_0_r. change (Z.to_nat 0) with 0%nat.
  destruct Hend as [->|[Hlt Hq]].
  - rewrite Z.eqb_refl, app_nil_r.
    replace (length t) with (S (Z.to_nat (N - 1))) by (unfold len_t in *; lia).
    reflexivity.
  - destruct (Z.eqb_spec i' (N - 1)); [lia|].
    destruct (scans_bounds t x y delta _ _ _ Hs) as (Hle & _).
    assert (i' = N - 2).
    { destruct (Z.eq_dec i' (N - 2)); [assumption|].
      assert (Hf : far x y delta i' (i' + 1) = true) by (apply Hdense; lia).
      rewrite Hq in Hf by lia. discriminate. }
    subst i'.
    replace (length t) with (S (S (Z.to_nat (N - 2)))) by (unfold len_t in *; lia).
    rewrite (seq_S (S (Z.to_nat (N - 2)))), map_app. cbn [map seq app plus].
    do 3 f_equal. unfold len_t in *. lia.
Qed.

End Dense.

Lemma getitem_of_nat {A} (a : list A) (p : nat) (v : A) :
  nth_error a p = Some v -> getitem a (Z.of_nat p) = Ok v.
Proof.
  intros H.
  assert (Hp : (p < length a)%nat) by (apply nth_error_Some; congruence).
  destruct (getitem_nonneg a (Z.of_nat p)) as (v' & Hg & Hv); [lia|].
  rewrite Nat2Z.id in Hv. congruence.
Qed.

Lemma take_Ok_nth {A} (a : list A) (idx : list Z) : forall vs,
  take a idx = Ok vs ->
  length vs = length idx /\
  forall p k, nth_error idx p = Some k ->
              exists v, nth_error vs p = Some v /\ getitem a k = Ok v.
Proof.
  induction idx as [|k0 idx IH]; intros vs H; simpl in H.
  - injection H as <-. split; [reflexivity|]. intros [|p] k Hk; discriminate.
  - destruct (getitem a k0) as [v0| |] eqn:Hg; cbn [bind] in H; try discriminate.
    destruct (take a idx) as [vs0| |]; cbn [bind] in H; try discriminate.
    injection H as <-. destruct (IH vs0 eq_refl) as [Hlen Hnth].
    split; [simpl; now rewrite Hlen|].
    intros [|p] k Hk; simpl in *.
    + injection Hk as <-. eauto.
    + now apply Hnth.
Qed.

(** Distances between re-indexed samples are the distances between the
    samples they were taken from. *)
Lemma dist_take {L : Numpy}
    (x y x' y' : list float) (idx : list Z) (p q : nat) (i j : Z) :
  take x idx = Ok x' -> take y idx = Ok y' ->
  nth_error idx p = Some i -> nth_error idx q = Some j ->
  dist x' y' (Z.of_nat p) (Z.of_nat q) = dist x y i j.
Proof.
  intros Hx Hy Hp Hq.
  destruct (take_Ok_nth x idx x' Hx) as [_ Nx].
  destruct (take_Ok_nth y idx y' Hy) as [_ Ny].
  destruct (Nx q j Hq) as (xq & Hxq & Gxq). destruct (Nx p i Hp) as (xp & Hxp & Gxp).
  destruct (Ny q j Hq) as (yq & Hyq & Gyq). destruct (Ny p i Hp) as (yp & Hyp & Gyp).
  unfold dist.
  rewrite (getitem_of_nat x' q xq Hxq), (getitem_of_nat x' p xp Hxp),
    (getitem_of_nat y' q yq Hyq), (getitem_of_nat y' p yp Hyp),
    Gxq, Gxp, Gyq, Gyp.
  reflexivity.
Qed.

(** C6: compressing the re-indexed arrays of a compressed trajectory with
    the same threshold keeps every one of its points: the second index list
    is [0, 1, ..., M-1] for the M points the first one retained. *)
Theorem compress_trajectory_idempotent {L : Numpy}
    (t x y : list float) (delta : float) :
  (1 <= length t)%nat -> length x = length t -> length y = length t ->
  exists indices x_filt y_filt t_filt,
    compress_trajectory t x y delta = Ok indices /\
    take x indices = Ok x_filt /\ take y indices = Ok y_filt /\
    take t indices = Ok t_filt /\
    compress_trajectory t_filt x_filt y_filt delta = Ok (range (length indices)).
Proof.
  intros HN Hx Hy.
  destruct (compress_trajectory_spec t x y delta) as (l & i' & Hc & Hs & Hend);
    try lia.
  destruct (compress_trajectory_reindex t x y delta _ HN Hx Hy Hc)
    as (xf & yf & tf & Hxf & Hyf & Htf).
  exists (finish t l i'), xf, yf, tf. repeat (split; [assumption|]).
  destruct (take_Ok_nth x _ xf Hxf) as [Lx _].
  destruct (take_Ok_nth y _ yf Hyf) as [Ly _].
  destruct (take_Ok_nth t _ tf Htf) as [Lt _].
  rewrite <- Lt.
  apply compress_trajectory_dense; unfold len_t; try lia.
  - intros p Hp0 Hp1.
    assert (Hlen : (S (Z.to_nat p) < length (finish t l i'))%nat) by lia.
    destruct (nth_error (finish t l i') (Z.to_nat p)) as [a|] eqn:Ea;
      [|apply nth_error_None in Ea; lia].
    destruct (nth_error (finish t l i') (S (Z.to_nat p))) as [b|] eqn:Eb;
      [|apply nth_error_None in Eb; lia].
    destruct (finish_pairs t x y delta l i' Hs Hend _ a b Ea Eb)
      as [(_ & Hfar & _)|(Hlast & _)]; [|lia].
    unfold far in *.
    replace p with (Z.of_nat (Z.to_nat p)) at 1 by lia.
    replace (p + 1) with (Z.of_nat (S (Z.to_nat p))) by lia.
    now rewrite (dist_take x y xf yf _ _ _ a b Hxf Hyf Ea Eb).
  - rewrite Lt. unfold finish. simpl. lia.
Qed.

Lemma compress_trajectory_idempotent_witness :
  exists indices x_filt y_filt t_filt,
    compress_trajectory (L := products) [0; 1; 2; 3]%float [1; 1.5; 4; 4.25]%float
      [0; 0; 0; 0]%float 1%float = Ok indices /\
    take [1; 1.5; 4; 4.25]%float indices = Ok x_filt /\
    take [0; 0; 0; 0]%float indices = Ok y_filt /\
    take [0; 1; 2; 3]%float indices = Ok t_filt /\
    compress_trajectory (L := products)
      t_filt x_filt y_filt 1%float = Ok (range (length indices)).
Proof.
  apply (compress_trajectory_idempotent
           [0; 1; 2; 3]%float [1; 1.5; 4; 4.25]%float [0; 0; 0; 0]%float 1%float);
    simpl; lia.
Defined.

Lemma moves_away_spec {L : Numpy} (x y : list float) (n : nat) :
  moves_away x y n = true ->
  forall i j k, 0 <= i <= j -> j < k < Z.of_nat n ->
  exists d_ik d_jk, dist x y i k = Ok d_ik /\ dist x y j k = Ok d_jk /\
                    (d_jk <=? d_ik)%float = true.
Proof.
  unfold moves_away. intros H i j k Hij Hjk.
  rewrite forallb_forall in H.
  specialize (H (Z.to_nat k)). rewrite in_seq in H. specialize (H ltac:(lia)).
  rewrite forallb_forall in H.
  specialize (H (Z.to_nat j)). rewrite in_seq in H. specialize (H ltac:(lia)).
  rewrite forallb_forall in H.
  specialize (H (Z.to_nat i)). rewrite in_seq in H. specialize (H ltac:(lia)).
  rewrite !Z2Nat.id in H by lia.
  destruct (dist x y i k) as [d_ik| |]; try discriminate.
  destruct (dist x y j k) as [d_jk| |]; try discriminate.
  eauto.
Qed.

Section TwoThresholds.

Context {L : Numpy}.

Variables t x y : list float.
Variables delta_a delta_b : float.

Local Abbreviation N := (len_t t).

(** What [delta_b] keeps apart from a later anchor, [delta_a] keeps apart
    from any earlier one. *)
Hypothesis Hmono : forall i j k, 0 <= i <= j -> j < k < N ->
  far x y delta_b j k = true -> far x y delta_a i k = true.

Lemma scans_count_le lb ib ib' :
  scans t x y delta_b ib lb ib' ->
  ib' = N - 1 \/ (ib' < N - 1 /\ tail_quiet t x y delta_b ib') ->
  forall la ia ia',
    scans t x y delta_a ia la ia' ->
    ia' = N - 1 \/ (ia' < N - 1 /\ tail_quiet t x y delta_a ia') ->
    0 <= ia <= ib -> ib < N ->
    (count_rest t lb ib' <= count_rest t la ia')%nat.
Proof using Hmono.
  induction 1 as [ib|ib jb lb ib' Hpb Hsb IH]; intros Hendb la ia ia' Hsa Henda Hi HN;
    unfold count_rest in *.
  - destruct (Z.eqb_spec ib (N - 1)); simpl; [lia|].
    inversion Hsa; subst; simpl; [|lia].
    destruct (Z.eqb_spec ia' (N - 1)); lia.
  - destruct Hpb as (Hij & Hfar & _).
    assert (Hfa : far x y delta_a ia jb = true) by (apply (Hmono ia ib jb); auto; lia).
    inversion Hsa as [|? ja la' ? Hpa Hsa']; subst.
    + destruct Henda as [->|[_ Hq]]; [lia|].
      rewrite Hq in Hfa by lia. discriminate.
    + destruct Hpa as (Hia & _ & Hqa).
      assert (ja <= jb).
      { destruct (Z.le_gt_cases ja jb); [assumption|].
        rewrite Hqa in Hfa by lia. discriminate. }
      specialize (IH Hendb la' ja ia' Hsa' Henda ltac:(lia) ltac:(lia)).
      simpl. lia.
Qed.

End TwoThresholds.

Lemma far_moves_away {L : Numpy}
    (x y : list float) (n : nat) (delta_a delta_b : float) :
  moves_away x y n = true -> (delta_a <? delta_b)%float = true ->
  forall i j k, 0 <= i <= j -> j < k < Z.of_nat n ->
  far x y delta_b j k = true -> far x y delta_a i k = true.
Proof.
  intros Hm Hlt i j k Hij Hjk Hfar.
  destruct (moves_away_spec x y n Hm i j k Hij Hjk) as (d_ik & d_jk & Hik & Hjk' & Hle).
  unfold far in *. rewrite Hjk' in Hfar. rewrite Hik.
  eapply float_ltb_leb_trans; [|exact Hle].
  eapply float_ltb_trans; eassumption.
Qed.

Lemma length_finish (t : list float) (l : list Z) (i' : Z) :
  length (finish t l i') = S (count_rest t l i').
Proof.
  unfold finish, count_rest. simpl. rewrite length_app.
  destruct (i' =? len_t t - 1); reflexivity.
Qed.

(** C5, as the code has it: the retained count is monotone in the threshold
    on trajectories that never come back towards where they have been (for
    [i <= j < k] the distance the code computes from [j] to [k], with the
    squares of its library, is at most the one it computes from [i] to [k]);
    on those, a smaller threshold retains at least as many indices as a
    larger one. *)
Theorem compress_trajectory_count_monotone {L : Numpy}
    (t x y : list float) (delta_a delta_b : float) :
  length x = length t -> length y = length t ->
  moves_away x y (length t) = true ->
  (delta_a <? delta_b)%float = true ->
  exists indices_a indices_b,
    compress_trajectory t x y delta_a = Ok indices_a /\
    compress_trajectory t x y delta_b = Ok indices_b /\
    (length indices_b <= length indices_a)%nat.
Proof.
  intros Hx Hy Hm Hlt.
  destruct t as [|t0 t'] eqn:Et.
  { destruct x; [|discriminate]. destruct y; [|discriminate].
    exists [0; -1], [0; -1]. repeat split. simpl. lia. }
  rewrite <- Et in *.
  assert (HN : (1 <= length t)%nat) by (subst t; simpl; lia). clear Et t0 t'.
  destruct (compress_trajectory_spec t x y delta_a) as (la & ia' & Hca & Hsa & Ha);
    try lia.
  destruct (compress_trajectory_spec t x y delta_b) as (lb & ib' & Hcb & Hsb & Hb);
    try lia.
  exists (finish t la ia'), (finish t lb ib'). repeat (split; [assumption|]).
  rewrite !length_finish. apply le_n_S.
  apply (scans_count_le t x y delta_a delta_b) with (ib := 0) (ia := 0); auto;
    unfold len_t; try lia.
  intros i j k Hij Hjk. apply (far_moves_away x y (length t)); auto.
Qed.

Lemma compress_trajectory_count_monotone_witness :
  exists indices_a indices_b,
    compress_trajectory (L := products) [0; 1; 2; 3]%float [1; 1.5; 4; 4.25]%float
      [0; 0; 0; 0]%float 0.25%float = Ok indices_a /\
    compress_trajectory (L := products) [0; 1; 2; 3]%float [1; 1.5; 4; 4.25]%float
      [0; 0; 0; 0]%float 1%float = Ok indices_b /\
    (length indices_b <= length indices_a)%nat.
Proof.
  apply (compress_trajectory_count_monotone
           [0; 1; 2; 3]%float [1; 1.5; 4; 4.25]%float [0; 0; 0; 0]%float
           0.25%float 1%float); reflexivity.
Defined.

(** C5 as stated fails: on the zigzag trajectory the threshold 3 retains
    three indices and the larger threshold 5 retains six. This is so for
    every library that squares the differences of these samples, which are
    integers up to 7, as a product does. *)
Lemma compress_trajectory_count_not_monotone :
  (0 <? 3)%float = true /\ (3 <? 5)%float = true /\
  forall L : Numpy, squares_as_products L zigzag_x zigzag_y ->
    compress_trajectory zigzag_t zigzag_x zigzag_y 3%float = Ok [0; 1; 6] /\
    compress_trajectory zigzag_t zigzag_x zigzag_y 5%float
      = Ok [0; 2; 3; 4; 5; 6] /\
    ~ (forall (t x y : list float) (delta_a delta_b : float) indices_a indices_b,
         length x = length t -> length y = length t ->
         (0 <? delta_a)%float = true -> (delta_a <? delta_b)%float = true ->
         compress_trajectory t x y delta_a = Ok indices_a ->
         compress_trajectory t x y delta_b = Ok indices_b ->
         (length indices_b <= length indices_a)%nat).
Proof.
  split; [reflexivity|]. split; [reflexivity|]. intros L HL.
  assert (Ha : compress_trajectory zigzag_t zigzag_x zigzag_y 3%float = Ok [0; 1; 6])
    by (rewrite (compress_trajectory_products _ _ _ _ HL); reflexivity).
  assert (Hb : compress_trajectory zigzag_t zigzag_x zigzag_y 5%float
               = Ok [0; 2; 3; 4; 5; 6])
    by (rewrite (compress_trajectory_products _ _ _ _ HL); reflexivity).
  split; [exact Ha|]. split; [exact Hb|].
  intros H.
  specialize (H zigzag_t zigzag_x zigzag_y 3%float 5%float
                [0; 1; 6] [0; 2; 3; 4; 5; 6]
                eq_refl eq_refl eq_refl eq_refl Ha Hb).
  simpl in H. lia.
Qed.

(** ** Blocks of statements *)

Lemma for_each_app {S A} (l1 l2 : list A) (body : A -> prog S unit) (s : S) :
  for_each (l1 ++ l2) body s =
  pbind (for_each l1 body) (fun _ => for_each l2 body) s.
Proof.
  revert s. induction l1 as [|a l1 IH]; intros s; simpl.
  - reflexivity.
  - unfold pbind in *. destruct (body a s) as [[[]| |] s']; auto.
Qed.

Lemma for_each_ext {S A} (l : list A) (body body' : A -> prog S unit) :
  (forall a s, body a s = body' a s) ->
  forall s, for_each l body s = for_each l body' s.
Proof.
  intros H. induction l as [|a l IH]; intros s; simpl; [reflexivity|].
  unfold pbind. rewrite H. destruct (body' a s) as [[[]| |] s']; auto.
Qed.

Lemma for_each_map {S A B} (f : A -> B) (l : list A) (body : B -> prog S unit) :
  forall s, for_each (map f l) body s = for_each l (fun a => body (f a)) s.
Proof.
  induction l as [|a l IH]; intros s; simpl; [reflexivity|].
  unfold pbind. destruct (body (f a) s) as [[[]| |] s']; auto.
Qed.

Lemma for_each_flat_map {S A B} (f : A -> list B) (l : list A)
    (body : B -> prog S unit) :
  forall s, for_each (flat_map f l) body s =
            for_each l (fun a => for_each (f a) body) s.
Proof.
  induction l as [|a l IH]; intros s; simpl; [reflexivity|].
  rewrite for_each_app. unfold pbind.
  destruct (for_each (f a) body s) as [[[]| |] s']; auto.
Qed.

(** A loop whose body always ends normally ends normally, in the state the
    bodies lead to one after the other. *)
Lemma for_each_total {S A} (l : list A) (body : A -> prog S unit) :
  (forall a s, exists s', body a s = (Ok tt, s')) ->
  forall s, for_each l body s = (Ok tt, fold_left (fun s a => snd (body a s)) l s).
Proof.
  intros H. induction l as [|a l IH]; intros s; simpl; [reflexivity|].
  unfold pbind. destruct (H a s) as (s' & ->). simpl. apply IH.
Qed.

Lemma for_each_fold {S A R} (proj : S -> R) (next : A -> R -> R)
    (body : A -> prog S unit) (l : list A) :
  (forall a s, exists s', body a s = (Ok tt, s') /\ proj s' = next a (proj s)) ->
  forall s, exists s', for_each l body s = (Ok tt, s') /\
                       proj s' = fold_left (fun r a => next a r) l (proj s).
Proof.
  intros H. induction l as [|a l IH]; intros s; simpl.
  - exists s. split; reflexivity.
  - unfold pbind. destruct (H a s) as (s1 & -> & Hp).
    destruct (IH s1) as (s' & Hs' & Hp'). exists s'. split; [exact Hs'|].
    now rewrite Hp', Hp.
Qed.

(** ** The sweeps *)

Lemma take_not_fuel {A} (a : list A) (idx : list Z) : take a idx <> OutOfFuel.
Proof.
  induction idx as [|k idx IH]; simpl; [discriminate|].
  pose proof (getitem_not_fuel a k).
  destruct (getitem a k); cbn [bind]; try congruence.
  destruct (take a idx); cbn [bind]; congruence.
Qed.

Lemma compress_trajectory_not_fuel {L : Numpy} (t x y : list float) (delta : float) :
  compress_trajectory t x y delta <> OutOfFuel.
Proof.
  apply (compress_trajectory_fuel_stable t x y delta (S (length t)) (S (length t)));
    unfold len_t; lia.
Qed.

Lemma compressed_not_fuel (G : globals) (sol : ode_result) :
  compressed G sol <> OutOfFuel.
Proof.
  unfold compressed.
  pose proof (compress_trajectory_not_fuel (L := np G)
                (sol_t sol) (sol_x sol) (sol_y sol) (delta G)).
  destruct (compress_trajectory _ _ _ _) as [idx| |]; cbn [bind]; try congruence.
  pose proof (take_not_fuel (sol_x sol) idx).
  destruct (take (sol_x sol) idx); cbn [bind]; try congruence.
  pose proof (take_not_fuel (sol_y sol) idx).
  destruct (take (sol_y sol) idx); cbn [bind]; try congruence.
  pose proof (take_not_fuel (sol_t sol) idx).
  destruct (take (sol_t sol) idx); cbn [bind]; congruence.
Qed.

(** One grid point of 98_DOP853.ipynb: the body ends normally, [records]
    changes as [next_records_98] says, and a failed integration leaves
    everything but the printed lines as it was. *)
Lemma body_98_run (G : globals) (x0 y0 gamma1 gamma2 alpha : float) (s : sweep_state) :
  exists s',
    body_98 G x0 y0 gamma1 gamma2 alpha s = (Ok tt, s') /\
    records s' = next_records_98 G (x0, y0, gamma1, gamma2, alpha) (records s) /\
    (failed (solve_ivp G alpha gamma1 gamma2 x0 y0 (method G)) = true ->
     records s' = records s /\
     solution_count s' = solution_count s /\
     skipped_total s' = skipped_total s /\
     kept_total s' = kept_total s /\
     stdout s' = stdout s ++
       failure_lines (solve_ivp G alpha gamma1 gamma2 x0 y0 (method G))
         (method G) alpha gamma1 gamma2 x0).
Proof.
  unfold body_98, next_records_98, try_except, call_solver, pbind, eval, failed,
    failure_lines.
  destruct (solve_ivp G alpha gamma1 gamma2 x0 y0 (method G)) as [sol|msg].
  2:{ eexists. split; [reflexivity|]. simpl. repeat split. }
  destruct (sol_success sol) eqn:Hs.
  2:{ eexists. split; [reflexivity|]. simpl. rewrite app_nil_r. repeat split. }
  pose proof (compressed_not_fuel G sol) as Hc. unfold compressed in *.
  destruct (compress_trajectory _ _ _ _) as [idx|e|]; cbn [bind] in *;
    [|eexists; split; [reflexivity|]; simpl; split; [reflexivity|discriminate]
     |congruence].
  destruct (take (sol_x sol) idx) as [xf|e|]; cbn [bind] in *;
    [|eexists; split; [reflexivity|]; simpl; split; [reflexivity|discriminate]
     |congruence].
  destruct (take (sol_y sol) idx) as [yf|e|]; cbn [bind] in *;
    [|eexists; split; [reflexivity|]; simpl; split; [reflexivity|discriminate]
     |congruence].
  destruct (take (sol_t sol) idx) as [tf|e|]; cbn [bind] in *;
    [|eexists; split; [reflexivity|]; simpl; split; [reflexivity|discriminate]
     |congruence].
  unfold modify, get, print, ret. cbn [solution_count set_solution_count
    set_records set_skipped_total set_kept_total].
  destruct ((solution_count s + 1) mod 1000 =? 0);
    (eexists; split; [reflexivity|]; simpl; split; [reflexivity|discriminate]).
Qed.

Lemma np_sub_not_fuel (a b : list float) : np_sub a b <> OutOfFuel.
Proof.
  unfold np_sub. destruct (length a =? length b)%nat; [discriminate|].
  destruct a as [|u [|u' a]]; destruct b as [|v [|v' b]]; discriminate.
Qed.

Lemma too_close_not_fuel {L : Numpy} eps (x y sx sy : list float) :
  too_close eps x y sx sy <> OutOfFuel.
Proof.
  unfold too_close. pose proof (np_sub_not_fuel x sx).
  destruct (np_sub x sx) as [dx| |]; cbn [bind]; try congruence.
  destruct (linalg_norm dx <? eps)%float; [|discriminate].
  pose proof (np_sub_not_fuel y sy).
  destruct (np_sub y sy); cbn [bind]; congruence.
Qed.

Lemma check_unique_not_fuel {L : Numpy} eps (x y : list float) sigs :
  check_unique eps x y sigs <> OutOfFuel.
Proof.
  induction sigs as [|[sx sy] sigs IH]; simpl; [discriminate|].
  pose proof (too_close_not_fuel eps x y sx sy).
  destruct (too_close eps x y sx sy) as [[]| |]; cbn [bind]; congruence.
Qed.

(** One grid point of 95_save_for_streamlit_unique_x_y.ipynb. *)
Lemma body_95_run (G : globals) (x0 y0 gamma1 gamma2 : float) (m : string)
    (alpha : float) (s : filter_state) :
  exists s',
    body_95 G x0 y0 gamma1 gamma2 m alpha s = (Ok tt, s') /\
    (entries s', saved_signatures s') =
      next_store_95 G (x0, y0, gamma1, gamma2, alpha, m)
        (entries s, saved_signatures s) /\
    total_attempts s' = total_attempts s + 1 /\
    (failed (solve_ivp G alpha gamma1 gamma2 x0 y0 m) = true ->
     entries s' = entries s /\
     saved_signatures s' = saved_signatures s /\
     skipped_due_to_similarity s' = skipped_due_to_similarity s /\
     printed s' = printed s ++
       failure_lines (solve_ivp G alpha gamma1 gamma2 x0 y0 m)
         m alpha gamma1 gamma2 x0).
Proof.
  unfold body_95, next_store_95, try_except, call_solver, pbind, eval, failed,
    failure_lines, modify, get, ret, print_line.
  cbn [saved_signatures count_attempt entries].
  destruct (solve_ivp G alpha gamma1 gamma2 x0 y0 m) as [sol|msg].
  2:{ eexists. split; [reflexivity|]. simpl. repeat split. }
  destruct (sol_success sol) eqn:Hs; cbn [negb].
  2:{ eexists. split; [reflexivity|]. simpl. rewrite app_nil_r. repeat split. }
  pose proof (check_unique_not_fuel (L := np G) (epsilon G) (sol_x sol) (sol_y sol)
                (saved_signatures s)) as Hc.
  destruct (check_unique _ _ _ _) as [[]|e|]; cbn [negb]; try congruence;
    (eexists; split; [reflexivity|]; simpl; repeat split; discriminate).
Qed.

Lemma sweep_98_grid (G : globals) (s : sweep_state) :
  sweep_98 G s = for_each (grid_98 G) (step_98 G) s.
Proof.
  unfold sweep_98, grid_98. rewrite for_each_flat_map.
  apply for_each_ext. intros [x0 y0] s1. rewrite for_each_flat_map.
  apply for_each_ext. intros gamma1 s2. rewrite for_each_flat_map.
  apply for_each_ext. intros gamma2 s3. rewrite for_each_map. reflexivity.
Qed.

Lemma sweep_95_grid (G : globals) (s : filter_state) :
  sweep_95 G s = for_each (grid_96 G) (step_95 G) s.
Proof.
  unfold sweep_95, grid_96. rewrite for_each_flat_map.
  apply for_each_ext. intros [x0 y0] s1. rewrite for_each_flat_map.
  apply for_each_ext. intros gamma1 s2. rewrite for_each_flat_map.
  apply for_each_ext. intros gamma2 s3. rewrite for_each_flat_map.
  apply for_each_ext. intros m s4. rewrite for_each_map. reflexivity.
Qed.

Lemma run_grid_98 (G : globals) (l : list (float * float * float * float * float))
    (s : sweep_state) :
  exists s', for_each l (step_98 G) s = (Ok tt, s') /\
             records s' = fold_left (fun rs p => next_records_98 G p rs) l (records s).
Proof.
  apply (for_each_fold records (next_records_98 G)).
  intros [[[[x0 y0] gamma1] gamma2] alpha] s0.
  destruct (body_98_run G x0 y0 gamma1 gamma2 alpha s0) as (s' & H1 & H2 & _).
  exists s'. split; assumption.
Qed.

Lemma run_grid_95 (G : globals)
    (l : list (float * float * float * float * float * string)) (s : filter_state) :
  exists s', for_each l (step_95 G) s = (Ok tt, s') /\
             (entries s', saved_signatures s') =
               fold_left (fun st p => next_store_95 G p st) l
                 (entries s, saved_signatures s).
Proof.
  apply (for_each_fold (fun s => (entries s, saved_signatures s)) (next_store_95 G)).
  intros [[[[[x0 y0] gamma1] gamma2] alpha] m] s0.
  destruct (body_95_run G x0 y0 gamma1 gamma2 m alpha s0) as (s' & H1 & H2 & _).
  exists s'. split; assumption.
Qed.

Lemma next_records_98_failed (G : globals) x0 y0 gamma1 gamma2 alpha rs :
  failed (solve_ivp G alpha gamma1 gamma2 x0 y0 (method G)) = true ->
  next_records_98 G (x0, y0, gamma1, gamma2, alpha) rs = rs.
Proof.
  unfold failed, next_records_98.
  destruct (solve_ivp G alpha gamma1 gamma2 x0 y0 (method G)) as [sol|msg]; auto.
  destruct (sol_success sol); [discriminate|reflexivity].
Qed.

Lemma next_store_95_failed (G : globals) x0 y0 gamma1 gamma2 alpha m st :
  failed (solve_ivp G alpha gamma1 gamma2 x0 y0 m) = true ->
  next_store_95 G (x0, y0, gamma1, gamma2, alpha, m) st = st.
Proof.
  unfold failed, next_store_95. destruct st as [es sigs].
  destruct (solve_ivp G alpha gamma1 gamma2 x0 y0 m) as [sol|msg]; auto.
  destruct (sol_success sol); [discriminate|reflexivity].
Qed.

(** C8, as the code has it: a grid point whose integration raises or returns
    [success = False] never stops the sweep and leaves the stored collection
    ([records]; [entries] and [saved_signatures]) and the counters of kept
    results as they were, so the final collection is the one of the sweep
    over the remaining grid points. A raised exception prints one error
    line; a run that returns [success = False] prints nothing. *)
Theorem sweep_skips_failed_runs (G : globals) :
  (forall s, exists s', sweep_98 G s = (Ok tt, s')) /\
  (forall s x0 y0 gamma1 gamma2 alpha,
     failed (solve_ivp G alpha gamma1 gamma2 x0 y0 (method G)) = true ->
     exists s',
       body_98 G x0 y0 gamma1 gamma2 alpha s = (Ok tt, s') /\
       records s' = records s /\
       solution_count s' = solution_count s /\
       skipped_total s' = skipped_total s /\
       kept_total s' = kept_total s /\
       stdout s' = stdout s ++
         failure_lines (solve_ivp G alpha gamma1 gamma2 x0 y0 (method G))
           (method G) alpha gamma1 gamma2 x0) /\
  (forall s pre x0 y0 gamma1 gamma2 alpha post,
     grid_98 G = pre ++ (x0, y0, gamma1, gamma2, alpha) :: post ->
     failed (solve_ivp G alpha gamma1 gamma2 x0 y0 (method G)) = true ->
     records (snd (sweep_98 G s)) =
     records (snd (for_each (pre ++ post) (step_98 G) s))) /\
  (forall s, exists s', sweep_95 G s = (Ok tt, s')) /\
  (forall s x0 y0 gamma1 gamma2 m alpha,
     failed (solve_ivp G alpha gamma1 gamma2 x0 y0 m) = true ->
     exists s',
       body_95 G x0 y0 gamma1 gamma2 m alpha s = (Ok tt, s') /\
       entries s' = entries s /\
       saved_signatures s' = saved_signatures s /\
       skipped_due_to_similarity s' = skipped_due_to_similarity s /\
       printed s' = printed s ++
         failure_lines (solve_ivp G alpha gamma1 gamma2 x0 y0 m)
           m alpha gamma1 gamma2 x0) /\
  (forall s pre x0 y0 gamma1 gamma2 alpha m post,
     grid_96 G = pre ++ (x0, y0, gamma1, gamma2, alpha, m) :: post ->
     failed (solve_ivp G alpha gamma1 gamma2 x0 y0 m) = true ->
     entries (snd (sweep_95 G s)) =
       entries (snd (for_each (pre ++ post) (step_95 G) s)) /\
     saved_signatures (snd (sweep_95 G s)) =
       saved_signatures (snd (for_each (pre ++ post) (step_95 G) s))).
Proof.
  split; [|split; [|split; [|split; [|split]]]].
  - intros s. rewrite sweep_98_grid.
    destruct (run_grid_98 G (grid_98 G) s) as (s' & H & _). eauto.
  - intros s x0 y0 gamma1 gamma2 alpha Hf.
    destruct (body_98_run G x0 y0 gamma1 gamma2 alpha s) as (s' & H1 & _ & H3).
    exists s'. split; [exact H1|]. exact (H3 Hf).
  - intros s pre x0 y0 gamma1 gamma2 alpha post Hg Hf.
    rewrite sweep_98_grid, Hg.
    destruct (run_grid_98 G (pre ++ (x0, y0, gamma1, gamma2, alpha) :: post) s)
      as (s1 & E1 & R1).
    destruct (run_grid_98 G (pre ++ post) s) as (s2 & E2 & R2).
    rewrite E1, E2. cbn [snd]. rewrite R1, R2, !fold_left_app. cbn [fold_left].
    now rewrite next_records_98_failed by exact Hf.
  - intros s. rewrite sweep_95_grid.
    destruct (run_grid_95 G (grid_96 G) s) as (s' & H & _). eauto.
  - intros s x0 y0 gamma1 gamma2 m alpha Hf.
    destruct (body_95_run G x0 y0 gamma1 gamma2 m alpha s) as (s' & H1 & _ & _ & H3).
    exists s'. split; [exact H1|]. exact (H3 Hf).
  - intros s pre x0 y0 gamma1 gamma2 alpha m post Hg Hf.
    rewrite sweep_95_grid, Hg.
    destruct (run_grid_95 G (pre ++ (x0, y0, gamma1, gamma2, alpha, m) :: post) s)
      as (s1 & E1 & R1).
    destruct (run_grid_95 G (pre ++ post) s) as (s2 & E2 & R2).
    rewrite E1, E2. cbn [snd]. rewrite !fold_left_app in R1. cbn [fold_left] in R1.
    rewrite next_store_95_failed in R1 by exact Hf.
    rewrite fold_left_app in R2. rewrite <- R2 in R1.
    injection R1 as R1 R1'. now rewrite R1, R1'.
Qed.

(** C8 as stated fails where it says that the failure is logged: a run that
    returns [success = False] is a failed integration, and the sweeps print
    nothing for it. *)
Lemma unsuccessful_run_prints_nothing :
  failed (solve_ivp unsuccessful_sweep 0x1p-10 0 0.5 1 1 "DOP853") = true /\
  sweep_98 unsuccessful_sweep initial_state = (Ok tt, initial_state) /\
  stdout (snd (sweep_98 unsuccessful_sweep initial_state)) = [] /\
  printed (snd (sweep_95 unsuccessful_sweep initial_filter_state)) = [].
Proof. repeat split. Qed.

(** ** The merge of records *)

Lemma key_eqb_sym (k1 k2 : key) : key_eqb k1 k2 = key_eqb k2 k1.
Proof.
  destruct k1 as [[[[a1 b1] c1] d1] e1], k2 as [[[[a2 b2] c2] d2] e2].
  unfold key_eqb.
  now rewrite (float_eqb_sym a1 a2), (float_eqb_sym b1 b2), (float_eqb_sym c1 c2),
    (float_eqb_sym d1 d2), (float_eqb_sym e1 e2).
Qed.

Lemma key_eqb_trans (k1 k2 k3 : key) :
  key_eqb k1 k2 = true -> key_eqb k2 k3 = true -> key_eqb k1 k3 = true.
Proof.
  destruct k1 as [[[[a1 b1] c1] d1] e1], k2 as [[[[a2 b2] c2] d2] e2],
    k3 as [[[[a3 b3] c3] d3] e3]. unfold key_eqb.
  rewrite !andb_true_iff.
  intros ((((Ha & Hb) & Hc) & Hd) & He) ((((Ha' & Hb') & Hc') & Hd') & He').
  repeat split; eapply float_eqb_trans; eassumption.
Qed.

Lemma key_of_new_record k t m v : key_of (new_record k t m v) = k.
Proof. now destruct k as [[[[a b] c] d] e]. Qed.

Lemma key_of_set_solution r m v : key_of (set_solution r m v) = key_of r.
Proof. reflexivity. Qed.

Lemma dict_get_set_same d m v : dict_get (dict_set d m v) m = Some v.
Proof.
  induction d as [|[m' v'] d IH]; simpl.
  - now rewrite String.eqb_refl.
  - destruct (String.eqb m' m) eqn:E; simpl; rewrite E; auto.
Qed.

Lemma dict_get_set_other d m v m' :
  dict_get d m' <> None -> dict_get (dict_set d m v) m' <> None.
Proof.
  induction d as [|[m0 v0] d IH]; simpl; [congruence|].
  destruct (String.eqb m0 m) eqn:E; simpl; destruct (String.eqb m0 m'); auto;
    discriminate.
Qed.

(** On parameters that are numbers the two notebooks merge in the same way. *)
Lemma merge_record_96_eq rs k m t v :
  merge_record_96 rs k m t v = merge_record rs k m t v.
Proof.
  unfold merge_record_96. induction rs as [|r rs IH]; simpl; [reflexivity|].
  destruct (key_eqb (key_of r) k) eqn:E; simpl; [reflexivity|].
  destruct (existsb (fun k' => key_eqb k' k) (map key_of rs)); simpl in *;
    now rewrite IH.
Qed.

(** A merge changes no key and no time array of the records already there,
    and adds at most one record, at the end. *)
Lemma merge_record_nth rs k m t v : forall i r,
  nth_error rs i = Some r ->
  exists r', nth_error (merge_record rs k m t v) i = Some r' /\
             key_of r' = key_of r /\ rec_t r' = rec_t r.
Proof.
  induction rs as [|r0 rs IH]; intros i r H; [destruct i; discriminate|].
  simpl. destruct (key_eqb (key_of r0) k) eqn:E.
  - destruct i as [|i]; simpl in *.
    + injection H as <-. eexists. repeat split.
    + eauto.
  - destruct i as [|i]; simpl in *.
    + injection H as <-. eauto.
    + now apply IH.
Qed.

Lemma merge_record_found rs k m t v :
  existsb (fun r => key_eqb (key_of r) k) rs = true ->
  length (merge_record rs k m t v) = length rs.
Proof.
  induction rs as [|r rs IH]; simpl; [discriminate|].
  destruct (key_eqb (key_of r) k); simpl; auto.
Qed.

Lemma merge_record_fresh rs k m t v :
  existsb (fun r => key_eqb (key_of r) k) rs = false ->
  merge_record rs k m t v = rs ++ [new_record k t m v].
Proof.
  induction rs as [|r rs IH]; simpl; [reflexivity|].
  destruct (key_eqb (key_of r) k); simpl; [discriminate|].
  intros H. now rewrite IH.
Qed.

Lemma existsb_key_merge rs k m t v k0 :
  existsb (fun r => key_eqb k0 (key_of r)) (merge_record rs k m t v) =
  existsb (fun r => key_eqb k0 (key_of r)) rs ||
  (negb (existsb (fun r => key_eqb (key_of r) k) rs) && key_eqb k0 k).
Proof.
  induction rs as [|r rs IH]; simpl.
  - rewrite key_of_new_record. now rewrite orb_false_r.
  - destruct (key_eqb (key_of r) k) eqn:E; simpl.
    + now rewrite orb_false_r.
    + rewrite IH. now rewrite orb_assoc.
Qed.

Lemma keys_distinct_merge rs k m t v :
  keys_distinct rs = true -> keys_distinct (merge_record rs k m t v) = true.
Proof.
  induction rs as [|r rs IH]; simpl; [reflexivity|].
  rewrite andb_true_iff, negb_true_iff. intros [Hr Hrs].
  destruct (key_eqb (key_of r) k) eqn:E; simpl.
  - now rewrite key_of_set_solution, Hr, Hrs.
  - rewrite existsb_key_merge, Hr, E, andb_false_r. simpl. now apply IH.
Qed.

Lemma has_entry_merge_same rs k m t v :
  key_eqb k k = true -> has_entry (merge_record rs k m t v) k m = true.
Proof.
  intros Hk. unfold has_entry. induction rs as [|r rs IH]; simpl.
  - rewrite key_of_new_record, Hk. destruct k as [[[[a b] c] d] e]. simpl.
    now rewrite String.eqb_refl.
  - destruct (key_eqb (key_of r) k) eqn:E; simpl.
    + now rewrite key_of_set_solution, E, dict_get_set_same.
    + now rewrite E, IH.
Qed.

Lemma has_entry_merge_other rs k m t v k' m' :
  has_entry rs k' m' = true -> has_entry (merge_record rs k m t v) k' m' = true.
Proof.
  unfold has_entry. induction rs as [|r rs IH]; simpl; [discriminate|].
  rewrite orb_true_iff. intros H.
  destruct (key_eqb (key_of r) k) eqn:E; simpl; rewrite orb_true_iff.
  - destruct H as [H|H]; [left|now right].
    rewrite key_of_set_solution, andb_true_iff in *. destruct H as [H1 H2]. split; [assumption|].
    pose proof (dict_get_set_other (rec_solutions r) m v m') as Hd.
    destruct (dict_get (rec_solutions r) m'); [|discriminate].
    simpl. destruct (dict_get (dict_set (rec_solutions r) m v) m');
      [reflexivity|exfalso; apply Hd; [discriminate|reflexivity]].
  - destruct H as [H|H]; [now left|right; now apply IH].
Qed.

Lemma records_of_single rs k r :
  keys_distinct rs = true -> In r rs -> key_eqb (key_of r) k = true ->
  records_of rs k = [r].
Proof.
  unfold records_of. induction rs as [|r0 rs IH]; simpl; [contradiction|].
  rewrite andb_true_iff, negb_true_iff. intros [H0 Hrs] Hin Hk.
  assert (Hnone : forall r', In r' rs -> key_eqb (key_of r0) k = true ->
                             key_eqb (key_of r') k = false).
  { intros r' Hr' Hk0. destruct (key_eqb (key_of r') k) eqn:E; [|reflexivity].
    assert (key_eqb (key_of r0) (key_of r') = true)
      by (eapply key_eqb_trans; [exact Hk0|rewrite key_eqb_sym; exact E]).
    assert (existsb (fun r' => key_eqb (key_of r0) (key_of r')) rs = true)
      by (apply existsb_exists; eauto).
    congruence. }
  destruct (key_eqb (key_of r0) k) eqn:E0.
  - destruct Hin as [->|Hin].
    + f_equal. clear IH. induction rs as [|r1 rs IH1]; simpl; [reflexivity|].
      rewrite (Hnone r1 (or_introl eq_refl) eq_refl).
      simpl in H0, Hrs. rewrite orb_false_iff in H0.
      rewrite andb_true_iff in Hrs. apply IH1; try tauto.
      intros r' Hr'. apply Hnone. now right.
    + rewrite (Hnone r Hin eq_refl) in Hk. discriminate.
  - destruct Hin as [->|Hin]; [congruence|]. now apply IH.
Qed.

Lemma merge_all_app rs runs1 runs2 :
  merge_all rs (runs1 ++ runs2) = merge_all (merge_all rs runs1) runs2.
Proof. apply fold_left_app. Qed.

Lemma keys_distinct_merge_all runs : forall rs,
  keys_distinct rs = true -> keys_distinct (merge_all rs runs) = true.
Proof.
  induction runs as [|[[[k m] t] v] runs IH]; intros rs H; [exact H|].
  apply IH, keys_distinct_merge, H.
Qed.

Lemma has_entry_merge_all runs : forall rs k m,
  has_entry rs k m = true -> has_entry (merge_all rs runs) k m = true.
Proof.
  induction runs as [|[[[k0 m0] t0] v0] runs IH]; intros rs k m H; [exact H|].
  apply IH, has_entry_merge_other, H.
Qed.

Lemma merge_all_nth runs : forall rs i r,
  nth_error rs i = Some r ->
  exists r', nth_error (merge_all rs runs) i = Some r' /\
             key_of r' = key_of r /\ rec_t r' = rec_t r.
Proof.
  induction runs as [|[[[k m] t] v] runs IH]; intros rs i r H; [eauto|].
  destruct (merge_record_nth rs k m t v i r H) as (r1 & H1 & K1 & T1).
  destruct (IH _ i r1 H1) as (r' & H' & K' & T').
  exists r'. split; [exact H'|]. split; congruence.
Qed.

Lemma has_entry_record rs k m :
  has_entry rs k m = true ->
  exists r, In r rs /\ key_eqb (key_of r) k = true /\
            dict_get (rec_solutions r) m <> None.
Proof.
  unfold has_entry. rewrite existsb_exists. intros (r & Hin & H).
  rewrite andb_true_iff in H. destruct H as [Hk Hd].
  exists r. repeat split; auto. destruct (dict_get (rec_solutions r) m); discriminate.
Qed.

(** After two runs with equal keys, whatever was merged before, between and
    after them, one record holds both methods. *)
Lemma merge_all_two_runs rs runs1 runs2 runs3 k1 m1 t1 v1 k2 m2 t2 v2 :
  keys_distinct rs = true -> key_eqb k1 k2 = true ->
  exists r,
    records_of (merge_all rs (runs1 ++ (k1, m1, t1, v1) :: runs2 ++
                                (k2, m2, t2, v2) :: runs3)) k1 = [r] /\
    dict_get (rec_solutions r) m1 <> None /\
    dict_get (rec_solutions r) m2 <> None.
Proof.
  intros Hd Hk.
  assert (Hk21 : key_eqb k2 k1 = true) by (now rewrite key_eqb_sym).
  assert (Hk1 : key_eqb k1 k1 = true) by (eapply key_eqb_trans; eassumption).
  assert (Hk2 : key_eqb k2 k2 = true) by (eapply key_eqb_trans; eassumption).
  set (final := merge_all rs _).
  assert (Hfd : keys_distinct final = true) by (apply keys_distinct_merge_all, Hd).
  assert (H1 : has_entry final k1 m1 = true).
  { unfold final. rewrite merge_all_app. simpl.
    apply has_entry_merge_all, has_entry_merge_same, Hk1. }
  assert (H2 : has_entry final k2 m2 = true).
  { unfold final. rewrite merge_all_app. simpl. rewrite merge_all_app. simpl.
    apply has_entry_merge_all, has_entry_merge_same, Hk2. }
  destruct (has_entry_record _ _ _ H1) as (r1 & In1 & K1 & D1).
  destruct (has_entry_record _ _ _ H2) as (r2 & In2 & K2 & D2).
  assert (K21 : key_eqb (key_of r2) k1 = true) by (eapply key_eqb_trans; eassumption).
  pose proof (records_of_single final k1 r1 Hfd In1 K1) as S1.
  pose proof (records_of_single final k1 r2 Hfd In2 K21) as S2.
  exists r1. split; [exact S1|]. split; [exact D1|]. congruence.
Qed.

Lemma fold_merge_all {A} (acc : A -> list run) (l : list A) : forall rs,
  fold_left (fun rs p => merge_all rs (acc p)) l rs = merge_all rs (flat_map acc l).
Proof.
  induction l as [|a l IH]; intros rs; simpl; [reflexivity|].
  now rewrite IH, merge_all_app.
Qed.

Lemma next_records_97_merge (G : globals) p rs :
  next_records_97 G p rs = merge_all rs (accepted_97 G p).
Proof.
  destruct p as [[[[[x0 y0] gamma1] gamma2] alpha] m].
  unfold next_records_97, accepted_97.
  destruct (solve_ivp G alpha gamma1 gamma2 x0 y0 m) as [sol|msg]; [|reflexivity].
  destruct (sol_success sol); [|reflexivity].
  destruct (compressed G sol) as [[[tf xf] yf]| |]; reflexivity.
Qed.

Lemma next_records_96_merge (G : globals) p rs :
  next_records_96 G p rs = merge_all rs (accepted_96 G p).
Proof.
  destruct p as [[[[[x0 y0] gamma1] gamma2] alpha] m].
  unfold next_records_96, accepted_96.
  destruct (solve_ivp G alpha gamma1 gamma2 x0 y0 m) as [sol|msg]; [|reflexivity].
  destruct (sol_success sol); [|reflexivity].
  simpl. apply merge_record_96_eq.
Qed.

Lemma body_97_run (G : globals) (x0 y0 gamma1 gamma2 alpha : float) (m : string)
    (s : sweep_state) :
  exists s',
    body_97 G x0 y0 gamma1 gamma2 alpha m s = (Ok tt, s') /\
    records s' = next_records_97 G (x0, y0, gamma1, gamma2, alpha, m) (records s).
Proof.
  unfold body_97, next_records_97, try_except, call_solver, pbind, eval.
  destruct (solve_ivp G alpha gamma1 gamma2 x0 y0 m) as [sol|msg].
  2:{ eexists. split; reflexivity. }
  destruct (sol_success sol) eqn:Hs.
  2:{ eexists. split; reflexivity. }
  pose proof (compressed_not_fuel G sol) as Hc. unfold compressed in *.
  destruct (compress_trajectory _ _ _ _) as [idx|e|]; cbn [bind] in *;
    [|eexists; split; reflexivity|congruence].
  destruct (take (sol_x sol) idx) as [xf|e|]; cbn [bind] in *;
    [|eexists; split; reflexivity|congruence].
  destruct (take (sol_y sol) idx) as [yf|e|]; cbn [bind] in *;
    [|eexists; split; reflexivity|congruence].
  destruct (take (sol_t sol) idx) as [tf|e|]; cbn [bind] in *;
    [|eexists; split; reflexivity|congruence].
  unfold modify, get, print, ret. cbn [solution_count set_solution_count
    set_records set_skipped_total set_kept_total].
  destruct ((solution_count s + 1) mod 1049 =? 0); eexists; split; reflexivity.
Qed.

Lemma body_96_run (G : globals) (x0 y0 gamma1 gamma2 alpha : float) (m : string)
    (s : sweep_state) :
  exists s',
    body_96 G x0 y0 gamma1 gamma2 alpha m s = (Ok tt, s') /\
    records s' = next_records_96 G (x0, y0, gamma1, gamma2, alpha, m) (records s).
Proof.
  unfold body_96, next_records_96, try_except, call_solver, pbind, eval.
  destruct (solve_ivp G alpha gamma1 gamma2 x0 y0 m) as [sol|msg].
  2:{ eexists. split; reflexivity. }
  destruct (sol_success sol); eexists; split; reflexivity.
Qed.

Lemma sweep_97_grid (G : globals) (s : sweep_state) :
  sweep_97 G s = for_each (grid_97 G) (step_97 G) s.
Proof.
  unfold sweep_97, grid_97. rewrite for_each_flat_map.
  apply for_each_ext. intros [x0 y0] s1. rewrite for_each_flat_map.
  apply for_each_ext. intros gamma1 s2. rewrite for_each_flat_map.
  apply for_each_ext. intros gamma2 s3. rewrite for_each_flat_map.
  apply for_each_ext. intros alpha s4. rewrite for_each_map. reflexivity.
Qed.

Lemma sweep_96_grid (G : globals) (s : sweep_state) :
  sweep_96 G s = for_each (grid_96 G) (step_96 G) s.
Proof.
  unfold sweep_96, grid_96. rewrite for_each_flat_map.
  apply for_each_ext. intros [x0 y0] s1. rewrite for_each_flat_map.
  apply for_each_ext. intros gamma1 s2. rewrite for_each_flat_map.
  apply for_each_ext. intros gamma2 s3. rewrite for_each_flat_map.
  apply for_each_ext. intros m s4. rewrite for_each_map. reflexivity.
Qed.

Lemma sweep_97_records (G : globals) (s : sweep_state) :
  exists s', sweep_97 G s = (Ok tt, s') /\
             records s' = merge_all (records s) (flat_map (accepted_97 G) (grid_97 G)).
Proof.
  rewrite sweep_97_grid.
  destruct (for_each_fold records (next_records_97 G) (step_97 G) (grid_97 G))
    with (s := s) as (s' & H & R).
  { intros [[[[[x0 y0] gamma1] gamma2] alpha] m] s0. apply body_97_run. }
  exists s'. split; [exact H|]. rewrite R, <- fold_merge_all.
  clear. generalize (records s). induction (grid_97 G) as [|p l IH];
    intros rs; simpl; [reflexivity|]. now rewrite next_records_97_merge, IH.
Qed.

Lemma sweep_96_records (G : globals) (s : sweep_state) :
  exists s', sweep_96 G s = (Ok tt, s') /\
             records s' = merge_all (records s) (flat_map (accepted_96 G) (grid_96 G)).
Proof.
  rewrite sweep_96_grid.
  destruct (for_each_fold records (next_records_96 G) (step_96 G) (grid_96 G))
    with (s := s) as (s' & H & R).
  { intros [[[[[x0 y0] gamma1] gamma2] alpha] m] s0. apply body_96_run. }
  exists s'. split; [exact H|]. rewrite R, <- fold_merge_all.
  clear. generalize (records s). induction (grid_96 G) as [|p l IH];
    intros rs; simpl; [reflexivity|]. now rewrite next_records_96_merge, IH.
Qed.

(** ** The uniqueness filter *)

Lemma np_sub_same_length (a b : list float) :
  length a = length b ->
  np_sub a b = Ok (map (fun '(u, v) => (u - v)%float) (combine a b)).
Proof. intros H. unfold np_sub. now rewrite H, Nat.eqb_refl. Qed.

Lemma np_sub_self (x : list float) :
  forallb is_finite x = true -> np_sub x x = Ok (repeat 0%float (length x)).
Proof.
  intros H. rewrite np_sub_same_length by reflexivity. f_equal.
  induction x as [|u x IH]; simpl in *; [reflexivity|].
  rewrite andb_true_iff in H. destruct H as [Hu Hx].
  now rewrite (float_sub_self u Hu), IH.
Qed.

Lemma is_nan_eq (f : float) : is_nan f = true -> f = nan.
Proof.
  rewrite is_nan_spec. intros H. apply Prim2SF_inj.
  change (Prim2SF nan) with S754_nan.
  destruct (Prim2SF f); try discriminate. reflexivity.
Qed.

Lemma float_add_nan_l (a : float) : (nan + a)%float = nan.
Proof. apply Prim2SF_inj. rewrite add_spec. reflexivity. Qed.

Lemma float_add_nan_r (a : float) : (a + nan)%float = nan.
Proof.
  apply Prim2SF_inj. rewrite add_spec. change (Prim2SF nan) with S754_nan.
  destruct (Prim2SF a); reflexivity.
Qed.

Lemma sum_squares_nan (v : list float) :
  fold_left (fun acc d => (acc + d * d)%float) v nan = nan.
Proof.
  induction v as [|d v IH]; simpl; [reflexivity|]. now rewrite float_add_nan_l.
Qed.

Lemma sum_squares_has_nan (v : list float) : forall acc,
  existsb is_nan v = true ->
  fold_left (fun acc d => (acc + d * d)%float) v acc = nan.
Proof.
  induction v as [|d v IH]; intros acc H; simpl in *; [discriminate|].
  destruct (is_nan d) eqn:Hd.
  - apply is_nan_eq in Hd. subst d.
    change (nan * nan)%float with nan. rewrite float_add_nan_r.
    apply sum_squares_nan.
  - apply IH. exact H.
Qed.

(** The build that sums the squares from the first element on is sound. *)
Lemma products_norm_sound : norm_sound products.
Proof.
  split.
  - intros n. cbn [linalg_norm products].
    assert (H : fold_left (fun acc d => (acc + d * d)%float) (repeat 0%float n) 0%float
                = 0%float).
    { induction n as [|n IH]; simpl; [reflexivity|].
      change (0 + 0 * 0)%float with 0%float. exact IH. }
    rewrite H. reflexivity.
  - intros v Hv. cbn [linalg_norm products].
    now rewrite (sum_squares_has_nan v _ Hv).
Qed.

Lemma too_close_self {L : Numpy} eps (x y : list float) :
  norm_sound L ->
  (0 <? eps)%float = true ->
  forallb is_finite x = true -> forallb is_finite y = true ->
  too_close eps x y x y = Ok true.
Proof.
  intros [Hz _] He Hx Hy. unfold too_close.
  rewrite (np_sub_self x Hx). cbn [bind]. rewrite Hz, He.
  rewrite (np_sub_self y Hy). cbn [bind]. now rewrite Hz, He.
Qed.

(** [x - x] has a NaN element when [x] has an infinite or a NaN one. *)
Lemma np_sub_self_not_finite (x : list float) :
  forallb is_finite x = false ->
  exists dx, np_sub x x = Ok dx /\ existsb is_nan dx = true.
Proof.
  intros H. rewrite np_sub_same_length by reflexivity. eexists. split; [reflexivity|].
  induction x as [|u x IH]; simpl in *; [discriminate|].
  destruct (is_finite u) eqn:Hu; simpl in H.
  - rewrite (IH H). apply orb_true_r.
  - assert (Hn : is_nan (u - u)%float = true).
    { rewrite is_finite_spec in Hu. rewrite is_nan_spec, sub_spec.
      destruct (Prim2SF u) as [s|s| |s m e]; try discriminate; try reflexivity.
      now destruct s. }
    now rewrite Hn.
Qed.

Lemma too_close_self_not_finite {L : Numpy} eps (x y : list float) :
  norm_sound L -> forallb is_finite x = false ->
  too_close eps x y x y = Ok false.
Proof.
  intros [_ Hn] Hx. unfold too_close.
  destruct (np_sub_self_not_finite x Hx) as (dx & -> & Hdx). cbn [bind].
  assert (H : (linalg_norm dx <? eps)%float = false).
  { rewrite ltb_spec. apply Hn in Hdx. rewrite is_nan_spec in Hdx.
    destruct (Prim2SF (linalg_norm dx)); try discriminate. reflexivity. }
  now rewrite H.
Qed.

Lemma too_close_same_shape {L : Numpy} eps (x y sx sy : list float) :
  length sx = length x -> length sy = length y ->
  exists dx dy,
    np_sub x sx = Ok dx /\ np_sub y sy = Ok dy /\
    too_close eps x y sx sy
    = Ok ((linalg_norm dx <? eps) && (linalg_norm dy <? eps))%float.
Proof.
  intros Hsx Hsy. unfold too_close.
  rewrite (np_sub_same_length x sx), (np_sub_same_length y sy) by congruence.
  do 2 eexists. repeat split. cbn [bind].
  destruct (linalg_norm _ <? eps)%float; reflexivity.
Qed.

Lemma check_unique_rejects {L : Numpy} eps (x y : list float) sigs :
  same_shape x y sigs ->
  (exists b, check_unique eps x y sigs = Ok b) /\
  (check_unique eps x y sigs = Ok false <->
   exists sx sy dx dy,
     In (sx, sy) sigs /\ np_sub x sx = Ok dx /\ np_sub y sy = Ok dy /\
     (linalg_norm dx <? eps)%float = true /\ (linalg_norm dy <? eps)%float = true).
Proof.
  induction 1 as [|[sx sy] sigs [Hsx Hsy] Hall [[b Hb] IH]]; simpl in *.
  - split; [eauto|]. split; [discriminate|]. intros (? & ? & ? & ? & [] & _).
  - destruct (too_close_same_shape eps x y sx sy Hsx Hsy) as (dx & dy & Hdx & Hdy & Hc).
    rewrite Hc. cbn [bind].
    destruct ((linalg_norm dx <? eps) && (linalg_norm dy <? eps))%float eqn:E.
    + split; [eauto|]. split; [|reflexivity]. intros _.
      rewrite andb_true_iff in E. exists sx, sy, dx, dy. tauto.
    + split; [eauto|]. rewrite IH. split.
      * intros (sx' & sy' & dx' & dy' & Hin & H'). exists sx', sy', dx', dy'. tauto.
      * intros (sx' & sy' & dx' & dy' & [Heq|Hin] & Hx' & Hy' & H1 & H2).
        -- injection Heq as <- <-. rewrite Hdx in Hx'. rewrite Hdy in Hy'.
           injection Hx' as <-. injection Hy' as <-.
           rewrite H1, H2 in E. discriminate.
        -- exists sx', sy', dx', dy'. tauto.
Qed.

Lemma check_unique_duplicate {L : Numpy} eps (x y : list float) sigs :
  norm_sound L ->
  (0 <? eps)%float = true ->
  forallb is_finite x = true -> forallb is_finite y = true ->
  same_shape x y sigs -> In (x, y) sigs ->
  check_unique eps x y sigs = Ok false.
Proof.
  intros HL He Hx Hy Hs Hin.
  apply (proj2 (check_unique_rejects eps x y sigs Hs)).
  exists x, y, (repeat 0%float (length x)), (repeat 0%float (length y)).
  rewrite !np_sub_self by assumption. destruct HL as [Hz _]. rewrite !Hz. auto.
Qed.

(** A successful run in 95_save_for_streamlit_unique_x_y.ipynb: skipped and
    counted when the filter says [unique = False], saved otherwise. *)
Lemma body_95_success (G : globals) (x0 y0 gamma1 gamma2 : float) (m : string)
    (alpha : float) (s : filter_state) (sol : ode_result) (unique : bool) :
  solve_ivp G alpha gamma1 gamma2 x0 y0 m = Solved sol ->
  sol_success sol = true ->
  check_unique (L := np G) (epsilon G) (sol_x sol) (sol_y sol) (saved_signatures s)
    = Ok unique ->
  exists s',
    body_95 G x0 y0 gamma1 gamma2 m alpha s = (Ok tt, s') /\
    printed s' = printed s /\
    if unique then
      saved_signatures s' = saved_signatures s ++ [(sol_x sol, sol_y sol)] /\
      entries s' = entries s ++
        [{| entry_alpha := alpha; entry_gamma1 := gamma1; entry_gamma2 := gamma2;
            entry_method := m; entry_x0 := x0; entry_y0 := y0;
            entry_t := sol_t sol; entry_x := sol_x sol; entry_y := sol_y sol |}] /\
      skipped_due_to_similarity s' = skipped_due_to_similarity s
    else
      saved_signatures s' = saved_signatures s /\
      entries s' = entries s /\
      skipped_due_to_similarity s' = skipped_due_to_similarity s + 1.
Proof.
  intros Hsol Hok Hu.
  unfold body_95, try_except, call_solver, pbind, eval, modify, get, ret.
  rewrite Hsol, Hok. cbn [negb saved_signatures count_attempt]. rewrite Hu.
  destruct unique; eexists; (split; [reflexivity|]); simpl; repeat split.
Qed.

Lemma saved_signatures_kept (G : globals)
    (l : list (float * float * float * float * float * string)) :
  forall s sig, In sig (saved_signatures s) ->
                In sig (saved_signatures (snd (for_each l (step_95 G) s))).
Proof.
  induction l as [|p l IH]; intros s sig Hin; [exact Hin|].
  destruct p as [[[[[x0 y0] gamma1] gamma2] alpha] m]. simpl. unfold pbind.
  destruct (body_95_run G x0 y0 gamma1 gamma2 m alpha s) as (s' & Hb & Hst & _).
  rewrite Hb. apply IH.
  assert (Hs : saved_signatures s' =
               snd (next_store_95 G (x0, y0, gamma1, gamma2, alpha, m)
                      (entries s, saved_signatures s))) by now rewrite <- Hst.
  rewrite Hs. unfold next_store_95.
  destruct (solve_ivp G alpha gamma1 gamma2 x0 y0 m) as [sol|msg]; [|exact Hin].
  destruct (sol_success sol); [|exact Hin].
  destruct (check_unique _ _ _ _) as [[]| |]; try exact Hin.
  simpl. apply in_or_app. now left.
Qed.

(** C7, as the code has it: with [epsilon = 1e-5] (any positive [epsilon]) a
    candidate of finite samples whose [x] and [y] arrays are those of a
    saved signature, met among signatures of its own shape, gets
    [unique = False] and is skipped: nothing is saved for it and the skip
    counter goes up; saved signatures stay saved across the sweep, so this
    is what happens to a trajectory presented a second time. Against
    signatures of the candidate's shape, [unique = False] exactly when some
    saved pair has both norms below [epsilon]. A candidate with an infinite
    or a NaN sample in [x] is not rejected by its own signature: the
    difference has a NaN element and the norm is NaN. The norms are the ones
    the code computes, whatever the library rounds them to. *)
Theorem uniqueness_filter_rejects (G : globals) :
  norm_sound (np G) ->
  (0 <? epsilon_95)%float = true /\
  (forall x y sigs,
     (0 <? epsilon G)%float = true ->
     forallb is_finite x = true -> forallb is_finite y = true ->
     same_shape x y sigs -> In (x, y) sigs ->
     check_unique (L := np G) (epsilon G) x y sigs = Ok false) /\
  (forall x y sigs,
     same_shape x y sigs ->
     (exists unique, check_unique (L := np G) (epsilon G) x y sigs = Ok unique) /\
     (check_unique (L := np G) (epsilon G) x y sigs = Ok false <->
      exists sx sy dx dy,
        In (sx, sy) sigs /\ np_sub x sx = Ok dx /\ np_sub y sy = Ok dy /\
        (linalg_norm (Numpy := np G) dx <? epsilon G)%float = true /\
        (linalg_norm (Numpy := np G) dy <? epsilon G)%float = true)) /\
  (forall s x0 y0 gamma1 gamma2 m alpha sol unique,
     solve_ivp G alpha gamma1 gamma2 x0 y0 m = Solved sol ->
     sol_success sol = true ->
     check_unique (L := np G) (epsilon G) (sol_x sol) (sol_y sol)
       (saved_signatures s) = Ok unique ->
     exists s',
       body_95 G x0 y0 gamma1 gamma2 m alpha s = (Ok tt, s') /\
       printed s' = printed s /\
       if unique then
         saved_signatures s' = saved_signatures s ++ [(sol_x sol, sol_y sol)] /\
         entries s' = entries s ++
           [{| entry_alpha := alpha; entry_gamma1 := gamma1;
               entry_gamma2 := gamma2; entry_method := m; entry_x0 := x0;
               entry_y0 := y0; entry_t := sol_t sol; entry_x := sol_x sol;
               entry_y := sol_y sol |}] /\
         skipped_due_to_similarity s' = skipped_due_to_similarity s
       else
         saved_signatures s' = saved_signatures s /\
         entries s' = entries s /\
         skipped_due_to_similarity s' = skipped_due_to_similarity s + 1) /\
  (forall l s sig,
     In sig (saved_signatures s) ->
     In sig (saved_signatures (snd (for_each l (step_95 G) s)))) /\
  (forall x y,
     forallb is_finite x = false ->
     check_unique (L := np G) (epsilon G) x y [(x, y)] = Ok true).
Proof.
  intros HL.
  split; [reflexivity|]. split; [|split; [|split; [|split]]].
  - intros x y sigs. now apply check_unique_duplicate.
  - intros x y sigs. apply check_unique_rejects.
  - intros s x0 y0 gamma1 gamma2 m alpha sol unique.
    apply body_95_success.
  - apply saved_signatures_kept.
  - intros x y Hx. simpl.
    now rewrite (too_close_self_not_finite (epsilon G) x y HL Hx).
Qed.

(** C7 as stated fails in two ways. A candidate whose arrays are those of a
    saved signature is not rejected when an earlier signature has another
    shape: the subtraction raises ValueError before the candidate is
    compared with its own signature, whatever the norm. And a candidate
    with an infinite sample is saved a second time: its difference with
    itself is NaN, and so is the norm. *)
Lemma uniqueness_filter_keeps_duplicate :
  (infinity - infinity)%float = nan /\
  forall L : Numpy,
    check_unique epsilon_95 [1; 2; 3]%float [4; 5; 6]%float
      [([1; 2]%float, [4; 5]%float); ([1; 2; 3]%float, [4; 5; 6]%float)]
      = Raise ValueError /\
    (norm_sound L ->
     check_unique epsilon_95 [1; infinity]%float [0; 0]%float
       [([1; infinity]%float, [0; 0]%float)] = Ok true).
Proof.
  split; [reflexivity|]. intros L. split; [reflexivity|].
  intros HL. simpl.
  now rewrite (too_close_self_not_finite epsilon_95 [1; infinity]%float
                 [0; 0]%float HL eq_refl).
Qed.

(** ** The merge on objects *)

Section ObjectKeys.

Variable value : Objects.ref -> float.

Local Abbreviation same_or_equal := (Objects.same_or_equal value).
Local Abbreviation tuple_eqb := (Objects.tuple_eqb value).
Local Abbreviation fields_eqb := (Objects.fields_eqb value).

Lemma same_or_equal_refl a : same_or_equal a a = true.
Proof. unfold Objects.same_or_equal. now rewrite N.eqb_refl. Qed.

Lemma same_or_equal_sym a b : same_or_equal a b = same_or_equal b a.
Proof.
  unfold Objects.same_or_equal.
  now rewrite N.eqb_sym, (float_eqb_sym (value a) (value b)).
Qed.

Lemma same_or_equal_trans a b c :
  same_or_equal a b = true -> same_or_equal b c = true -> same_or_equal a c = true.
Proof.
  unfold Objects.same_or_equal.
  destruct (N.eqb_spec a b) as [->|Hab]; [auto|].
  destruct (N.eqb_spec b c) as [->|Hbc]; simpl.
  - intros -> _. apply orb_true_r.
  - intros H1 H2. rewrite (float_eqb_trans _ _ _ H1 H2). apply orb_true_r.
Qed.

Lemma tuple_eqb_refl k : tuple_eqb k k = true.
Proof.
  destruct k as [[[[a b] c] d] e]. unfold Objects.tuple_eqb.
  now rewrite !same_or_equal_refl.
Qed.

Lemma tuple_eqb_sym k1 k2 : tuple_eqb k1 k2 = tuple_eqb k2 k1.
Proof.
  destruct k1 as [[[[a1 b1] c1] d1] e1], k2 as [[[[a2 b2] c2] d2] e2].
  unfold Objects.tuple_eqb.
  now rewrite (same_or_equal_sym a1), (same_or_equal_sym b1), (same_or_equal_sym c1),
    (same_or_equal_sym d1), (same_or_equal_sym e1).
Qed.

Lemma tuple_eqb_trans k1 k2 k3 :
  tuple_eqb k1 k2 = true -> tuple_eqb k2 k3 = true -> tuple_eqb k1 k3 = true.
Proof.
  destruct k1 as [[[[a1 b1] c1] d1] e1], k2 as [[[[a2 b2] c2] d2] e2],
    k3 as [[[[a3 b3] c3] d3] e3]. unfold Objects.tuple_eqb.
  rewrite !andb_true_iff.
  intros ((((Ha & Hb) & Hc) & Hd) & He) ((((Ha' & Hb') & Hc') & Hd') & He').
  repeat split; eapply same_or_equal_trans; eassumption.
Qed.

(** Equal keys are equal to the same keys. *)
Lemma tuple_eqb_congr k1 k2 k :
  tuple_eqb k1 k2 = true -> tuple_eqb k k1 = tuple_eqb k k2.
Proof.
  intros H. destruct (tuple_eqb k k1) eqn:E1, (tuple_eqb k k2) eqn:E2; auto.
  - rewrite (tuple_eqb_trans k k1 k2 E1 H) in E2. discriminate.
  - rewrite tuple_eqb_sym in H. rewrite (tuple_eqb_trans k k2 k1 E2 H) in E1.
    discriminate.
Qed.

(** [==] on the numbers implies equality of the tuples, and is implied by
    it for a key without NaN. *)
Lemma fields_tuple_eqb k1 k2 : fields_eqb k1 k2 = true -> tuple_eqb k1 k2 = true.
Proof.
  destruct k1 as [[[[a1 b1] c1] d1] e1], k2 as [[[[a2 b2] c2] d2] e2].
  unfold Objects.fields_eqb, Objects.tuple_eqb, Objects.same_or_equal.
  rewrite !andb_true_iff. intros ((((-> & ->) & ->) & ->) & ->).
  now rewrite !orb_true_r.
Qed.

Lemma same_or_equal_number a b :
  (value b =? value b)%float = true ->
  same_or_equal a b = (value a =? value b)%float.
Proof.
  intros Hb. unfold Objects.same_or_equal.
  destruct (N.eqb_spec a b) as [->|]; [now rewrite Hb|reflexivity].
Qed.

Lemma tuple_fields_eqb k' k :
  fields_eqb k k = true -> tuple_eqb k' k = fields_eqb k' k.
Proof.
  destruct k' as [[[[a1 b1] c1] d1] e1], k as [[[[a2 b2] c2] d2] e2].
  unfold Objects.fields_eqb, Objects.tuple_eqb.
  rewrite !andb_true_iff. intros ((((Ha & Hb) & Hc) & Hd) & He).
  now rewrite !same_or_equal_number by assumption.
Qed.


Local Abbreviation merge_record := (Objects.merge_record value).
Local Abbreviation merge_record_96 := (Objects.merge_record_96 value).
Local Abbreviation update_record := (Objects.update_record value).
Local Abbreviation merge_all := (Objects.merge_all value).
Local Abbreviation keys_distinct := (Objects.keys_distinct value).
Local Abbreviation records_of := (Objects.records_of value).
Local Abbreviation find_record := (Objects.find_record value).

Lemma object_key_of_new_record k t m v :
  Objects.key_of (Objects.new_record k t m v) = k.
Proof. now destruct k as [[[[a b] c] d] e]. Qed.

Lemma object_new_record_fields k t m v :
  Objects.rec_t (Objects.new_record k t m v) = t /\
  Objects.rec_solutions (Objects.new_record k t m v) = [(m, v)].
Proof. now destruct k as [[[[a b] c] d] e]. Qed.

Lemma dict_get_set_cases d m v m' :
  dict_get (dict_set d m v) m' = if String.eqb m m' then Some v else dict_get d m'.
Proof.
  induction d as [|[m0 v0] d IH]; simpl.
  - reflexivity.
  - destruct (String.eqb_spec m0 m) as [->|Hm]; simpl.
    + destruct (String.eqb m m'); reflexivity.
    + destruct (String.eqb_spec m0 m') as [->|Hm'].
      * destruct (String.eqb_spec m m'); [congruence|reflexivity].
      * exact IH.
Qed.

Lemma find_record_some rs k r :
  find_record rs k = Some r -> In r rs /\ tuple_eqb (Objects.key_of r) k = true.
Proof. apply find_some. Qed.

Lemma find_record_hd rs k : find_record rs k = hd_error (records_of rs k).
Proof.
  unfold Objects.find_record, Objects.records_of.
  induction rs as [|r rs IH]; simpl; [reflexivity|].
  destruct (tuple_eqb (Objects.key_of r) k); [reflexivity|exact IH].
Qed.

Lemma tuple_eqb_congr_l k1 k2 k :
  tuple_eqb k1 k2 = true -> tuple_eqb k1 k = tuple_eqb k2 k.
Proof.
  intros H. rewrite (tuple_eqb_sym k1 k), (tuple_eqb_sym k2 k).
  now apply tuple_eqb_congr.
Qed.

(** What a merge does to the first record stored under any key. *)
Lemma find_merge_record rs k' m' t' v' k :
  find_record (merge_record rs k' m' t' v') k =
  match find_record rs k with
  | Some r => Some (if tuple_eqb (Objects.key_of r) k'
                    then Objects.set_solution r m' v' else r)
  | None => if tuple_eqb k' k then Some (Objects.new_record k' t' m' v') else None
  end.
Proof.
  induction rs as [|r0 rs IH].
  - unfold Objects.find_record. simpl. now rewrite object_key_of_new_record.
  - unfold Objects.find_record in *. simpl.
    destruct (tuple_eqb (Objects.key_of r0) k') eqn:E1; simpl.
    + change (Objects.key_of (Objects.set_solution r0 m' v')) with (Objects.key_of r0).
      destruct (tuple_eqb (Objects.key_of r0) k) eqn:E2; [now rewrite E1|].
      assert (Hk : tuple_eqb k' k = false)
        by (now rewrite <- (tuple_eqb_congr_l _ _ k E1)).
      destruct (find _ rs) as [r|] eqn:Ef; [|now rewrite Hk].
      apply find_some in Ef. destruct Ef as [_ Er].
      rewrite (tuple_eqb_sym (Objects.key_of r) k'),
        (tuple_eqb_congr _ _ k' Er), Hk. reflexivity.
    + destruct (tuple_eqb (Objects.key_of r0) k) eqn:E2; [now rewrite E1|].
      exact IH.
Qed.

Lemma merge_record_fresh_object rs k m t v :
  records_of rs k = [] -> merge_record rs k m t v = rs ++ [Objects.new_record k t m v].
Proof.
  unfold Objects.records_of.
  induction rs as [|r rs IH]; simpl; [reflexivity|].
  destruct (tuple_eqb (Objects.key_of r) k); [discriminate|].
  intros H. now rewrite IH.
Qed.

Lemma records_of_merge_other rs k' m' t' v' k :
  tuple_eqb k' k = false ->
  records_of (merge_record rs k' m' t' v') k = records_of rs k.
Proof.
  intros Hk. unfold Objects.records_of.
  induction rs as [|r0 rs IH]; simpl.
  - now rewrite object_key_of_new_record, Hk.
  - destruct (tuple_eqb (Objects.key_of r0) k') eqn:E1; simpl.
    + change (Objects.key_of (Objects.set_solution r0 m' v')) with (Objects.key_of r0).
      now rewrite (tuple_eqb_congr_l _ _ k E1), Hk.
    + now rewrite IH.
Qed.

Lemma existsb_key_merge_object rs k m t v k0 :
  existsb (fun r => tuple_eqb k0 (Objects.key_of r)) (merge_record rs k m t v) =
  existsb (fun r => tuple_eqb k0 (Objects.key_of r)) rs ||
  (negb (existsb (fun r => tuple_eqb (Objects.key_of r) k) rs) && tuple_eqb k0 k).
Proof.
  induction rs as [|r rs IH]; simpl.
  - rewrite object_key_of_new_record. now rewrite orb_false_r.
  - destruct (tuple_eqb (Objects.key_of r) k) eqn:E; simpl.
    + now rewrite orb_false_r.
    + rewrite IH. now rewrite orb_assoc.
Qed.

Lemma keys_distinct_merge_object rs k m t v :
  keys_distinct rs = true -> keys_distinct (merge_record rs k m t v) = true.
Proof.
  induction rs as [|r rs IH]; simpl; [reflexivity|].
  rewrite andb_true_iff, negb_true_iff. intros [Hr Hrs].
  destruct (tuple_eqb (Objects.key_of r) k) eqn:E; simpl.
  - change (Objects.key_of (Objects.set_solution r m v)) with (Objects.key_of r).
    now rewrite Hr, Hrs.
  - rewrite existsb_key_merge_object, Hr, E, andb_false_r. simpl. now apply IH.
Qed.

Lemma keys_distinct_merge_all_object runs : forall rs,
  keys_distinct rs = true -> keys_distinct (merge_all rs runs) = true.
Proof.
  induction runs as [|[[[k m] t] v] runs IH]; intros rs H; [exact H|].
  apply IH, keys_distinct_merge_object, H.
Qed.

(** With distinct keys, the first record under a key is the only one. *)
Lemma records_of_single_object rs k r :
  keys_distinct rs = true -> find_record rs k = Some r -> records_of rs k = [r].
Proof.
  unfold Objects.find_record, Objects.records_of.
  induction rs as [|r0 rs IH]; simpl; [discriminate|].
  rewrite andb_true_iff, negb_true_iff. intros [H0 Hrs].
  destruct (tuple_eqb (Objects.key_of r0) k) eqn:E0; [|now apply IH].
  intros [= <-]. f_equal.
  clear IH Hrs. induction rs as [|r1 rs IH1]; simpl in *; [reflexivity|].
  rewrite orb_false_iff in H0. destruct H0 as [H01 H0].
  rewrite (tuple_eqb_sym (Objects.key_of r1) k),
    <- (tuple_eqb_congr_l _ _ (Objects.key_of r1) E0), H01.
  now apply IH1.
Qed.

Lemma records_of_nil_find rs k : records_of rs k = [] -> find_record rs k = None.
Proof. intros H. now rewrite find_record_hd, H. Qed.

Lemma records_of_one_find rs k r : records_of rs k = [r] -> find_record rs k = Some r.
Proof. intros H. now rewrite find_record_hd, H. Qed.

(** A record, once stored under a key, stays the record of that key: later
    merges only write entries into it. *)
Lemma find_merge_all_kept runs : forall rs k r,
  find_record rs k = Some r ->
  exists r',
    find_record (merge_all rs runs) k = Some r' /\
    Objects.key_of r' = Objects.key_of r /\ Objects.rec_t r' = Objects.rec_t r /\
    (forall m, dict_get (Objects.rec_solutions r) m <> None ->
               dict_get (Objects.rec_solutions r') m <> None) /\
    (forall m,
       (forall k' m' t' v', In (k', m', t', v') runs ->
          tuple_eqb k' k = false \/ m' <> m) ->
       dict_get (Objects.rec_solutions r') m = dict_get (Objects.rec_solutions r) m).
Proof.
  induction runs as [|[[[k0 m0] t0] v0] runs IH]; intros rs k r Hf.
  - exists r. repeat split; auto.
  - change (merge_all rs ((k0, m0, t0, v0) :: runs))
      with (merge_all (merge_record rs k0 m0 t0 v0) runs).
    pose proof (find_merge_record rs k0 m0 t0 v0 k) as Hm. rewrite Hf in Hm.
    destruct (IH _ _ _ Hm) as (r' & Hr' & Hk' & Ht' & Hsome & Hsame).
    exists r'. split; [exact Hr'|].
    destruct (find_record_some _ _ _ Hf) as [_ Hrk].
    destruct (tuple_eqb (Objects.key_of r) k0) eqn:E.
    + split; [exact Hk'|]. split; [exact Ht'|]. split.
      * intros m Hd. apply Hsome. cbn [Objects.rec_solutions Objects.set_solution].
        rewrite dict_get_set_cases. destruct (String.eqb m0 m); [discriminate|exact Hd].
      * intros m Hlater. rewrite Hsame by (intros; apply (Hlater k' m' t' v'); now right).
        cbn [Objects.rec_solutions Objects.set_solution].
        rewrite dict_get_set_cases.
        destruct (String.eqb_spec m0 m) as [->|]; [|reflexivity].
        destruct (Hlater k0 m t0 v0 (or_introl eq_refl)) as [Hk|Hm']; [|congruence].
        rewrite (tuple_eqb_sym k0 k), <- (tuple_eqb_congr_l _ _ k0 Hrk), E in Hk.
        discriminate.
    + split; [exact Hk'|]. split; [exact Ht'|]. split; [exact Hsome|].
      intros m Hlater. apply Hsame. intros; apply (Hlater k' m' t' v'); now right.
Qed.

(** The run just merged is stored under its key. *)
Lemma find_merge_record_same rs k' m' t' v' k :
  tuple_eqb k' k = true ->
  exists r,
    find_record (merge_record rs k' m' t' v') k = Some r /\
    dict_get (Objects.rec_solutions r) m' = Some v' /\
    (forall m, m <> m' ->
       dict_get (Objects.rec_solutions r) m =
       match find_record rs k with
       | Some r0 => dict_get (Objects.rec_solutions r0) m
       | None => None
       end) /\
    match find_record rs k with
    | Some r0 => Objects.key_of r = Objects.key_of r0 /\ Objects.rec_t r = Objects.rec_t r0
    | None => Objects.key_of r = k' /\ Objects.rec_t r = t' /\
              Objects.rec_solutions r = [(m', v')]
    end.
Proof.
  intros Hk. rewrite find_merge_record.
  destruct (find_record rs k) as [r0|] eqn:Hf.
  - destruct (find_record_some _ _ _ Hf) as [_ Hr0].
    assert (E : tuple_eqb (Objects.key_of r0) k' = true).
    { rewrite (tuple_eqb_congr_l _ _ k' Hr0), tuple_eqb_sym. exact Hk. }
    rewrite E. eexists. split; [reflexivity|].
    cbn [Objects.rec_solutions Objects.set_solution]. split; [|split].
    + now rewrite dict_get_set_cases, String.eqb_refl.
    + intros m Hm. rewrite dict_get_set_cases.
      destruct (String.eqb_spec m' m); [congruence|reflexivity].
    + split; reflexivity.
  - rewrite Hk. eexists. split; [reflexivity|].
    destruct (object_new_record_fields k' t' m' v') as [Ht Hs]. rewrite Hs. split; [|split].
    + simpl. now rewrite String.eqb_refl.
    + intros m Hm. simpl. destruct (String.eqb_spec m' m); [congruence|reflexivity].
    + rewrite object_key_of_new_record. auto.
Qed.

Lemma merge_all_app_object rs runs1 runs2 :
  merge_all rs (runs1 ++ runs2) = merge_all (merge_all rs runs1) runs2.
Proof. apply fold_left_app. Qed.

(** After two runs with equal keys, whatever was merged before, between and
    after them, one record holds both methods. *)
Lemma merge_all_two_runs_object rs runs1 runs2 runs3 k1 m1 t1 v1 k2 m2 t2 v2 :
  keys_distinct rs = true -> tuple_eqb k1 k2 = true -> m1 <> m2 ->
  exists r,
    records_of (merge_all rs (runs1 ++ (k1, m1, t1, v1) :: runs2 ++
                                (k2, m2, t2, v2) :: runs3)) k1 = [r] /\
    dict_get (Objects.rec_solutions r) m1 <> None /\
    dict_get (Objects.rec_solutions r) m2 <> None /\
    ((forall k' m' t' v', In (k', m', t', v') (runs2 ++ runs3) ->
        tuple_eqb k' k1 = false \/ m' <> m1) ->
     dict_get (Objects.rec_solutions r) m1 = Some v1) /\
    ((forall k' m' t' v', In (k', m', t', v') runs3 ->
        tuple_eqb k' k1 = false \/ m' <> m2) ->
     dict_get (Objects.rec_solutions r) m2 = Some v2) /\
    (records_of (merge_all rs runs1) k1 = [] ->
     Objects.key_of r = k1 /\ Objects.rec_t r = t1).
Proof.
  intros Hd Hk Hm.
  assert (Hfd : keys_distinct (merge_all rs (runs1 ++ (k1, m1, t1, v1) :: runs2 ++
                                               (k2, m2, t2, v2) :: runs3)) = true)
    by (apply keys_distinct_merge_all_object, Hd).
  revert Hfd. rewrite merge_all_app_object.
  change (merge_all ?a ((k1, m1, t1, v1) :: ?l))
    with (merge_all (merge_record a k1 m1 t1 v1) l).
  rewrite merge_all_app_object.
  change (merge_all ?a ((k2, m2, t2, v2) :: ?l))
    with (merge_all (merge_record a k2 m2 t2 v2) l).
  set (before := merge_all rs runs1).
  destruct (find_merge_record_same before k1 m1 t1 v1 k1 (tuple_eqb_refl k1))
    as (ra & Hfa & Da & _ & Ka).
  destruct (find_merge_all_kept runs2 _ _ _ Hfa) as (rb & Hfb & Kb & Tb & Sb & Eb).
  assert (Hk21 : tuple_eqb k2 k1 = true) by (now rewrite tuple_eqb_sym).
  destruct (find_merge_record_same
              (merge_all (merge_record before k1 m1 t1 v1) runs2) k2 m2 t2 v2 k1 Hk21)
    as (rc & Hfc & Dc & Oc & Kc).
  rewrite Hfb in Oc, Kc. destruct Kc as [Kc Tc].
  destruct (find_merge_all_kept runs3 _ _ _ Hfc) as (r & Hfr & Kr & Tr & Sr & Er).
  intros Hfd. exists r.
  split; [now apply records_of_single_object|].
  assert (Dc1 : dict_get (Objects.rec_solutions rc) m1 =
                dict_get (Objects.rec_solutions rb) m1) by (apply Oc; exact Hm).
  split; [|split; [|split; [|split]]].
  - apply Sr. rewrite Dc1. apply Sb. rewrite Da. discriminate.
  - apply Sr. rewrite Dc. discriminate.
  - intros Hlater. rewrite Er, Dc1, Eb, Da; auto.
    + intros k' m' t' v' Hin. apply (Hlater k' m' t' v'), in_or_app. now left.
    + intros k' m' t' v' Hin. apply (Hlater k' m' t' v'), in_or_app. now right.
  - intros Hlater. rewrite Er, Dc; auto.
  - intros Hnone. apply records_of_nil_find in Hnone. fold before in Hnone.
    rewrite Hnone in Ka. destruct Ka as (Ka & Ta & _).
    split; congruence.
Qed.

Lemma merge_record_nth_object rs k m t v : forall i r,
  nth_error rs i = Some r ->
  exists r', nth_error (merge_record rs k m t v) i = Some r' /\
             Objects.key_of r' = Objects.key_of r /\ Objects.rec_t r' = Objects.rec_t r.
Proof.
  induction rs as [|r0 rs IH]; intros i r H; [destruct i; discriminate|].
  simpl. destruct (tuple_eqb (Objects.key_of r0) k) eqn:E.
  - destruct i as [|i]; simpl in *.
    + injection H as <-. eexists. repeat split.
    + eauto.
  - destruct i as [|i]; simpl in *.
    + injection H as <-. eauto.
    + now apply IH.
Qed.

Lemma merge_all_nth_object runs : forall rs i r,
  nth_error rs i = Some r ->
  exists r', nth_error (merge_all rs runs) i = Some r' /\
             Objects.key_of r' = Objects.key_of r /\ Objects.rec_t r' = Objects.rec_t r.
Proof.
  induction runs as [|[[[k m] t] v] runs IH]; intros rs i r H; [eauto|].
  destruct (merge_record_nth_object rs k m t v i r H) as (r1 & H1 & K1 & T1).
  destruct (IH _ i r1 H1) as (r' & H' & K' & T').
  exists r'. split; [exact H'|]. split; congruence.
Qed.

(** For a key without NaN the merge of 96 is the merge of 97. *)
Lemma merge_record_96_object_eq rs k m t v :
  fields_eqb k k = true -> merge_record_96 rs k m t v = merge_record rs k m t v.
Proof.
  intros Hk. unfold Objects.merge_record_96.
  induction rs as [|r rs IH]; simpl; [reflexivity|].
  rewrite <- (tuple_fields_eqb (Objects.key_of r) k Hk).
  destruct (tuple_eqb (Objects.key_of r) k) eqn:E; simpl; [reflexivity|].
  destruct (existsb (fun k' => tuple_eqb k' k) (map Objects.key_of rs)); simpl in *;
    now rewrite IH.
Qed.

Lemma update_record_nth rs k m v : forall i r,
  nth_error rs i = Some r ->
  exists r', nth_error (update_record rs k m v) i = Some r' /\
             Objects.key_of r' = Objects.key_of r /\ Objects.rec_t r' = Objects.rec_t r.
Proof.
  induction rs as [|r0 rs IH]; intros i r H; [destruct i; discriminate|].
  simpl. destruct (fields_eqb (Objects.key_of r0) k) eqn:E.
  - destruct i as [|i]; simpl in *.
    + injection H as <-. eexists. repeat split.
    + eauto.
  - destruct i as [|i]; simpl in *.
    + injection H as <-. eauto.
    + now apply IH.
Qed.

Lemma merge_record_96_nth rs k m t v i r :
  nth_error rs i = Some r ->
  exists r', nth_error (merge_record_96 rs k m t v) i = Some r' /\
             Objects.key_of r' = Objects.key_of r /\ Objects.rec_t r' = Objects.rec_t r.
Proof.
  intros H. unfold Objects.merge_record_96.
  destruct (negb _).
  - exists r. rewrite nth_error_app1 by (apply nth_error_Some; congruence). auto.
  - now apply update_record_nth.
Qed.

Lemma keys_distinct_update rs k m v :
  keys_distinct (update_record rs k m v) = keys_distinct rs.
Proof.
  assert (Hex : forall k0 rs, existsb (fun r' => tuple_eqb k0 (Objects.key_of r'))
                                (update_record rs k m v) =
                              existsb (fun r' => tuple_eqb k0 (Objects.key_of r')) rs).
  { intros k0 l. induction l as [|r l IH]; simpl; [reflexivity|].
    destruct (fields_eqb (Objects.key_of r) k); simpl; [reflexivity|now rewrite IH]. }
  induction rs as [|r rs IH]; simpl; [reflexivity|].
  destruct (fields_eqb (Objects.key_of r) k); simpl; [reflexivity|].
  now rewrite Hex, IH.
Qed.

Lemma keys_distinct_merge_96 rs k m t v :
  keys_distinct rs = true -> keys_distinct (merge_record_96 rs k m t v) = true.
Proof.
  intros Hd. unfold Objects.merge_record_96.
  destruct (existsb (fun k' => tuple_eqb k' k) (map Objects.key_of rs)) eqn:E; simpl.
  - now rewrite keys_distinct_update.
  - rewrite <- (merge_record_fresh_object rs k m t v).
    + now apply keys_distinct_merge_object.
    + unfold Objects.records_of. clear Hd.
      induction rs as [|r rs IH]; simpl in *; [reflexivity|].
      rewrite orb_false_iff in E. destruct E as [-> E]. now apply IH.
Qed.

Lemma float_eqb_nan_r (a b : float) :
  (a =? a)%float = false -> (b =? a)%float = false.
Proof.
  intros Ha. destruct (b =? a)%float eqn:E; [|reflexivity].
  assert (E' : (a =? b)%float = true) by (now rewrite float_eqb_sym).
  rewrite (float_eqb_trans a b a E' E) in Ha. discriminate.
Qed.

Lemma fields_eqb_nan k' k : fields_eqb k k = false -> fields_eqb k' k = false.
Proof.
  destruct k' as [[[[a1 b1] c1] d1] e1], k as [[[[a2 b2] c2] d2] e2].
  unfold Objects.fields_eqb. rewrite !andb_false_iff.
  intros [[[[H|H]|H]|H]|H]; rewrite (float_eqb_nan_r _ _ H); tauto.
Qed.

(** A run whose key has a NaN component and is found among the records, as
    when the same objects come with another method: 96 neither appends nor
    updates. *)
Lemma merge_record_96_drops rs k m t v :
  fields_eqb k k = false ->
  existsb (fun k' => tuple_eqb k' k) (map Objects.key_of rs) = true ->
  merge_record_96 rs k m t v = rs.
Proof.
  intros Hnan Hin. unfold Objects.merge_record_96. rewrite Hin. simpl. clear Hin.
  induction rs as [|r rs IH]; simpl; [reflexivity|].
  now rewrite (fields_eqb_nan (Objects.key_of r) k Hnan), IH.
Qed.

(** Seen through the numbers, the merge on objects with a key without NaN is
    the merge the sweeps are read with. *)
Lemma stored_merge_record rs k m t v :
  fields_eqb k k = true ->
  map (Objects.stored value) (merge_record rs k m t v) =
  Records.merge_record (map (Objects.stored value) rs) (Objects.numbers value k) m t v.
Proof.
  intros Hk. induction rs as [|r rs IH]; simpl.
  - now destruct k as [[[[a b] c] d] e].
  - rewrite (tuple_fields_eqb (Objects.key_of r) k Hk).
    assert (E : fields_eqb (Objects.key_of r) k =
                key_eqb (Records.key_of (Objects.stored value r))
                  (Objects.numbers value k))
      by (now destruct k as [[[[a b] c] d] e]).
    rewrite <- E. destruct (fields_eqb (Objects.key_of r) k); simpl;
      [reflexivity|now rewrite IH].
Qed.

End ObjectKeys.




(** The two-method sweep of 97_filtering_t_x_y_Euclidean_values.ipynb stores
    one record with both methods and the time array of the first one. *)
Example sweep_97_two_methods :
  map (fun r => (key_of r, rec_t r, map fst (rec_solutions r)))
    (records (snd (sweep_97 two_method_sweep initial_state))) =
  [((1, 1, 0, 0.5, 0x1p-10)%float, [0; 0.5; 1]%float,
    ["DOP853"%string; "BDF"%string])].
Proof. reflexivity. Qed.

Lemma uniqueness_filter_rejects_witness :
  check_unique (L := np two_method_sweep) (epsilon two_method_sweep)
    [1; 1.5; 2]%float [1; 0.75; 0.5]%float
    [([1; 1.5; 2]%float, [1; 0.75; 0.5]%float)] = Ok false.
Proof.
  apply (proj1 (proj2 (uniqueness_filter_rejects two_method_sweep
                         products_norm_sound)));
    [reflexivity|reflexivity|reflexivity| |left; reflexivity].
  repeat constructor.
Defined.

(** The second method of the two-method sweep returns the arrays of the
    first and is skipped. *)
Example sweep_95_second_presentation :
  let s := snd (sweep_95 two_method_sweep initial_filter_state) in
  length (entries s) = 1%nat /\ length (saved_signatures s) = 1%nat /\
  total_attempts s = 2 /\ skipped_due_to_similarity s = 1.
Proof. repeat split. Qed.

Lemma sweep_skips_failed_runs_witness :
  records (snd (sweep_98 unsuccessful_sweep initial_state)) =
  records (snd (for_each ([] ++ []) (step_98 unsuccessful_sweep) initial_state)).
Proof.
  apply (proj1 (proj2 (proj2 (sweep_skips_failed_runs unsuccessful_sweep)))
           initial_state [] 1%float 1%float 0%float 0.5%float 0x1p-10%float []);
    reflexivity.
Defined.

(** ** The right-hand side *)

Import Hill.

Lemma np_clip_range (a lo hi : float) :
  is_nan a = false -> (lo <=? hi)%float = true ->
  (lo <=? np_clip a lo hi)%float = true /\ (np_clip a lo hi <=? hi)%float = true.
Proof.
  intros Ha Hlh. destruct (float_leb_not_nan _ _ Hlh) as [Nlo Nhi].
  unfold np_clip, np_max, np_min. rewrite Ha. cbn [orb].
  destruct (lo <? a)%float eqn:E1.
  - rewrite Ha. cbn [orb]. destruct (a <? hi)%float eqn:E2.
    + split; auto using float_ltb_leb.
    + split; [exact Hlh|apply float_leb_refl, Nhi].
  - rewrite Nlo. cbn [orb]. destruct (lo <? hi)%float eqn:E2.
    + split; [apply float_leb_refl, Nlo|exact Hlh].
    + split; [exact Hlh|apply float_leb_refl, Nhi].
Qed.

Lemma float_between lo hi v ml el mh eh A B :
  Prim2SF lo = S754_finite false ml el -> Prim2SF hi = S754_finite false mh eh ->
  A = Z.pos (digits2_pos ml) + el -> B = Z.pos (digits2_pos mh) + eh ->
  within lo hi v ->
  exists m e, Prim2SF v = S754_finite false m e /\
              A <= Z.pos (digits2_pos m) + e <= B.
Proof.
  intros Hlo Hhi -> -> [H1 H2]. rewrite leb_spec in H1, H2.
  pose proof (Prim2SF_valid lo) as Vlo. pose proof (Prim2SF_valid hi) as Vhi.
  pose proof (Prim2SF_valid v) as Vv.
  rewrite Hlo in *. rewrite Hhi in *.
  destruct (SFleb_between _ _ _ _ _ H1 H2) as (m & e & Hv).
  rewrite Hv in *. exists m, e. split; [reflexivity|].
  split; apply SFleb_pos_mag; assumption.
Qed.

Lemma within_not_nan lo hi v : within lo hi v -> is_nan v = false.
Proof. intros [H _]. now destruct (float_leb_not_nan _ _ H). Qed.

Lemma abs_below g G mg eg B :
  Prim2SF G = S754_finite false mg eg -> B = Z.pos (digits2_pos mg) + eg ->
  (abs g <=? G)%float = true -> sf_below B (Prim2SF g).
Proof.
  intros HG -> H. rewrite leb_spec, abs_spec, HG in H.
  apply SFleb_abs_below; auto using Prim2SF_valid.
  rewrite <- HG. apply Prim2SF_valid.
Qed.

Lemma truediv_alpha alpha :
  within alpha_min 1 alpha ->
  exists inv_alpha, truediv 1 alpha = Ok inv_alpha /\ is_finite inv_alpha = true.
Proof.
  intros H.
  destruct (float_between alpha_min 1 alpha _ _ _ _ (-46) 1
              eq_refl eq_refl eq_refl eq_refl H) as (m & e & Ha & Hm).
  unfold truediv.
  assert (E : (alpha =? 0)%float = false).
  { rewrite eqb_spec, Ha. reflexivity. }
  rewrite E. eexists; split; [reflexivity|].
  rewrite is_finite_spec, div_spec, Ha.
  apply (sf_below_finite (Z.max (1 - -46 + 2) (-1072))).
  apply SFdiv_below; try lia.
  - apply Prim2SF_valid.
  - rewrite <- Ha. apply Prim2SF_valid.
  - change (Prim2SF 1) with (S754_finite false 4503599627370496 (-52)).
    unfold sf_below. simpl digits2_pos. lia.
Qed.

Section Bounds.

Variables np_exp np_log : float -> float.

Hypothesis np_log_finite :
  forall v, within lit_1e_20 lit_1e20 v -> is_finite (np_log v) = true.
Hypothesis np_exp_range :
  forall c, within (- lit_700) lit_700 c -> within exp_lo exp_hi (np_exp c).

Lemma power_range inv_alpha v :
  is_finite inv_alpha = true -> within lit_1e_20 lit_1e20 v ->
  exists m e,
    Prim2SF (np_exp (np_clip (np_log v * inv_alpha) (- lit_700) lit_700))
    = S754_finite false m e /\ -1010 <= Z.pos (digits2_pos m) + e <= 1011.
Proof.
  intros Hi Hv.
  apply (float_between exp_lo exp_hi _ _ _ _ _ (-1010) 1011
           eq_refl eq_refl eq_refl eq_refl).
  apply np_exp_range. apply np_clip_range; [|reflexivity].
  rewrite is_nan_spec, mul_spec. apply SFmul_finite_not_nan.
  - rewrite <- is_finite_spec. now apply np_log_finite.
  - now rewrite <- is_finite_spec.
Qed.

Lemma hill_fraction_below xa ba mx ex mb eb :
  Prim2SF xa = S754_finite false mx ex -> -1010 <= Z.pos (digits2_pos mx) + ex <= 1011 ->
  Prim2SF ba = S754_finite false mb eb -> -1010 <= Z.pos (digits2_pos mb) + eb <= 1011 ->
  sf_below 4 (Prim2SF (K * xa / (ba + xa))).
Proof.
  intros Hx Mx Hb Mb. set (M := Z.pos (digits2_pos mx) + ex) in *.
  assert (Hnum : sf_below (M + 2) (Prim2SF (K * xa))).
  { rewrite mul_spec.
    apply (sf_below_mono (Z.max (1 + M + 1) (-1072))); [lia|].
    apply SFmul_below; auto using Prim2SF_valid; try lia.
    - change (Prim2SF K) with (S754_finite false 4503599627370496 (-52)).
      unfold sf_below. simpl digits2_pos. lia.
    - rewrite Hx. unfold sf_below. fold M. lia. }
  pose proof (Prim2SF_valid xa) as Vx. pose proof (Prim2SF_valid ba) as Vb.
  pose proof (Prim2SF_valid (ba + xa)) as Vd.
  assert (Hup : sf_below (Z.max (1011 + 2) (-1072)) (Prim2SF (ba + xa))).
  { rewrite add_spec. apply SFadd_below; auto; try lia.
    - rewrite Hb. unfold sf_below. lia.
    - rewrite Hx. unfold sf_below. fold M. lia. }
  assert (Hlow : sf_above M (Prim2SF (ba + xa))).
  { rewrite add_spec, Hb, Hx. rewrite Hx in Vx. rewrite Hb in Vb.
    apply (SFadd_pos_above mb eb mx ex Vb Vx). }
  rewrite div_spec.
  destruct (Prim2SF (ba + xa)) as [s|s| |s m e]; unfold sf_above in Hlow;
    unfold sf_below in Hup; try contradiction.
  apply (sf_below_mono (Z.max (M + 2 - M + 2) (-1072))); [lia|].
  apply SFdiv_below; auto using Prim2SF_valid; lia.
Qed.

Lemma loss_below gamma v :
  (abs gamma <=? gamma_max)%float = true -> within lit_1e_20 lit_1e20 v ->
  sf_below 969 (Prim2SF (gamma * v)).
Proof.
  intros Hg Hv.
  pose proof (abs_below gamma gamma_max _ _ 901 eq_refl eq_refl Hg) as Bg.
  destruct (float_between lit_1e_20 lit_1e20 v _ _ _ _ (-66) 67
              eq_refl eq_refl eq_refl eq_refl Hv) as (m & e & Hm & Mv).
  rewrite mul_spec.
  apply (sf_below_mono (Z.max (901 + 67 + 1) (-1072))); [lia|].
  apply SFmul_below; auto using Prim2SF_valid; try lia.
  rewrite Hm. unfold sf_below. lia.
Qed.

Lemma derivative_finite inv_alpha gamma v :
  is_finite inv_alpha = true -> (abs gamma <=? gamma_max)%float = true ->
  within lit_1e_20 lit_1e20 v ->
  let v_alpha := np_exp (np_clip (np_log v * inv_alpha) (- lit_700) lit_700) in
  let b_alpha := np_exp (np_clip (np_log b * inv_alpha) (- lit_700) lit_700) in
  is_finite (K * v_alpha / (b_alpha + v_alpha) - gamma * v) = true.
Proof.
  intros Hi Hg Hv v_alpha b_alpha.
  destruct (power_range inv_alpha v Hi Hv) as (mx & ex & Hx & Mx).
  assert (Hb : within lit_1e_20 lit_1e20 b) by (split; reflexivity).
  destruct (power_range inv_alpha b Hi Hb) as (mb & eb & Hba & Mb).
  pose proof (hill_fraction_below _ _ _ _ _ _ Hx Mx Hba Mb) as F.
  pose proof (loss_below gamma v Hg Hv) as L.
  rewrite is_finite_spec, sub_spec.
  apply (sf_below_finite (Z.max (969 + 2) (-1072))).
  apply SFsub_below; auto using Prim2SF_valid; try lia.
  apply (sf_below_mono 4); [lia|exact F].
Qed.

End Bounds.

(** C4, with the decay rates bounded.  Let [np_log] be finite on
    [[1e-20, 1e20]] and let [np_exp] map [[-700, 700]] into
    [[2^-1011, 2^1010]], an interval around [[exp(-700), exp(700)]].  For a
    state [x], [y] in [[1e-20, 1e20]], [alpha] in [[1e-14, 1]], every [t] and
    decay rates of absolute value at most [2^900], the evaluator returns a
    pair of derivatives, and both are finite: neither NaN nor an infinity.
    The clamped exponentials are positive, so each denominator is positive
    and at least as large as the numerator's exponential, the fraction stays
    below [2^4], and [gamma * x] stays below [2^969]. *)
Theorem get_rhs_finite (np_exp np_log : float -> float)
    (alpha gamma1 gamma2 t x y : float) :
  (forall v, within lit_1e_20 lit_1e20 v -> is_finite (np_log v) = true) ->
  (forall c, within (- lit_700) lit_700 c -> within exp_lo exp_hi (np_exp c)) ->
  within lit_1e_20 lit_1e20 x -> within lit_1e_20 lit_1e20 y ->
  within alpha_min 1 alpha ->
  (abs gamma1 <=? gamma_max)%float = true ->
  (abs gamma2 <=? gamma_max)%float = true ->
  exists dxdt dydt,
    get_rhs np_exp np_log alpha gamma1 gamma2 t [x; y] = Ok [dxdt; dydt] /\
    is_finite dxdt = true /\ is_finite dydt = true.
Proof.
  intros Hlog Hexp Hx Hy Ha Hg1 Hg2.
  destruct (truediv_alpha alpha Ha) as (inv_alpha & Hdiv & Hfin).
  assert (Cx : within lit_1e_20 lit_1e20 (np_clip x lit_1e_20 lit_1e20)).
  { apply np_clip_range; [exact (within_not_nan _ _ _ Hx)|reflexivity]. }
  assert (Cy : within lit_1e_20 lit_1e20 (np_clip y lit_1e_20 lit_1e20)).
  { apply np_clip_range; [exact (within_not_nan _ _ _ Hy)|reflexivity]. }
  unfold get_rhs.
  change (getitem [x; y] 0) with (Ok x). change (getitem [x; y] 1) with (Ok y).
  cbn [bind]. rewrite Hdiv. cbn [bind].
  eexists. eexists. split; [reflexivity|].
  split; apply derivative_finite; assumption.
Qed.

Lemma get_rhs_finite_witness :
  exists dxdt dydt,
    get_rhs unit_exp zero_log 0x1p-10 0.5 0.5 0 [0.5; 2]%float = Ok [dxdt; dydt] /\
    is_finite dxdt = true /\ is_finite dydt = true.
Proof.
  apply get_rhs_finite.
  - intros v _. reflexivity.
  - intros c _. split; reflexivity.
  - split; reflexivity.
  - split; reflexivity.
  - split; reflexivity.
  - reflexivity.
  - reflexivity.
Defined.

(** Without a bound on the decay rate the product [gamma1 * x] overflows:
    with [gamma1 = 1e300] and [x = 1e20], inside the claimed box, the first
    derivative is not finite whatever [np_exp] and [np_log] return. *)
Lemma get_rhs_overflows :
  (lit_1e300 * lit_1e20 = infinity)%float /\
  within lit_1e_20 lit_1e20 lit_1e20 /\
  within alpha_min 1 1 /\
  forall (np_exp np_log : float -> float) (t : float),
  exists dxdt dydt,
    get_rhs np_exp np_log 1 lit_1e300 0 t [lit_1e20; lit_1e20] = Ok [dxdt; dydt] /\
    is_finite dxdt = false.
Proof.
  split; [reflexivity|]. split; [split; reflexivity|]. split; [split; reflexivity|].
  intros np_exp np_log t. eexists. eexists. split; [reflexivity|].
  change (np_clip lit_1e20 lit_1e_20 lit_1e20) with lit_1e20.
  change (lit_1e300 * lit_1e20)%float with infinity.
  rewrite is_finite_spec, sub_spec.
  change (Prim2SF infinity) with (S754_infinity false).
  destruct (Prim2SF _) as [s|s| |s m e]; try reflexivity. destruct s; reflexivity.
Qed.

(** * Edge cases, invariants and round trips *)

(** ** Inputs on which the compression raises *)

Lemma getitem_cases {A} (a : list A) (k : Z) :
  (exists v, getitem a k = Ok v) \/ getitem a k = Raise IndexError.
Proof.
  unfold getitem.
  destruct ((0 <=? (if k <? 0 then k + Z.of_nat (length a) else k)) &&
            ((if k <? 0 then k + Z.of_nat (length a) else k) <?
               Z.of_nat (length a))); [|now right].
  destruct (nth_error a _); [left; eauto|now right].
Qed.

Lemma dist_out_of_range {L : Numpy} (x y : list float) (i j : Z) :
  0 <= i -> 0 <= j ->
  Z.of_nat (length x) <= Z.max i j \/ Z.of_nat (length y) <= Z.max i j ->
  dist x y i j = Raise IndexError.
Proof.
  intros Hi Hj Hout. unfold dist.
  destruct (getitem_cases x j) as [[xj Exj]| ->]; [|reflexivity].
  rewrite Exj. cbn [bind].
  destruct (getitem_cases x i) as [[xi Exi]| ->]; [|reflexivity].
  rewrite Exi. cbn [bind].
  destruct (getitem_cases y j) as [[yj Eyj]| ->]; [|reflexivity].
  rewrite Eyj. cbn [bind].
  destruct (getitem_cases y i) as [[yi Eyi]| ->]; [|reflexivity].
  apply getitem_Ok_range in Exj, Exi, Eyj, Eyi. lia.
Qed.

Lemma dist_below {L : Numpy} (x y : list float) (i j : Z) :
  0 <= i < Z.of_nat (length x) -> 0 <= i < Z.of_nat (length y) ->
  0 <= j < Z.of_nat (length x) -> 0 <= j < Z.of_nat (length y) ->
  exists d, dist x y i j = Ok d.
Proof.
  intros Hix Hiy Hjx Hjy. unfold dist.
  destruct (getitem_nonneg x j Hjx) as (xj & -> & _).
  destruct (getitem_nonneg x i Hix) as (xi & -> & _).
  destruct (getitem_nonneg y j Hjy) as (yj & -> & _).
  destruct (getitem_nonneg y i Hiy) as (yi & -> & _).
  cbn [bind]. eauto.
Qed.

Section ShortArrays.

Context {lib : Numpy}.

Variables t x y : list float.
Variable delta : float.

Local Abbreviation N := (len_t t).
Local Abbreviation L := (Z.min (Z.of_nat (length x)) (Z.of_nat (length y))).

Hypothesis Hshort : L < N.

Lemma inner_while_short fuel : forall i j,
  0 <= i < j -> j < N -> j <= L \/ L <= i -> N - j < Z.of_nat fuel ->
  inner_while t x y delta fuel i j = Raise IndexError \/
  exists j', inner_while t x y delta fuel i j = Ok j' /\ j <= j' < L.
Proof using Hshort.
  induction fuel as [|fuel IH]; intros i j Hij HjN Hcase Hf; [lia|].
  cbn [inner_while]. destruct (Z.ltb_spec j N); [|lia].
  destruct (Z_lt_le_dec j L) as [HjL|HjL].
  - destruct (dist_below x y i j) as (d & Hd); try lia.
    rewrite Hd. cbn [bind]. destruct (delta <? d)%float.
    + right. exists j. split; [reflexivity|lia].
    + destruct (IH i (j + 1)) as [Hr|(j' & Hj' & Hb)]; try lia.
      * now left.
      * right. exists j'. split; [assumption|lia].
  - left. rewrite dist_out_of_range; try lia. reflexivity.
Qed.

Lemma outer_while_short fuel fuel_in : forall acc i,
  0 <= i < N - 1 -> N - i <= Z.of_nat fuel -> N < Z.of_nat fuel_in ->
  outer_while t x y delta fuel fuel_in acc i = Raise IndexError.
Proof using Hshort.
  induction fuel as [|fuel IH]; intros acc i Hi Hf Hfi; [lia|].
  cbn [outer_while]. destruct (Z.ltb_spec i (N - 1)); [|lia].
  destruct (inner_while_short fuel_in i (i + 1)) as [Hr|(j' & Hj' & Hb)]; try lia.
  - now rewrite Hr.
  - rewrite Hj'. cbn [bind]. destruct (Z.geb_spec j' N); [lia|].
    apply IH; lia.
Qed.

End ShortArrays.

(** X1: the outcomes of [compress_trajectory] by the lengths of its arguments:
    with at most one time sample, or with [x] and [y] at least as long as
    [t], it returns a list; with two or more time samples and [x] or [y]
    shorter than [t], it raises IndexError. *)
Theorem compress_trajectory_index_error {L : Numpy}
    (t x y : list float) (delta : float) :
  ((length t <= 1)%nat \/ ((length t <= length x)%nat /\ (length t <= length y)%nat) ->
     exists indices, compress_trajectory t x y delta = Ok indices) /\
  ((2 <= length t)%nat -> (length x < length t)%nat \/ (length y < length t)%nat ->
     compress_trajectory t x y delta = Raise IndexError).
Proof.
  split.
  - intros [Hone|[Hx Hy]].
    + destruct t as [|a [|c t']]; [eexists; reflexivity|eexists; reflexivity|].
      simpl in Hone. lia.
    + destruct t as [|a t']; [eexists; reflexivity|].
      destruct (compress_trajectory_spec (a :: t') x y delta) as (l & i' & H & _);
        auto; [simpl; lia|]. eauto.
  - intros HN Hshort. unfold compress_trajectory, compress_trajectory_fuel.
    rewrite outer_while_short; [reflexivity| | | |]; unfold len_t; lia.
Qed.

Lemma compress_trajectory_index_error_witness :
  (exists indices, compress_trajectory (L := products)
    [0]%float [] [] 1%float = Ok indices) /\
  compress_trajectory (L := products)
    [0; 1; 2]%float [1; 2; 3]%float [1; 2]%float 1%float
    = Raise IndexError.
Proof.
  split.
  - apply (proj1 (compress_trajectory_index_error [0]%float [] [] 1%float)).
    left. simpl. lia.
  - apply (proj2 (compress_trajectory_index_error [0; 1; 2]%float [1; 2; 3]%float
                    [1; 2]%float 1%float)); simpl; lia.
Defined.

(** ** How many indices are retained *)

Lemma strictly_increasing_head (l : list Z) : forall u,
  strictly_increasing (u :: l) = true ->
  Forall (fun k => u < k) l /\ strictly_increasing l = true.
Proof.
  induction l as [|v l IH]; intros u H; [split; [constructor|reflexivity]|].
  cbn [strictly_increasing] in H. apply andb_true_iff in H as [Huv Hs].
  apply Z.ltb_lt in Huv. destruct (IH v Hs) as [Hv _].
  split; [|exact Hs]. constructor; [lia|].
  eapply Forall_impl; [|exact Hv]. simpl. intros; lia.
Qed.

Lemma strictly_increasing_length (l : list Z) : forall a b,
  strictly_increasing l = true -> Forall (fun k => a <= k < b) l ->
  Z.of_nat (length l) <= Z.max 0 (b - a).
Proof.
  induction l as [|u l IH]; intros a b Hs Hr; [simpl; lia|].
  inversion Hr as [|? ? Hu Hr']; subst.
  destruct (strictly_increasing_head l u Hs) as [Hgt Hs'].
  assert (Hr'' : Forall (fun k => u + 1 <= k < b) l).
  { rewrite Forall_forall in *. intros k Hk.
    specialize (Hgt k Hk). specialize (Hr' k Hk). simpl in *. lia. }
  specialize (IH (u + 1) b Hs' Hr''). cbn [length]. lia.
Qed.

(** X2: on a trajectory with at least one sample, the compression retains at
    least one index and at most as many as there are samples; with two
    samples or more it retains at least two. *)
Theorem compress_trajectory_count_bounds {L : Numpy}
    (t x y : list float) (delta : float) :
  (1 <= length t)%nat -> (length t <= length x)%nat -> (length t <= length y)%nat ->
  exists indices,
    compress_trajectory t x y delta = Ok indices /\
    (1 <= length indices <= length t)%nat /\
    ((2 <= length t)%nat -> (2 <= length indices)%nat).
Proof.
  intros HN Hx Hy.
  destruct (compress_trajectory_spec t x y delta HN Hx Hy) as (l & i' & Hc & Hs & Hend).
  exists (finish t l i'). split; [exact Hc|].
  pose proof (compress_trajectory_range t x y delta _ HN Hc) as Hr.
  destruct (scans_bounds t x y delta _ _ _ Hs) as (_ & Hlt & _).
  assert (Hi' : i' <= len_t t - 1) by (unfold len_t in *; lia).
  pose proof (finish_increasing t x y delta l i' Hs Hi') as Hinc.
  pose proof (strictly_increasing_length _ 0 (Z.of_nat (length t)) Hinc Hr) as Hlen.
  repeat split.
  - unfold finish. simpl. lia.
  - lia.
  - intros H2. unfold finish. cbn [length]. rewrite length_app.
    inversion Hs; subst; [|simpl; lia].
    destruct (Z.eqb_spec 0 (len_t t - 1)) as [E|E]; [unfold len_t in E; lia|].
    simpl. lia.
Qed.

Lemma compress_trajectory_count_bounds_witness :
  exists indices,
    compress_trajectory (L := products)
      [0; 1; 2]%float [1; 1.5; 4]%float [0; 0; 0]%float 1%float
      = Ok indices /\
    (1 <= length indices <= 3)%nat /\ ((2 <= 3)%nat -> (2 <= length indices)%nat).
Proof.
  apply (compress_trajectory_count_bounds [0; 1; 2]%float [1; 1.5; 4]%float
           [0; 0; 0]%float 1%float); simpl; lia.
Defined.

(** ** Thresholds at the extremes *)

Lemma far_nan_delta {L : Numpy} (x y : list float) (delta : float) (i j : Z) :
  is_nan delta = true -> far x y delta i j = false.
Proof.
  intros Hn. unfold far. destruct (dist x y i j) as [d| |]; auto.
  destruct (delta <? d)%float eqn:E; auto.
  apply float_ltb_not_nan in E. destruct E; congruence.
Qed.

Lemma far_infinite_delta {L : Numpy} (x y : list float) (i j : Z) :
  far x y infinity i j = false.
Proof.
  unfold far. destruct (dist x y i j) as [d| |]; auto.
  rewrite ltb_spec. change (Prim2SF infinity) with (S754_infinity false).
  destruct (Prim2SF d) as [s|s| |s m e]; try reflexivity; destruct s; reflexivity.
Qed.

(** X3: when no later sample is further than [delta] from the first one (as for
    a threshold that is NaN or [+inf]), the compression of a trajectory with
    two samples or more retains the two end points and nothing else. *)
Theorem compress_trajectory_endpoints {L : Numpy} (t x y : list float) (delta : float) :
  (2 <= length t)%nat -> (length t <= length x)%nat -> (length t <= length y)%nat ->
  tail_quiet t x y delta 0 \/ is_nan delta = true \/ delta = infinity ->
  compress_trajectory t x y delta = Ok [0; len_t t - 1].
Proof.
  intros HN Hx Hy Hq.
  assert (Hquiet : tail_quiet t x y delta 0).
  { destruct Hq as [H|[H| ->]]; [exact H| |].
    - intros k _. now apply far_nan_delta.
    - intros k _. apply far_infinite_delta. }
  destruct (compress_trajectory_spec t x y delta ltac:(lia) Hx Hy)
    as (l & i' & Hc & Hs & _).
  rewrite Hc. inversion Hs as [|? j l' ? Hp Hs']; subst.
  - unfold finish. destruct (Z.eqb_spec 0 (len_t t - 1)) as [E|E];
      [unfold len_t in E; lia|reflexivity].
  - destruct Hp as (Hj & Hfar & _). rewrite Hquiet in Hfar by lia. discriminate.
Qed.

Lemma compress_trajectory_endpoints_witness :
  compress_trajectory (L := products)
    [0; 1; 2]%float [1; 1.5; 4]%float [0; 0; 0]%float nan
    = Ok [0; 2].
Proof.
  apply (compress_trajectory_endpoints [0; 1; 2]%float [1; 1.5; 4]%float
           [0; 0; 0]%float nan); simpl; try lia.
  right. left. reflexivity.
Defined.

Lemma SFsqrt_sign a : sf_nonneg a = true -> sf_nonneg (SF64sqrt a) = true.
Proof.
  destruct a as [s|s| |s m e]; simpl; try discriminate; auto.
  - destruct s; [discriminate|reflexivity].
  - destruct s; [discriminate|]. intros _.
    unfold SFsqrt_core_binary.
    match goal with |- context [Z.sqrtrem ?n] =>
      pose proof (Zsqrtrem_nonneg n) as Hq; destruct (Z.sqrtrem n) as [q r]
    end. simpl in Hq.
    match goal with |- context [binary_round_aux ?p ?em false q ?e ?l] =>
      pose proof (binary_round_aux_signed p em false q e l Hq) as H;
      destruct (binary_round_aux p em false q e l) as [s'|s'| |s' m' e']
    end; simpl in *; try discriminate; auto; destruct s'; auto; discriminate.
Qed.

Lemma SFltb_neg_nonneg p q :
  SFltb p (S754_zero false) = true -> sf_nonneg q = true -> SFltb p q = true.
Proof.
  unfold SFltb.
  destruct p as [s|s| |s m e], q as [s'|s'| |s' m' e']; simpl;
    try discriminate; try (destruct s; discriminate);
    destruct s; try discriminate; destruct s'; try discriminate; auto.
Qed.

Lemma dist_nonneg {L : Numpy} (x y : list float) (i j : Z) (d : float) :
  squares_sound L ->
  forallb is_finite x = true -> forallb is_finite y = true ->
  dist x y i j = Ok d -> sf_nonneg (Prim2SF d) = true.
Proof.
  intros HL Hx Hy. unfold dist.
  rewrite forallb_forall in Hx, Hy.
  destruct (getitem x j) as [xj| |] eqn:E1; cbn [bind]; try discriminate.
  destruct (getitem x i) as [xi| |] eqn:E2; cbn [bind]; try discriminate.
  destruct (getitem y j) as [yj| |] eqn:E3; cbn [bind]; try discriminate.
  destruct (getitem y i) as [yi| |] eqn:E4; cbn [bind]; try discriminate.
  intros [= <-].
  apply getitem_In in E1, E2, E3, E4.
  apply Hx in E1, E2. apply Hy in E3, E4.
  rewrite sqrt_spec, add_spec.
  apply SFsqrt_sign, SFadd_nonneg; apply HL, float_sub_not_nan; auto.
Qed.

(** X4: with a negative threshold every sample of a trajectory of finite values
    is retained: the index list is [0, 1, ..., len(t) - 1]. The squares of
    the library are not negative, so neither is a computed distance. *)
Theorem compress_trajectory_negative_delta {L : Numpy} (t x y : list float)
    (delta : float) :
  squares_sound L ->
  (1 <= length t)%nat -> length x = length t -> length y = length t ->
  forallb is_finite x = true -> forallb is_finite y = true ->
  (delta <? 0)%float = true ->
  compress_trajectory t x y delta = Ok (range (length t)).
Proof.
  intros HL HN Hx Hy Fx Fy Hd.
  apply compress_trajectory_dense; try lia; [|unfold len_t; lia].
  intros p Hp0 Hp. unfold far.
  destruct (dist_in_range t x y ltac:(lia) ltac:(lia) p (p + 1)) as (d & Hdist);
    try (unfold len_t in *; lia).
  rewrite Hdist. rewrite ltb_spec in *.
  change (Prim2SF 0) with (S754_zero false) in Hd.
  apply SFltb_neg_nonneg; [exact Hd|].
  exact (dist_nonneg x y p (p + 1) d HL Fx Fy Hdist).
Qed.

Lemma compress_trajectory_negative_delta_witness :
  compress_trajectory (L := products)
    [0; 1; 2]%float [1; 1; 1]%float [0; 0; 0]%float (-1)%float
    = Ok (range 3).
Proof.
  apply (compress_trajectory_negative_delta [0; 1; 2]%float [1; 1; 1]%float
           [0; 0; 0]%float (-1)%float);
    reflexivity || (simpl; lia) || apply products_squares_sound.
Defined.

(** ** Samples appended to a trajectory *)

Lemma getitem_app_l {A} (a a2 : list A) (k : Z) :
  0 <= k < Z.of_nat (length a) -> getitem (a ++ a2) k = getitem a k.
Proof.
  intros Hk.
  destruct (getitem_nonneg a k Hk) as (v & -> & Hn).
  destruct (getitem_nonneg (a ++ a2) k) as (v' & -> & Hn').
  { rewrite length_app. lia. }
  rewrite nth_error_app1 in Hn' by lia. congruence.
Qed.

Lemma dist_app_l {L : Numpy} (x x2 y y2 : list float) (i j : Z) :
  0 <= i < Z.of_nat (length x) -> 0 <= i < Z.of_nat (length y) ->
  0 <= j < Z.of_nat (length x) -> 0 <= j < Z.of_nat (length y) ->
  dist (x ++ x2) (y ++ y2) i j = dist x y i j.
Proof.
  intros. unfold dist. now rewrite !getitem_app_l.
Qed.

Section Extension.

Context {L : Numpy}.

Variables t x y t2 x2 y2 : list float.
Variable delta : float.
Hypothesis Hx : length x = length t.
Hypothesis Hy : length y = length t.

Local Abbreviation N := (len_t t).
Local Abbreviation t' := (t ++ t2).
Local Abbreviation x' := (x ++ x2).
Local Abbreviation y' := (y ++ y2).

Lemma far_app_l i j :
  0 <= i < N -> 0 <= j < N -> far x' y' delta i j = far x y delta i j.
Proof using Hx Hy.
  intros Hi Hj. unfold far, len_t in *. rewrite dist_app_l; auto; lia.
Qed.

Lemma scan_pair_app_l i j :
  0 <= i -> scan_pair t x y delta i j -> scan_pair t' x' y' delta i j.
Proof using Hx Hy.
  intros Hi (Hij & Hfar & Hq). unfold scan_pair, len_t in *.
  rewrite length_app. repeat split; try lia.
  - rewrite far_app_l; unfold len_t; auto; lia.
  - intros k Hk. rewrite far_app_l; unfold len_t; try lia. apply Hq. lia.
Qed.

Lemma scans_app_l i l i' : scans t x y delta i l i' -> 0 <= i ->
  forall l' i'',
    scans t' x' y' delta i l' i'' ->
    i'' = len_t t' - 1 \/ (i'' < len_t t' - 1 /\ tail_quiet t' x' y' delta i'') ->
    exists l2, l' = l ++ l2.
Proof using Hx Hy.
  induction 1 as [i|i j l i' Hp Hs IH]; intros Hi l' i'' Hs' Hend.
  - now exists l'.
  - apply (scan_pair_app_l i j Hi) in Hp. destruct Hp as (Hij & Hfar & Hq).
    inversion Hs' as [|? j' l'' ? Hp' Hs'']; subst.
    + destruct Hend as [->|[_ Hquiet]]; [lia|].
      rewrite Hquiet in Hfar by lia. discriminate.
    + destruct Hp' as (Hij' & Hfar' & Hq').
      assert (j' = j).
      { destruct (Z.lt_trichotomy j' j) as [Hlt|[Heq|Hgt]]; [|assumption|].
        - rewrite Hq in Hfar' by lia. discriminate.
        - rewrite Hq' in Hfar by lia. discriminate. }
      subst j'. destruct (IH ltac:(lia) l'' i'' Hs'' Hend) as (l2 & ->).
      now exists l2.
Qed.

End Extension.

(** X5: the scan is online: the indices it retains do not depend on the samples
    that follow. When samples are appended to a trajectory, every index of
    the first result except its last one (the end point, which may have been
    appended unconditionally) is at the same position in the new result. *)
Theorem compress_trajectory_extension {L : Numpy}
    (t x y t2 x2 y2 : list float) (delta : float) :
  (1 <= length t)%nat -> length x = length t -> length y = length t ->
  length x2 = length t2 -> length y2 = length t2 ->
  exists indices indices',
    compress_trajectory t x y delta = Ok indices /\
    compress_trajectory (t ++ t2) (x ++ x2) (y ++ y2) delta = Ok indices' /\
    forall p k, (S p < length indices)%nat ->
      nth_error indices p = Some k -> nth_error indices' p = Some k.
Proof.
  intros HN Hx Hy Hx2 Hy2.
  destruct (compress_trajectory_spec t x y delta HN ltac:(lia) ltac:(lia))
    as (l & i' & Hc & Hs & Hend).
  destruct (compress_trajectory_spec (t ++ t2) (x ++ x2) (y ++ y2) delta)
    as (l' & i'' & Hc' & Hs' & Hend'); try (rewrite !length_app; lia).
  exists (finish t l i'), (finish (t ++ t2) l' i''). repeat split; auto.
  destruct (scans_app_l t x y t2 x2 y2 delta Hx Hy 0 l i' Hs ltac:(lia) l' i'' Hs' Hend')
    as (l2 & ->).
  intros p k Hp Hk. unfold finish in *.
  assert (Hpl : (p < S (length l))%nat).
  { cbn [length] in *. rewrite length_app in Hp.
    destruct (i' =? len_t t - 1); simpl in Hp; lia. }
  rewrite app_comm_cons in Hk. rewrite nth_error_app1 in Hk by exact Hpl.
  rewrite <- app_assoc, app_comm_cons.
  now rewrite nth_error_app1 by exact Hpl.
Qed.

Lemma compress_trajectory_extension_witness :
  exists indices indices',
    compress_trajectory (L := products)
      [0; 1; 2]%float [1; 1.5; 4]%float [0; 0; 0]%float 1%float
      = Ok indices /\
    compress_trajectory (L := products)
      ([0; 1; 2] ++ [3; 4])%float ([1; 1.5; 4] ++ [4.5; 6])%float
      ([0; 0; 0] ++ [0; 0])%float 1%float = Ok indices' /\
    forall p k, (S p < length indices)%nat ->
      nth_error indices p = Some k -> nth_error indices' p = Some k.
Proof.
  apply (compress_trajectory_extension [0; 1; 2]%float [1; 1.5; 4]%float
           [0; 0; 0]%float [3; 4]%float [4.5; 6]%float [0; 0]%float 1%float);
    simpl; lia.
Defined.

(** ** The size of the grids *)

Lemma length_flat_map_const {A B} (f : A -> list B) (l : list A) (n : nat) :
  (forall a, length (f a) = n) -> length (flat_map f l) = (length l * n)%nat.
Proof.
  intros H. induction l as [|a l IH]; [reflexivity|].
  cbn [flat_map length]. rewrite length_app, H, IH. lia.
Qed.

Lemma length_grid_96 (G : globals) :
  length (grid_96 G) =
  (length (initial_conditions G) * (length (gamma_1_list G) *
     (length (gamma_2_list G) * (length (all_methods G) *
        length (alpha_list G)))))%nat.
Proof.
  unfold grid_96.
  apply length_flat_map_const. intros [x0 y0].
  apply length_flat_map_const. intros gamma1.
  apply length_flat_map_const. intros gamma2.
  apply length_flat_map_const. intros m.
  apply length_map.
Qed.

Lemma length_grid_98 (G : globals) :
  length (grid_98 G) =
  (length (initial_conditions G) * (length (gamma_1_list G) *
     (length (gamma_2_list G) * length (alpha_list G))))%nat.
Proof.
  unfold grid_98.
  apply length_flat_map_const. intros [x0 y0].
  apply length_flat_map_const. intros gamma1.
  apply length_flat_map_const. intros gamma2.
  apply length_map.
Qed.

Lemma length_grid_93 (G : globals) :
  length (grid_93 G) =
  (length (alpha_list G) * (length (gamma_1_list G) *
     (length (gamma_2_list G) * (length (all_methods G) *
        length (initial_conditions G)))))%nat.
Proof.
  unfold grid_93.
  apply length_flat_map_const. intros alpha.
  apply length_flat_map_const. intros gamma1.
  apply length_flat_map_const. intros gamma2.
  apply length_flat_map_const. intros m.
  apply length_map.
Qed.

(** A loop whose body adds at most one to a size adds at most the number of
    its iterations. *)
Lemma for_each_bounded {S A} (body : A -> prog S unit) (size : S -> Z) :
  (forall a s, exists s', body a s = (Ok tt, s') /\
                          (size s <= size s' <= size s + 1)) ->
  forall l s, exists s', for_each l body s = (Ok tt, s') /\
                         (size s <= size s' <= size s + Z.of_nat (length l)).
Proof.
  intros Hstep. induction l as [|a l IH]; intros s.
  - exists s. split; [reflexivity|]. simpl. lia.
  - cbn [for_each]. unfold pbind. destruct (Hstep a s) as (s1 & -> & H1).
    destruct (IH s1) as (s' & Hs' & H2). exists s'. split; [exact Hs'|].
    cbn [length]. lia.
Qed.

(** ** What the sweep of 98_DOP853.ipynb counts *)

Lemma compress_trajectory_Ok_length {L : Numpy}
    (t x y : list float) (delta : float) idx :
  (1 <= length t)%nat -> compress_trajectory t x y delta = Ok idx ->
  (1 <= length idx <= length t)%nat.
Proof.
  intros HN Hc.
  destruct (le_lt_dec (length t) 1) as [H1|H2].
  - destruct t as [|a [|c t']]; simpl in *; try lia.
    injection Hc as <-. simpl. lia.
  - destruct (le_lt_dec (length t) (length x)) as [Hx|Hx];
      [destruct (le_lt_dec (length t) (length y)) as [Hy|Hy]|].
    + destruct (compress_trajectory_spec t x y delta HN Hx Hy)
        as (l & i' & Hc' & Hs & Hend).
      rewrite Hc in Hc'. injection Hc' as ->.
      pose proof (compress_trajectory_range t x y delta _ HN Hc) as Hr.
      destruct (scans_bounds t x y delta _ _ _ Hs) as (_ & Hlt & _).
      assert (Hi' : i' <= len_t t - 1) by (unfold len_t in *; lia).
      pose proof (finish_increasing t x y delta l i' Hs Hi') as Hinc.
      pose proof (strictly_increasing_length _ 0 (Z.of_nat (length t)) Hinc Hr).
      unfold finish in *. cbn [length] in *. lia.
    + unfold compress_trajectory, compress_trajectory_fuel in Hc.
      rewrite outer_while_short in Hc; [discriminate| | | |]; unfold len_t; lia.
    + unfold compress_trajectory, compress_trajectory_fuel in Hc.
      rewrite outer_while_short in Hc; [discriminate| | | |]; unfold len_t; lia.
Qed.

Lemma take_empty {A} (idx : list Z) (vs : list A) :
  take [] idx = Ok vs -> idx = [].
Proof.
  destruct idx as [|k idx]; [reflexivity|]. simpl.
  destruct (getitem_cases (@nil A) k) as [[v Hv]| ->]; [|discriminate].
  apply getitem_Ok_range in Hv. simpl in Hv. lia.
Qed.

Lemma compress_trajectory_nonempty {L : Numpy}
    (t x y : list float) (delta : float) idx :
  compress_trajectory t x y delta = Ok idx -> idx <> [].
Proof.
  unfold compress_trajectory, compress_trajectory_fuel. intros H.
  destruct (outer_while t x y delta _ _ [0] 0) as [res| |] eqn:Ho;
    cbn [bind] in H; try discriminate.
  destruct (outer_while_bounds t x y delta _ _ _ _ _ Ho) as (l & -> & _).
  destruct (getitem _ (-1)); cbn [bind] in H; try discriminate.
  destruct (negb _); injection H as <-; discriminate.
Qed.

Lemma stored_points_app rs rs' :
  stored_points (rs ++ rs') = stored_points rs + stored_points rs'.
Proof. induction rs as [|r rs IH]; simpl; [reflexivity|]. rewrite IH. lia. Qed.

(** One grid point either leaves the collection and the counters as they
    were, or appends one well-shaped record and counts it. *)
Lemma body_98_counts (G : globals) (x0 y0 gamma1 gamma2 alpha : float)
    (s : sweep_state) :
  exists s' new,
    body_98 G x0 y0 gamma1 gamma2 alpha s = (Ok tt, s') /\
    records s' = records s ++ new /\
    solution_count s' = solution_count s + Z.of_nat (length new) /\
    kept_total s' = kept_total s + stored_points new /\
    skipped_total s <= skipped_total s' /\
    (new = [] -> skipped_total s' = skipped_total s) /\
    Forall (single_solution (method G)) new.
Proof.
  unfold body_98, try_except, call_solver, pbind, eval.
  destruct (solve_ivp G alpha gamma1 gamma2 x0 y0 (method G)) as [sol|msg].
  2:{ eexists; exists []. split; [reflexivity|]. simpl. rewrite app_nil_r.
      repeat split; try lia. constructor. }
  destruct (sol_success sol) eqn:Hs.
  2:{ eexists; exists []. split; [reflexivity|]. simpl. rewrite app_nil_r.
      repeat split; try lia. constructor. }
  pose proof (compressed_not_fuel G sol) as Hc. unfold compressed in *.
  destruct (compress_trajectory _ _ _ _) as [idx|e|] eqn:Hidx; cbn [bind] in *;
    [|eexists; exists []; split; [reflexivity|]; simpl; rewrite app_nil_r;
      repeat split; try lia; constructor
     |congruence].
  destruct (take (sol_x sol) idx) as [xf|e|] eqn:Hxf; cbn [bind] in *;
    [|eexists; exists []; split; [reflexivity|]; simpl; rewrite app_nil_r;
      repeat split; try lia; constructor
     |congruence].
  destruct (take (sol_y sol) idx) as [yf|e|] eqn:Hyf; cbn [bind] in *;
    [|eexists; exists []; split; [reflexivity|]; simpl; rewrite app_nil_r;
      repeat split; try lia; constructor
     |congruence].
  destruct (take (sol_t sol) idx) as [tf|e|] eqn:Htf; cbn [bind] in *;
    [|eexists; exists []; split; [reflexivity|]; simpl; rewrite app_nil_r;
      repeat split; try lia; constructor
     |congruence].
  destruct (take_Ok_nth _ _ _ Hxf) as [Lx _].
  destruct (take_Ok_nth _ _ _ Hyf) as [Ly _].
  destruct (take_Ok_nth _ _ _ Htf) as [Lt _].
  assert (Hne : idx <> []) by exact (compress_trajectory_nonempty _ _ _ _ _ Hidx).
  assert (HN : (1 <= length (sol_t sol))%nat).
  { destruct (sol_t sol) as [|a t'] eqn:Et; [|simpl; lia].
    apply take_empty in Htf. contradiction. }
  pose proof (compress_trajectory_Ok_length _ _ _ _ _ HN Hidx) as Hlen.
  unfold modify, get, print, ret. cbn [solution_count set_solution_count
    set_records set_skipped_total set_kept_total].
  destruct ((solution_count s + 1) mod 1000 =? 0);
    (eexists;
     exists [new_record (x0, y0, gamma1, gamma2, alpha) tf (method G) (xf, yf)];
     split; [reflexivity|]; simpl; repeat split; try lia; try discriminate;
     constructor; [|constructor]; exists xf, yf; simpl; repeat split; lia).
Qed.

Lemma for_each_accumulate {S A} (body : A -> prog S unit) (R : S -> S -> Prop) :
  (forall s, R s s) -> (forall s1 s2 s3, R s1 s2 -> R s2 s3 -> R s1 s3) ->
  (forall a s, exists s', body a s = (Ok tt, s') /\ R s s') ->
  forall l s, exists s', for_each l body s = (Ok tt, s') /\ R s s'.
Proof.
  intros Hrefl Htrans Hstep. induction l as [|a l IH]; intros s; simpl.
  - exists s. split; [reflexivity|apply Hrefl].
  - unfold pbind. destruct (Hstep a s) as (s1 & -> & H1).
    destruct (IH s1) as (s' & Hs' & H2). exists s'. split; [exact Hs'|].
    eapply Htrans; eassumption.
Qed.


Lemma grows_98_refl m s : grows_98 m s s.
Proof.
  exists []. rewrite app_nil_r. simpl. repeat split; try lia. constructor.
Qed.

Lemma grows_98_trans m s1 s2 s3 :
  grows_98 m s1 s2 -> grows_98 m s2 s3 -> grows_98 m s1 s3.
Proof.
  intros (n1 & R1 & C1 & K1 & S1 & Z1 & F1) (n2 & R2 & C2 & K2 & S2 & Z2 & F2).
  exists (n1 ++ n2). rewrite R2, R1, app_assoc, length_app, stored_points_app.
  repeat split; try lia.
  - intros E. apply app_eq_nil in E as [E1 E2].
    rewrite (Z2 E2). exact (Z1 E1).
  - apply Forall_app. split; assumption.
Qed.

(** X6: the sweep of 98_DOP853.ipynb only appends to [records]; each record it
    appends has a single solution, under the notebook's method, with [x],
    [y] and [t] arrays of one length that is at least 1; [solution_count]
    grows by the number of records appended and [kept_total] by the number
    of time samples they hold; [skipped_total] never decreases, and stays as
    it was when nothing is appended; at most one record is appended for each
    grid point. *)
Theorem sweep_98_accounting (G : globals) (s : sweep_state) :
  exists s' new,
    sweep_98 G s = (Ok tt, s') /\
    records s' = records s ++ new /\
    solution_count s' = solution_count s + Z.of_nat (length new) /\
    kept_total s' = kept_total s + stored_points new /\
    skipped_total s <= skipped_total s' /\
    (new = [] -> skipped_total s' = skipped_total s) /\
    Forall (single_solution (method G)) new /\
    (length new <= length (initial_conditions G) * (length (gamma_1_list G) *
       (length (gamma_2_list G) * length (alpha_list G))))%nat.
Proof.
  rewrite sweep_98_grid.
  destruct (for_each_accumulate (step_98 G) (grows_98 (method G))
              (grows_98_refl _) (grows_98_trans _)) with (l := grid_98 G) (s := s)
    as (s' & Hs' & new & Hrec & Hcount & Hkept & Hskip & Hsame & Hshape).
  { intros [[[[x0 y0] gamma1] gamma2] alpha] s0.
    destruct (body_98_counts G x0 y0 gamma1 gamma2 alpha s0) as (s1 & n & Hb & H).
    exists s1. split; [exact Hb|]. exists n. exact H. }
  destruct (for_each_bounded (step_98 G) (fun s => Z.of_nat (length (records s))))
    with (l := grid_98 G) (s := s) as (s2 & Hs2 & Hbound).
  { intros [[[[x0 y0] gamma1] gamma2] alpha] s0.
    destruct (body_98_run G x0 y0 gamma1 gamma2 alpha s0) as (s1 & Hb & Hn & _).
    exists s1. split; [exact Hb|]. rewrite Hn. unfold next_records_98.
    destruct (solve_ivp G alpha gamma1 gamma2 x0 y0 (method G)) as [sol|msg]; [|lia].
    destruct (sol_success sol); [|lia].
    destruct (compressed G sol) as [[[tf xf] yf]| |]; try lia.
    rewrite length_app. cbn [length]. lia. }
  rewrite Hs' in Hs2. injection Hs2 as <-.
  rewrite Hrec, length_app, length_grid_98 in Hbound.
  exists s', new. repeat split; auto. lia.
Qed.

(** ** Which successful integrations are stored *)

Lemma take_cases {A} (a : list A) (idx : list Z) :
  (exists vs, take a idx = Ok vs) \/ take a idx = Raise IndexError.
Proof.
  induction idx as [|k idx IH]; simpl; [left; eauto|].
  destruct (getitem_cases a k) as [[v ->]| ->]; cbn [bind]; [|now right].
  destruct IH as [[vs ->]| ->]; cbn [bind]; [left; eauto|now right].
Qed.

Lemma take_out_of_range {A} (a : list A) (idx : list Z) (k : Z) :
  In k idx -> Z.of_nat (length a) <= k -> take a idx = Raise IndexError.
Proof.
  intros Hin Hk. destruct (take_cases a idx) as [[vs Hvs]|H]; [|exact H].
  destruct (In_nth_error _ _ Hin) as (p & Hp).
  destruct (take_Ok_nth a idx vs Hvs) as [_ Hn].
  destruct (Hn p k Hp) as (v & _ & Hg).
  apply getitem_Ok_range in Hg. lia.
Qed.

(** The arrays of a returned solution can be compressed and re-indexed
    exactly when [t] is not empty and [x] and [y] are at least as long as
    [t]; in every other case the step fails with IndexError. *)
Lemma compressed_shapes (G : globals) (sol : ode_result) :
  if ((1 <=? length (sol_t sol)) && (length (sol_t sol) <=? length (sol_x sol)) &&
      (length (sol_t sol) <=? length (sol_y sol)))%nat
  then exists stored, compressed G sol = Ok stored
  else compressed G sol = Raise IndexError.
Proof.
  unfold compressed.
  destruct (Nat.leb_spec 1 (length (sol_t sol))) as [HN|HN]; cbn [andb].
  - destruct (Nat.leb_spec (length (sol_t sol)) (length (sol_x sol))) as [Hx|Hx];
      cbn [andb];
      [destruct (Nat.leb_spec (length (sol_t sol)) (length (sol_y sol))) as [Hy|Hy]|].
    + destruct (compress_trajectory_spec (L := np G) _ _ _ (delta G) HN Hx Hy)
        as (l & i' & Hc & _).
      pose proof (compress_trajectory_range _ _ _ _ _ HN Hc) as Hr.
      rewrite Hc. cbn [bind].
      destruct (take_in_range (sol_x sol) (finish (sol_t sol) l i')) as (xf & -> & _).
      { eapply Forall_impl; [|exact Hr]. simpl. intros; lia. }
      destruct (take_in_range (sol_y sol) (finish (sol_t sol) l i')) as (yf & -> & _).
      { eapply Forall_impl; [|exact Hr]. simpl. intros; lia. }
      destruct (take_in_range (sol_t sol) (finish (sol_t sol) l i')) as (tf & -> & _).
      { exact Hr. }
      cbn [bind]. eauto.
    + destruct (le_lt_dec (length (sol_t sol)) 1) as [H1|H2].
      * destruct (sol_t sol) as [|a [|c t']] eqn:Et; cbn [length] in *; try lia.
        change (compress_trajectory [a] (sol_x sol) (sol_y sol) (delta G))
          with (@Ok (list Z) [0]). cbn [bind].
        destruct (take_cases (sol_x sol) [0]) as [[xf ->]| ->]; [|reflexivity].
        cbn [bind].
        rewrite (take_out_of_range (sol_y sol) [0] 0); [reflexivity|now left|lia].
      * unfold compress_trajectory, compress_trajectory_fuel.
        rewrite outer_while_short; [reflexivity| | | |]; unfold len_t; lia.
    + destruct (le_lt_dec (length (sol_t sol)) 1) as [H1|H2].
      * destruct (sol_t sol) as [|a [|c t']] eqn:Et; cbn [length] in *; try lia.
        change (compress_trajectory [a] (sol_x sol) (sol_y sol) (delta G))
          with (@Ok (list Z) [0]). cbn [bind].
        rewrite (take_out_of_range (sol_x sol) [0] 0); [reflexivity|now left|lia].
      * unfold compress_trajectory, compress_trajectory_fuel.
        rewrite outer_while_short; [reflexivity| | | |]; unfold len_t; lia.
  - destruct (sol_t sol) as [|a t'] eqn:Et; [|simpl in HN; lia].
    change (compress_trajectory [] (sol_x sol) (sol_y sol) (delta G))
      with (@Ok (list Z) [0; -1]). cbn [bind].
    destruct (take_cases (sol_x sol) [0; -1]) as [[xf ->]| ->]; [|reflexivity].
    cbn [bind].
    destruct (take_cases (sol_y sol) [0; -1]) as [[yf ->]| ->]; [|reflexivity].
    reflexivity.
Qed.

Lemma body_98_compressed (G : globals) (x0 y0 gamma1 gamma2 alpha : float)
    (s : sweep_state) (sol : ode_result) :
  solve_ivp G alpha gamma1 gamma2 x0 y0 (method G) = Solved sol ->
  sol_success sol = true ->
  exists s',
    body_98 G x0 y0 gamma1 gamma2 alpha s = (Ok tt, s') /\
    match compressed G sol with
    | Ok (t_filt, x_filt, y_filt) =>
        records s' = records s ++
          [new_record (x0, y0, gamma1, gamma2, alpha) t_filt (method G)
             (x_filt, y_filt)]
    | Raise e =>
        records s' = records s /\ solution_count s' = solution_count s /\
        stdout s' = stdout s ++ [ErrorLine (method G) alpha gamma1 gamma2 x0 e]
    | OutOfFuel => False
    end.
Proof.
  intros Hsol Hok.
  unfold body_98, try_except, call_solver, pbind, eval. rewrite Hsol, Hok.
  pose proof (compressed_not_fuel G sol) as Hc. unfold compressed in *.
  destruct (compress_trajectory _ _ _ _) as [idx|e|]; cbn [bind] in *;
    [|eexists; split; [reflexivity|]; simpl; repeat split|congruence].
  destruct (take (sol_x sol) idx) as [xf|e|]; cbn [bind] in *;
    [|eexists; split; [reflexivity|]; simpl; repeat split|congruence].
  destruct (take (sol_y sol) idx) as [yf|e|]; cbn [bind] in *;
    [|eexists; split; [reflexivity|]; simpl; repeat split|congruence].
  destruct (take (sol_t sol) idx) as [tf|e|]; cbn [bind] in *;
    [|eexists; split; [reflexivity|]; simpl; repeat split|congruence].
  unfold modify, get, print, ret. cbn [solution_count set_solution_count
    set_records set_skipped_total set_kept_total].
  destruct ((solution_count s + 1) mod 1000 =? 0);
    (eexists; split; reflexivity).
Qed.

(** X7: a successful integration is stored exactly when its [t] array is not
    empty and its [x] and [y] arrays are at least as long as [t]. Any other
    shape stores nothing: the compression or the re-indexing raises
    IndexError, which the sweep prints. *)
Theorem sweep_98_stores_well_shaped (G : globals)
    (x0 y0 gamma1 gamma2 alpha : float) (s : sweep_state) (sol : ode_result) :
  solve_ivp G alpha gamma1 gamma2 x0 y0 (method G) = Solved sol ->
  sol_success sol = true ->
  exists s',
    body_98 G x0 y0 gamma1 gamma2 alpha s = (Ok tt, s') /\
    if ((1 <=? length (sol_t sol)) && (length (sol_t sol) <=? length (sol_x sol)) &&
        (length (sol_t sol) <=? length (sol_y sol)))%nat
    then exists t_filt x_filt y_filt,
           records s' = records s ++
             [new_record (x0, y0, gamma1, gamma2, alpha) t_filt (method G)
                (x_filt, y_filt)]
    else records s' = records s /\ solution_count s' = solution_count s /\
         stdout s' = stdout s ++
           [ErrorLine (method G) alpha gamma1 gamma2 x0 IndexError].
Proof.
  intros Hsol Hok.
  destruct (body_98_compressed G x0 y0 gamma1 gamma2 alpha s sol Hsol Hok)
    as (s' & Hb & Hm).
  exists s'. split; [exact Hb|].
  pose proof (compressed_shapes G sol) as Hsh.
  destruct ((1 <=? length (sol_t sol)) && (length (sol_t sol) <=? length (sol_x sol)) &&
            (length (sol_t sol) <=? length (sol_y sol)))%nat.
  - destruct Hsh as ([[tf xf] yf] & Hst). rewrite Hst in Hm. eauto.
  - rewrite Hsh in Hm. exact Hm.
Qed.

Lemma sweep_98_stores_well_shaped_witness :
  exists s',
    body_98 two_method_sweep 1 1 0 0.5 0x1p-10 initial_state = (Ok tt, s') /\
    exists t_filt x_filt y_filt,
      records s' = records initial_state ++
        [new_record (1, 1, 0, 0.5, 0x1p-10)%float t_filt (method two_method_sweep)
           (x_filt, y_filt)].
Proof.
  exact (sweep_98_stores_well_shaped two_method_sweep 1 1 0 0.5 0x1p-10 initial_state
           {| sol_t := [0; 0.5; 1]%float; sol_x := [1; 1.5; 2]%float;
              sol_y := [1; 0.75; 0.5]%float; sol_success := true |}
           eq_refl eq_refl).
Defined.

(** ** What the sweep of 97_filtering_t_x_y_Euclidean_values.ipynb counts *)

Lemma stored_points_merge rs k m t v :
  stored_points (merge_record rs k m t v) =
  stored_points rs +
  if existsb (fun r => key_eqb (key_of r) k) rs then 0 else Z.of_nat (length t).
Proof.
  induction rs as [|r rs IH]; simpl.
  - destruct k as [[[[a b] c] d] e]. simpl. lia.
  - destruct (key_eqb (key_of r) k) eqn:E; simpl; [lia|]. rewrite IH. lia.
Qed.

Lemma length_merge rs k m t v :
  length (merge_record rs k m t v) =
  (length rs + if existsb (fun r => key_eqb (key_of r) k) rs then 0 else 1)%nat.
Proof.
  induction rs as [|r rs IH]; simpl; [reflexivity|].
  destruct (key_eqb (key_of r) k) eqn:E; simpl; [lia|]. rewrite IH. lia.
Qed.

Lemma grows_97_refl s : grows_97 s s.
Proof. unfold grows_97. lia. Qed.

Lemma grows_97_trans s1 s2 s3 : grows_97 s1 s2 -> grows_97 s2 s3 -> grows_97 s1 s3.
Proof. unfold grows_97. lia. Qed.

Lemma body_97_counts (G : globals) (x0 y0 gamma1 gamma2 alpha : float) (m : string)
    (s : sweep_state) :
  exists s', body_97 G x0 y0 gamma1 gamma2 alpha m s = (Ok tt, s') /\ grows_97 s s'.
Proof.
  unfold body_97, try_except, call_solver, pbind, eval.
  destruct (solve_ivp G alpha gamma1 gamma2 x0 y0 m) as [sol|msg].
  2:{ eexists. split; [reflexivity|]. unfold grows_97. simpl. lia. }
  destruct (sol_success sol) eqn:Hs.
  2:{ eexists. split; [reflexivity|]. unfold grows_97. simpl. lia. }
  pose proof (compressed_not_fuel G sol) as Hc. unfold compressed in *.
  destruct (compress_trajectory _ _ _ _) as [idx|e|] eqn:Hidx; cbn [bind] in *;
    [|eexists; split; [reflexivity|]; unfold grows_97; simpl; lia|congruence].
  destruct (take (sol_x sol) idx) as [xf|e|] eqn:Hxf; cbn [bind] in *;
    [|eexists; split; [reflexivity|]; unfold grows_97; simpl; lia|congruence].
  destruct (take (sol_y sol) idx) as [yf|e|] eqn:Hyf; cbn [bind] in *;
    [|eexists; split; [reflexivity|]; unfold grows_97; simpl; lia|congruence].
  destruct (take (sol_t sol) idx) as [tf|e|] eqn:Htf; cbn [bind] in *;
    [|eexists; split; [reflexivity|]; unfold grows_97; simpl; lia|congruence].
  destruct (take_Ok_nth _ _ _ Htf) as [Lt _].
  assert (Hne : idx <> []) by exact (compress_trajectory_nonempty _ _ _ _ _ Hidx).
  assert (HN : (1 <= length (sol_t sol))%nat).
  { destruct (sol_t sol) as [|a t'] eqn:Et; [|simpl; lia].
    apply take_empty in Htf. contradiction. }
  pose proof (compress_trajectory_Ok_length _ _ _ _ _ HN Hidx) as Hlen.
  unfold modify, get, print, ret. cbn [solution_count set_solution_count
    set_records set_skipped_total set_kept_total].
  pose proof (stored_points_merge (records s) (x0, y0, gamma1, gamma2, alpha) m tf
                (xf, yf)) as Hsp.
  pose proof (length_merge (records s) (x0, y0, gamma1, gamma2, alpha) m tf
                (xf, yf)) as Hlm.
  destruct ((solution_count s + 1) mod 1049 =? 0);
    (eexists; split; [reflexivity|]; unfold grows_97;
     cbn [records solution_count kept_total skipped_total stdout
          set_solution_count set_records set_skipped_total set_kept_total];
     destruct (existsb _ (records s)); lia).
Qed.

(** X8: in the sweep that merges methods, [solution_count] counts the merged
    runs and [kept_total] the points they kept, not what is stored: the
    number of records never goes down and grows by at most the growth of
    [solution_count]; the number of stored time samples grows by at most the
    growth of [kept_total]; [skipped_total] never decreases. *)
Theorem sweep_97_accounting (G : globals) (s : sweep_state) :
  exists s',
    sweep_97 G s = (Ok tt, s') /\
    (length (records s) <= length (records s'))%nat /\
    Z.of_nat (length (records s')) - Z.of_nat (length (records s))
      <= solution_count s' - solution_count s /\
    0 <= stored_points (records s') - stored_points (records s)
      <= kept_total s' - kept_total s /\
    skipped_total s <= skipped_total s'.
Proof.
  rewrite sweep_97_grid.
  destruct (for_each_accumulate (step_97 G) grows_97 grows_97_refl grows_97_trans)
    with (l := grid_97 G) (s := s) as (s' & Hs' & H).
  - intros [[[[[x0 y0] gamma1] gamma2] alpha] m] s0.
    apply body_97_counts.
  - exists s'. split; [exact Hs'|exact H].
Qed.

(** ** What the sweep of 95_save_for_streamlit_unique_x_y.ipynb counts *)

Ltac cbnp :=
  cbn [entries saved_signatures total_attempts skipped_due_to_similarity printed
       count_attempt count_skip save_signature save_entry length map app signature
       entry_x entry_y fst snd].

Lemma body_95_counts (G : globals) (x0 y0 gamma1 gamma2 : float) (m : string)
    (alpha : float) (s : filter_state) :
  exists s',
    body_95 G x0 y0 gamma1 gamma2 m alpha s = (Ok tt, s') /\
    total_attempts s' = total_attempts s + 1 /\
    grows_95 s s' /\
    (saved_signatures s' = saved_signatures s \/
     exists x y, saved_signatures s' = saved_signatures s ++ [(x, y)] /\
                 check_unique (L := np G) (epsilon G) x y (saved_signatures s) = Ok true).
Proof.
  unfold body_95, try_except, call_solver, pbind, eval, modify, get, ret, print_line,
    grows_95.
  cbn [saved_signatures count_attempt entries].
  destruct (solve_ivp G alpha gamma1 gamma2 x0 y0 m) as [sol|msg].
  2:{ eexists. split; [reflexivity|]. cbnp. split; [reflexivity|].
      split; [|now left]. exists []. rewrite !app_nil_r. cbnp. repeat split; lia. }
  destruct (sol_success sol) eqn:Hs; cbn [negb].
  2:{ eexists. split; [reflexivity|]. cbnp. split; [reflexivity|].
      split; [|now left]. exists []. rewrite !app_nil_r. cbnp. repeat split; lia. }
  pose proof (check_unique_not_fuel (L := np G) (epsilon G) (sol_x sol) (sol_y sol)
                (saved_signatures s)) as Hc.
  destruct (check_unique _ _ _ _) as [[]|e|] eqn:Hu; cbn [negb]; try congruence.
  - eexists. split; [reflexivity|]. cbnp. split; [reflexivity|]. split.
    + eexists [_]. cbnp. repeat split; lia.
    + right. exists (sol_x sol), (sol_y sol). split; [reflexivity|exact Hu].
  - eexists. split; [reflexivity|]. cbnp. split; [reflexivity|].
    split; [|now left]. exists []. rewrite !app_nil_r. cbnp. repeat split; lia.
  - eexists. split; [reflexivity|]. cbnp. split; [reflexivity|].
    split; [|now left]. exists []. rewrite !app_nil_r. cbnp. repeat split; lia.
Qed.

Lemma grows_95_refl s : grows_95 s s.
Proof. exists []. rewrite !app_nil_r. cbn [length map]. repeat split; lia. Qed.

Lemma grows_95_trans s1 s2 s3 : grows_95 s1 s2 -> grows_95 s2 s3 -> grows_95 s1 s3.
Proof.
  intros (n1 & E1 & S1 & K1 & T1) (n2 & E2 & S2 & K2 & T2).
  exists (n1 ++ n2). rewrite E2, E1, S2, S1, map_app, !app_assoc, length_app.
  repeat split; lia.
Qed.

Lemma check_unique_true {L : Numpy} eps (x y : list float) sigs :
  check_unique eps x y sigs = Ok true ->
  forall sx sy, In (sx, sy) sigs -> too_close eps x y sx sy = Ok false.
Proof.
  induction sigs as [|[sx0 sy0] sigs IH]; intros H sx sy Hin; [destruct Hin|].
  simpl in H. destruct (too_close eps x y sx0 sy0) as [[]| |] eqn:Hc;
    cbn [bind] in H; try discriminate.
  destruct Hin as [[= <- <-]|Hin]; [exact Hc|]. now apply IH.
Qed.

Lemma apart_snoc {L : Numpy} eps sigs x y :
  apart eps sigs -> check_unique eps x y sigs = Ok true -> apart eps (sigs ++ [(x, y)]).
Proof.
  intros Ha Hu i j sa sb Hij Hi Hj.
  destruct (Nat.lt_ge_cases j (length sigs)) as [Hlt|Hge].
  - rewrite nth_error_app1 in Hi, Hj by lia. exact (Ha i j sa sb Hij Hi Hj).
  - rewrite nth_error_app2 in Hj by lia.
    destruct (j - length sigs)%nat as [|q] eqn:Eq; simpl in Hj;
      [|destruct q; discriminate].
    injection Hj as <-. rewrite nth_error_app1 in Hi by lia.
    destruct sa as [sx sy]. apply (check_unique_true eps x y sigs Hu).
    eapply nth_error_In; eassumption.
Qed.

Lemma length_grid_fold {A} (l : list A) (n : Z) :
  fold_left (fun r _ => r + 1) l n = n + Z.of_nat (length l).
Proof.
  revert n. induction l as [|a l IH]; intros n; simpl fold_left; [simpl; lia|].
  rewrite IH. cbn [length]. lia.
Qed.

(** X9: every grid point is counted as an attempt, whether the integration
    raises, fails, is skipped or is stored, so [total_attempts] grows by the
    product of the lengths of the five lists; the sweep only appends to
    [entries] and [saved_signatures], in step, and the stored entries and the
    skips together never exceed the attempts. *)
Theorem sweep_95_accounting (G : globals) (s : filter_state) :
  let attempts :=
    (length (initial_conditions G) * (length (gamma_1_list G) *
       (length (gamma_2_list G) * (length (all_methods G) *
          length (alpha_list G)))))%nat in
  exists s' new,
    sweep_95 G s = (Ok tt, s') /\
    total_attempts s' = total_attempts s + Z.of_nat attempts /\
    entries s' = entries s ++ new /\
    saved_signatures s' = saved_signatures s ++ map signature new /\
    skipped_due_to_similarity s <= skipped_due_to_similarity s' /\
    Z.of_nat (length new) +
      (skipped_due_to_similarity s' - skipped_due_to_similarity s)
    <= Z.of_nat attempts.
Proof.
  intros attempts. subst attempts. rewrite <- length_grid_96, sweep_95_grid.
  destruct (for_each_fold total_attempts (fun _ n => n + 1) (step_95 G) (grid_96 G))
    with (s := s) as (s1 & H1 & T1).
  { intros [[[[[x0 y0] gamma1] gamma2] alpha] m] s0.
    destruct (body_95_counts G x0 y0 gamma1 gamma2 m alpha s0) as (s' & Hb & Ht & _).
    exists s'. split; assumption. }
  destruct (for_each_accumulate (step_95 G) grows_95 grows_95_refl grows_95_trans)
    with (l := grid_96 G) (s := s)
    as (s2 & H2 & new & Hent & Hsig & Hskip & Hcover).
  { intros [[[[[x0 y0] gamma1] gamma2] alpha] m] s0.
    destruct (body_95_counts G x0 y0 gamma1 gamma2 m alpha s0) as (s' & Hb & _ & Hg & _).
    exists s'. split; assumption. }
  rewrite H1 in H2. injection H2 as <-.
  rewrite length_grid_fold in T1.
  exists s1, new. repeat split; auto; lia.
Qed.

(** X10: of the signatures saved by the sweep no later one passes the filter's
    test against an earlier one: for each such pair the test
    [norm(x - sx) < epsilon and norm(y - sy) < epsilon] is evaluated without
    raising and is false, that is, the first norm is not below [epsilon], or
    it is and the second one is not. The norms are the ones the library of
    the sweep computes. *)
Theorem sweep_95_signatures_apart (G : globals) (s : filter_state) :
  apart (L := np G) (epsilon G) (saved_signatures s) ->
  exists s', sweep_95 G s = (Ok tt, s') /\
             apart (L := np G) (epsilon G) (saved_signatures s').
Proof.
  intros Hs. rewrite sweep_95_grid.
  destruct (for_each_accumulate (step_95 G)
              (fun s s' => apart (L := np G) (epsilon G) (saved_signatures s) ->
                           apart (L := np G) (epsilon G) (saved_signatures s')))
    with (l := grid_96 G) (s := s) as (s' & H & Hs'); auto.
  - intros [[[[[x0 y0] gamma1] gamma2] alpha] m] s0.
    destruct (body_95_counts G x0 y0 gamma1 gamma2 m alpha s0)
      as (s' & Hb & _ & _ & [Hsame|(x & y & Hadd & Hu)]).
    + exists s'. split; [exact Hb|]. now rewrite Hsame.
    + exists s'. split; [exact Hb|]. rewrite Hadd. intros Ha.
      now apply apart_snoc.
  - eauto.
Qed.

Lemma sweep_95_signatures_apart_witness :
  exists s', sweep_95 two_method_sweep initial_filter_state = (Ok tt, s') /\
             apart (L := np two_method_sweep) (epsilon two_method_sweep) (saved_signatures s').
Proof.
  apply (sweep_95_signatures_apart two_method_sweep initial_filter_state).
  intros [|i] j sa sb _ Hi; discriminate.
Defined.

(** ** Candidates of another shape *)

Lemma np_sub_shape_error (a c : list float) :
  length a <> length c -> length a <> 1%nat -> length c <> 1%nat ->
  np_sub a c = Raise ValueError.
Proof.
  intros Hne Ha Hc. unfold np_sub.
  destruct (Nat.eqb_spec (length a) (length c)); [contradiction|].
  destruct a as [|u [|u' a]]; destruct c as [|v [|v' c]]; simpl in *;
    try reflexivity; congruence.
Qed.

Lemma check_unique_shape_error {L : Numpy} eps (x y : list float) pre sx sy post :
  (forall px py, In (px, py) pre -> too_close eps x y px py = Ok false) ->
  length x <> length sx -> length x <> 1%nat -> length sx <> 1%nat ->
  check_unique eps x y (pre ++ (sx, sy) :: post) = Raise ValueError.
Proof.
  intros Hpre Hne Hx Hsx. induction pre as [|[px py] pre IH]; simpl.
  - unfold too_close. rewrite np_sub_shape_error by assumption. reflexivity.
  - rewrite (Hpre px py (or_introl eq_refl)). cbn [bind]. apply IH.
    intros qx qy Hin. apply Hpre. now right.
Qed.

(** X11: a successful run whose [x] array has another length than a saved
    signature (neither of them of length 1, which NumPy would broadcast),
    and is not close to the signatures saved before that one, is neither
    stored nor counted as skipped: the subtraction raises ValueError, the
    [except] clause prints it, and the attempt stays counted. *)
Theorem uniqueness_filter_shape_error (G : globals)
    (x0 y0 gamma1 gamma2 : float) (m : string) (alpha : float)
    (s : filter_state) (sol : ode_result) pre sx sy post :
  solve_ivp G alpha gamma1 gamma2 x0 y0 m = Solved sol ->
  sol_success sol = true ->
  saved_signatures s = pre ++ (sx, sy) :: post ->
  (forall px py, In (px, py) pre ->
     too_close (L := np G) (epsilon G) (sol_x sol) (sol_y sol) px py = Ok false) ->
  length (sol_x sol) <> length sx ->
  length (sol_x sol) <> 1%nat -> length sx <> 1%nat ->
  exists s',
    body_95 G x0 y0 gamma1 gamma2 m alpha s = (Ok tt, s') /\
    entries s' = entries s /\
    saved_signatures s' = saved_signatures s /\
    skipped_due_to_similarity s' = skipped_due_to_similarity s /\
    total_attempts s' = total_attempts s + 1 /\
    printed s' = printed s ++ [ErrorLine m alpha gamma1 gamma2 x0 ValueError].
Proof.
  intros Hsol Hok Hsig Hpre Hne Hx Hsx.
  pose proof (check_unique_shape_error (L := np G) (epsilon G) (sol_x sol) (sol_y sol)
                pre sx sy post Hpre Hne Hx Hsx) as Hu.
  rewrite <- Hsig in Hu.
  unfold body_95, try_except, call_solver, pbind, eval, modify, get, ret, print_line.
  rewrite Hsol, Hok. cbn [negb saved_signatures count_attempt]. rewrite Hu.
  eexists. split; [reflexivity|]. simpl. repeat split.
Qed.

Lemma uniqueness_filter_shape_error_witness :
  exists s',
    body_95 two_method_sweep 1 1 0 0.5 "BDF" 0x1p-10
      (save_signature ([1; 2]%float, [1; 2]%float) initial_filter_state)
      = (Ok tt, s') /\
    entries s' = [] /\
    saved_signatures s' = [([1; 2]%float, [1; 2]%float)] /\
    skipped_due_to_similarity s' = 0 /\
    total_attempts s' = 0 + 1 /\
    printed s' = [] ++ [ErrorLine "BDF" 0x1p-10 0 0.5 1 ValueError].
Proof.
  apply (uniqueness_filter_shape_error two_method_sweep 1 1 0 0.5 "BDF" 0x1p-10
           (save_signature ([1; 2]%float, [1; 2]%float) initial_filter_state)
           {| sol_t := [0; 0.5; 1]%float; sol_x := [1; 1.5; 2]%float;
              sol_y := [1; 0.75; 0.5]%float; sol_success := true |}
           [] [1; 2]%float [1; 2]%float []);
    try reflexivity; try (simpl; lia).
Defined.

(** ** The sweeps of 93 and 94 *)

Lemma sweep_archive_grid (G : globals) (with_x0 : bool) (s : archive_state) :
  sweep_archive G with_x0 s = for_each (grid_93 G) (step_archive G with_x0) s.
Proof.
  unfold sweep_archive, grid_93. rewrite for_each_flat_map.
  apply for_each_ext. intros alpha s1. rewrite for_each_flat_map.
  apply for_each_ext. intros gamma1 s2. rewrite for_each_flat_map.
  apply for_each_ext. intros gamma2 s3. rewrite for_each_flat_map.
  apply for_each_ext. intros m s4. rewrite for_each_map.
  apply for_each_ext. intros [x0 y0] s5. reflexivity.
Qed.

Lemma step_archive_run (G : globals) (with_x0 : bool) p (s : archive_state) :
  step_archive G with_x0 p s =
  (Ok tt, {| data := data s ++ archived G p;
             archive_out := archive_out s ++ reported G with_x0 p |}).
Proof.
  destruct p as [[[[alpha gamma1] gamma2] m] [x0 y0]].
  unfold step_archive, body_archive, archived, reported, try_except, call_solver,
    pbind, eval, modify, print_archive, append_data.
  destruct (solve_ivp G alpha gamma1 gamma2 x0 y0 m) as [sol|msg];
    cbn [data archive_out]; now rewrite app_nil_r.
Qed.

Lemma run_archive (G : globals) (with_x0 : bool) l : forall s,
  for_each l (step_archive G with_x0) s =
  (Ok tt, {| data := data s ++ flat_map (archived G) l;
             archive_out := archive_out s ++ flat_map (reported G with_x0) l |}).
Proof.
  induction l as [|p l IH]; intros s; simpl.
  - rewrite !app_nil_r. now destruct s.
  - unfold pbind. rewrite step_archive_run, IH. cbn [data archive_out].
    now rewrite !app_assoc.
Qed.

Lemma one_trace (G : globals) (with_x0 : bool) l :
  (length (flat_map (archived G) l) + length (flat_map (reported G with_x0) l))%nat
  = length l.
Proof.
  induction l as [|p l IH]; [reflexivity|].
  cbn [flat_map]. rewrite !length_app. cbn [length]. rewrite <- IH.
  destruct p as [[[[alpha gamma1] gamma2] m] [x0 y0]]. unfold archived, reported.
  destruct (solve_ivp G alpha gamma1 gamma2 x0 y0 m); simpl; lia.
Qed.

(** X12: the sweeps of 93 and 94 never stop early and leave exactly one trace of
    every grid point, in loop order: an entry in [data] when the integration
    returns, whether it succeeded or not (the entry records [sol.success]),
    and a printed error line when it raises. *)
Theorem sweep_archive_keeps_every_return (G : globals) (with_x0 : bool)
    (s : archive_state) :
  exists s',
    sweep_archive G with_x0 s = (Ok tt, s') /\
    data s' = data s ++ flat_map (archived G) (grid_93 G) /\
    archive_out s' = archive_out s ++ flat_map (reported G with_x0) (grid_93 G) /\
    (length (data s') + length (archive_out s') =
     length (data s) + length (archive_out s) +
     length (alpha_list G) * (length (gamma_1_list G) *
       (length (gamma_2_list G) * (length (all_methods G) *
          length (initial_conditions G)))))%nat /\
    (forall alpha gamma1 gamma2 m x0 y0 sol,
       In (alpha, gamma1, gamma2, m, (x0, y0)) (grid_93 G) ->
       solve_ivp G alpha gamma1 gamma2 x0 y0 m = Solved sol ->
       In {| arch_alpha := alpha; arch_gamma1 := gamma1; arch_gamma2 := gamma2;
             arch_method := m; arch_x0 := x0; arch_y0 := y0; arch_t := sol_t sol;
             arch_x := sol_x sol; arch_y := sol_y sol;
             arch_success := sol_success sol |} (data s')).
Proof.
  rewrite sweep_archive_grid, run_archive. eexists. split; [reflexivity|].
  cbn [data archive_out]. repeat split.
  - rewrite !length_app, <- length_grid_93.
    pose proof (one_trace G with_x0 (grid_93 G)). lia.
  - intros alpha gamma1 gamma2 m x0 y0 sol Hin Hsol.
    apply in_or_app. right. apply in_flat_map.
    exists (alpha, gamma1, gamma2, m, (x0, y0)). split; [exact Hin|].
    unfold archived. rewrite Hsol. now left.
Qed.

(** ** Reading a merged collection *)

Lemma dict_get_set_diff d m v m' :
  m' <> m -> dict_get (dict_set d m v) m' = dict_get d m'.
Proof.
  intros Hne. induction d as [|[m0 v0] d IH]; simpl.
  - destruct (String.eqb_spec m m'); [congruence|reflexivity].
  - destruct (String.eqb_spec m0 m) as [->|Hm]; simpl.
    + destruct (String.eqb_spec m m'); [congruence|reflexivity].
    + destruct (String.eqb m0 m'); [reflexivity|exact IH].
Qed.

Lemma key_eqb_left k1 k2 : key_eqb k1 k2 = true -> key_eqb k1 k1 = true.
Proof.
  intros H. apply (key_eqb_trans k1 k2 k1 H). now rewrite key_eqb_sym.
Qed.

Lemma lookup_merge_same rs k m t v :
  key_eqb k k = true -> lookup (merge_record rs k m t v) k m = Some v.
Proof.
  intros Hk. induction rs as [|r rs IH]; simpl.
  - rewrite key_of_new_record, Hk. destruct k as [[[[a b] c] d] e]. simpl.
    now rewrite String.eqb_refl.
  - destruct (key_eqb (key_of r) k) eqn:E; simpl.
    + now rewrite key_of_set_solution, E, dict_get_set_same.
    + now rewrite E.
Qed.

Lemma lookup_merge_other rs k m t v k' m' :
  key_eqb k k' = false \/ m' <> m ->
  lookup (merge_record rs k m t v) k' m' = lookup rs k' m'.
Proof.
  intros Hne. induction rs as [|r rs IH]; simpl.
  - rewrite key_of_new_record. destruct (key_eqb k k') eqn:E; [|reflexivity].
    destruct Hne as [|Hm]; [discriminate|].
    destruct k as [[[[a b] c] d] e]. simpl.
    destruct (String.eqb_spec m m'); [congruence|reflexivity].
  - destruct (key_eqb (key_of r) k) eqn:E; simpl.
    + rewrite key_of_set_solution.
      destruct (key_eqb (key_of r) k') eqn:E'; [|reflexivity].
      destruct Hne as [Hk|Hm]; [|now apply dict_get_set_diff].
      assert (key_eqb k k' = true).
      { apply (key_eqb_trans k (key_of r) k'); [|exact E'].
        now rewrite key_eqb_sym. }
      congruence.
    + destruct (key_eqb (key_of r) k'); [reflexivity|exact IH].
Qed.

(** X13: writing a solution into the collection and reading it back: for a key
    without NaN, the merge makes [solutions[m]] of that key the pair just
    written, and leaves what is read under every other key or method as it
    was. *)
Theorem merge_record_lookup rs k m t v :
  key_eqb k k = true ->
  lookup (merge_record rs k m t v) k m = Some v /\
  forall k' m', key_eqb k k' = false \/ m' <> m ->
    lookup (merge_record rs k m t v) k' m' = lookup rs k' m'.
Proof.
  intros Hk. split; [now apply lookup_merge_same|].
  intros k' m'. apply lookup_merge_other.
Qed.

Lemma merge_record_lookup_witness :
  lookup (merge_record [] (1, 1, 0, 0.5, 0x1p-10)%float "BDF" [0%float]
            ([1%float], [1%float]))
    (1, 1, 0, 0.5, 0x1p-10)%float "BDF" = Some ([1%float], [1%float]) /\
  forall k' m', key_eqb (1, 1, 0, 0.5, 0x1p-10)%float k' = false \/ m' <> "BDF"%string ->
    lookup (merge_record [] (1, 1, 0, 0.5, 0x1p-10)%float "BDF" [0%float]
              ([1%float], [1%float])) k' m' = lookup [] k' m'.
Proof.
  apply (merge_record_lookup [] (1, 1, 0, 0.5, 0x1p-10)%float "BDF" [0%float]
           ([1%float], [1%float])).
  reflexivity.
Defined.

(** X14: over a whole sequence of merges the last write wins: what is read under
    a key (without NaN) and a method is the pair of the last run merged for
    them. *)
Theorem merge_all_last_write rs runs1 k m t v runs2 :
  key_eqb k k = true ->
  (forall k' m' t' v', In (k', m', t', v') runs2 ->
     key_eqb k' k = false \/ m <> m') ->
  lookup (merge_all rs (runs1 ++ (k, m, t, v) :: runs2)) k m = Some v.
Proof.
  intros Hk Hlater. rewrite merge_all_app.
  change (merge_all ?a ((k, m, t, v) :: runs2))
    with (merge_all (merge_record a k m t v) runs2).
  pose proof (lookup_merge_same (merge_all rs runs1) k m t v Hk) as H.
  revert H. generalize (merge_record (merge_all rs runs1) k m t v).
  induction runs2 as [|[[[k' m'] t'] v'] runs2 IH]; intros rs0 H; [exact H|].
  change (merge_all rs0 ((k', m', t', v') :: runs2))
    with (merge_all (merge_record rs0 k' m' t' v') runs2).
  apply IH.
  - intros k2 m2 t2 v2 Hin. apply (Hlater k2 m2 t2 v2). now right.
  - rewrite lookup_merge_other; [exact H|].
    apply (Hlater k' m' t' v'). now left.
Qed.

Lemma merge_all_last_write_witness :
  lookup (merge_all [] ([((1, 1, 0, 0.5, 0x1p-10)%float, "BDF"%string, [0%float],
                          ([1%float], [1%float]))] ++
                        ((1, 1, 0, 0.5, 0x1p-10)%float, "BDF"%string, [0; 1]%float,
                          ([1; 2]%float, [1; 3]%float)) :: []))
    (1, 1, 0, 0.5, 0x1p-10)%float "BDF" = Some ([1; 2]%float, [1; 3]%float).
Proof.
  apply (merge_all_last_write [] _ (1, 1, 0, 0.5, 0x1p-10)%float "BDF" [0; 1]%float
           ([1; 2]%float, [1; 3]%float) []).
  - reflexivity.
  - intros k' m' t' v' [].
Defined.

Lemma dict_set_idempotent d m v : dict_set (dict_set d m v) m v = dict_set d m v.
Proof.
  induction d as [|[m' v'] d IH]; simpl.
  - now rewrite String.eqb_refl.
  - destruct (String.eqb m' m) eqn:E; simpl; rewrite E; [reflexivity|].
    now rewrite IH.
Qed.

Lemma merge_record_twice rs k m t v t' :
  key_eqb k k = true ->
  merge_record (merge_record rs k m t v) k m t' v = merge_record rs k m t v.
Proof.
  intros Hk. induction rs as [|r rs IH]; simpl.
  - rewrite key_of_new_record, Hk. destruct k as [[[[a c] d] e] f].
    unfold set_solution, new_record. simpl. now rewrite String.eqb_refl.
  - destruct (key_eqb (key_of r) k) eqn:E; simpl.
    + rewrite key_of_set_solution, E. unfold set_solution. simpl.
      now rewrite dict_set_idempotent.
    + now rewrite E, IH.
Qed.

(** X15: merging is idempotent: a run merged a second time under its key (without
    NaN) and method, whatever time array comes with it, leaves the collection
    as the first merge made it. *)
Theorem merge_record_idempotent rs k m t v t' :
  key_eqb k k = true ->
  merge_record (merge_record rs k m t v) k m t' v = merge_record rs k m t v.
Proof. apply merge_record_twice. Qed.

Lemma merge_record_idempotent_witness :
  merge_record (merge_record [] (1, 1, 0, 0.5, 0x1p-10)%float "BDF" [0%float]
                  ([1%float], [1%float]))
    (1, 1, 0, 0.5, 0x1p-10)%float "BDF" [0; 1]%float ([1%float], [1%float])
  = merge_record [] (1, 1, 0, 0.5, 0x1p-10)%float "BDF" [0%float]
      ([1%float], [1%float]).
Proof.
  apply (merge_record_idempotent [] (1, 1, 0, 0.5, 0x1p-10)%float "BDF" [0%float]
           ([1%float], [1%float]) [0; 1]%float).
  reflexivity.
Defined.

(** ** States outside the box *)

Lemma np_clip_idempotent (a lo hi : float) :
  is_nan lo = false -> is_nan hi = false -> (lo <? hi)%float = true ->
  np_clip (np_clip a lo hi) lo hi = np_clip a lo hi.
Proof.
  intros Nlo Nhi Hlh.
  assert (Hll : (lo <? lo)%float = false).
  { rewrite ltb_spec. unfold SFltb. rewrite SFcompare_refl; [reflexivity|].
    now rewrite <- is_nan_spec. }
  assert (Hhh : (hi <? hi)%float = false).
  { rewrite ltb_spec. unfold SFltb. rewrite SFcompare_refl; [reflexivity|].
    now rewrite <- is_nan_spec. }
  unfold np_clip, np_max, np_min.
  destruct (is_nan a) eqn:Na; cbn [orb].
  - rewrite Na. cbn [orb]. rewrite Na. cbn [orb]. now rewrite Na.
  - destruct (lo <? a)%float eqn:E1.
    + rewrite Na. cbn [orb]. destruct (a <? hi)%float eqn:E2.
      * rewrite Na, E1. cbn [orb]. now rewrite Na, E2.
      * rewrite Nhi, Hlh. cbn [orb]. now rewrite Nhi, Hhh.
    + rewrite Nlo, Hlh. cbn [orb]. rewrite Nlo, Hll. cbn [orb].
      now rewrite Nlo, Hlh.
Qed.

(** X16: the evaluator reads the state only through its clamp to
    [[1e-20, 1e20]]: for every state that is not NaN, inside the box or not
    (zero, negative and infinite values included), it returns what it
    returns at the clamped state; when [np.log] is finite on the box,
    [np.exp] maps [[-700, 700]] into [[2^-1011, 2^1010]], [alpha] lies in
    [[1e-14, 1]] and the decay rates are at most [2^900] in absolute value,
    both derivatives are finite. *)
Theorem get_rhs_any_state (np_exp np_log : float -> float)
    (alpha gamma1 gamma2 t x y : float) :
  (forall v, within lit_1e_20 lit_1e20 v -> is_finite (np_log v) = true) ->
  (forall c, within (- lit_700) lit_700 c -> within exp_lo exp_hi (np_exp c)) ->
  is_nan x = false -> is_nan y = false ->
  within alpha_min 1 alpha ->
  (abs gamma1 <=? gamma_max)%float = true ->
  (abs gamma2 <=? gamma_max)%float = true ->
  get_rhs np_exp np_log alpha gamma1 gamma2 t [x; y] =
    get_rhs np_exp np_log alpha gamma1 gamma2 t
      [np_clip x lit_1e_20 lit_1e20; np_clip y lit_1e_20 lit_1e20] /\
  exists dxdt dydt,
    get_rhs np_exp np_log alpha gamma1 gamma2 t [x; y] = Ok [dxdt; dydt] /\
    is_finite dxdt = true /\ is_finite dydt = true.
Proof.
  intros Hlog Hexp Nx Ny Ha Hg1 Hg2.
  destruct (truediv_alpha alpha Ha) as (inv_alpha & Hdiv & Hfin).
  assert (Cx : within lit_1e_20 lit_1e20 (np_clip x lit_1e_20 lit_1e20)).
  { apply np_clip_range; [exact Nx|reflexivity]. }
  assert (Cy : within lit_1e_20 lit_1e20 (np_clip y lit_1e_20 lit_1e20)).
  { apply np_clip_range; [exact Ny|reflexivity]. }
  unfold get_rhs.
  change (getitem [?a; ?c] 0) with (Ok a). change (getitem [?a; ?c] 1) with (Ok c).
  cbn [bind]. rewrite Hdiv. cbn [bind].
  rewrite !np_clip_idempotent by reflexivity.
  split; [reflexivity|].
  eexists. eexists. split; [reflexivity|].
  split; apply derivative_finite; assumption.
Qed.

Lemma get_rhs_any_state_witness :
  get_rhs unit_exp zero_log 0x1p-10 0.5 0.5 0 [-3; infinity]%float =
    get_rhs unit_exp zero_log 0x1p-10 0.5 0.5 0
      [np_clip (-3) lit_1e_20 lit_1e20; np_clip infinity lit_1e_20 lit_1e20]%float /\
  exists dxdt dydt,
    get_rhs unit_exp zero_log 0x1p-10 0.5 0.5 0 [-3; infinity]%float
      = Ok [dxdt; dydt] /\
    is_finite dxdt = true /\ is_finite dydt = true.
Proof.
  apply get_rhs_any_state.
  - intros v _. reflexivity.
  - intros c _. split; reflexivity.
  - reflexivity.
  - reflexivity.
  - split; reflexivity.
  - reflexivity.
  - reflexivity.
Defined.

(** ** Rounded results are valid binary64 values *)

Section Validity.

Variables prec emax : Z.
Hypothesis Hprec : 0 < prec.

Local Abbreviation emin := (SpecFloat.emin prec emax).
Local Abbreviation fexp := (SpecFloat.fexp prec emax).

Lemma fexp_ge_emin d : emin <= fexp d.
Proof. unfold SpecFloat.fexp. change IntDef.Z.max with Z.max. lia. Qed.

Lemma fexp_monotone d d' : d <= d' -> fexp d <= fexp d'.
Proof. unfold SpecFloat.fexp. change IntDef.Z.max with Z.max. lia. Qed.

Lemma Zdigits2_shiftr m n :
  0 < m -> 0 <= n -> 0 < Z.shiftr m n -> Zdigits2 (Z.shiftr m n) = Zdigits2 m - n.
Proof.
  intros Hm Hn Hs. rewrite !Zdigits2_log2 by lia.
  rewrite Z.log2_shiftr by lia.
  destruct (Z_lt_le_dec (Z.log2 m) n) as [Hlt|Hge]; [|lia].
  rewrite (proj2 (Z.shiftr_eq_0_iff m n)) in Hs; [lia|]. right. lia.
Qed.

Lemma Zdigits2_monotone a c : 0 < a -> a <= c -> Zdigits2 a <= Zdigits2 c.
Proof.
  intros Ha Hac. rewrite !Zdigits2_log2 by lia.
  pose proof (Z.log2_le_mono a c Hac). lia.
Qed.

Lemma binary_round_aux_valid s m e l :
  0 <= m -> e <= fexp (Zdigits2 m + e) ->
  SpecFloat.valid_binary prec emax (binary_round_aux prec emax s m e l) = true.
Proof using Hprec.
  intros Hm He.
  destruct (binary_round_aux_spec prec emax s m e l Hm) as (m2 & R & ->).
  cbv zeta.
  remember (fexp (Zdigits2 m + e)) as F eqn:EF.
  assert (HF : emin <= F) by (subst F; apply fexp_ge_emin).
  replace (Z.max 0 (F - e)) with (F - e) in * by lia.
  replace (e + (F - e)) with F in * by lia.
  remember (Z.shiftr m (F - e)) as m1 eqn:Em1.
  assert (Hm1 : 0 <= m1) by (subst m1; apply Z.shiftr_nonneg; exact Hm).
  assert (Hm2 : 0 <= m2) by lia.
  assert (HF2 : 0 < m2 -> F <= fexp (Zdigits2 m2 + F)).
  { intros Hpos. destruct (Z.eq_dec m1 0) as [H0|Hn0].
    - assert (F = emin); [|pose proof (fexp_ge_emin (Zdigits2 m2 + F)); lia].
      destruct (Z.eq_dec m 0) as [->|Hmn0].
      + change (Zdigits2 0) with 0 in *.
        unfold SpecFloat.fexp in *. change IntDef.Z.max with Z.max in *. lia.
      + rewrite Em1 in H0.
        apply Z.shiftr_eq_0_iff in H0. destruct H0 as [|[_ Hlog]]; [lia|].
        assert (Hd : Zdigits2 m = Z.log2 m + 1) by (apply Zdigits2_log2; lia).
        unfold SpecFloat.fexp in *. change IntDef.Z.max with Z.max in *. lia.
    - assert (Hd1 : Zdigits2 m1 = Zdigits2 m - (F - e)).
      { assert (0 < m).
        { destruct (Z.eq_dec m 0) as [->|]; [|lia].
          rewrite Z.shiftr_0_l in Em1. lia. }
        rewrite Em1. apply Zdigits2_shiftr; lia. }
      pose proof (Zdigits2_monotone m1 m2 ltac:(lia) ltac:(lia)).
      rewrite EF at 1. apply fexp_monotone. lia. }
  remember (Z.max 0 (fexp (Zdigits2 m2 + F) - F)) as n2 eqn:En2.
  destruct (Z.shiftr m2 n2) as [|p|p] eqn:E3; try reflexivity.
  destruct (F + n2 <=? emax - prec) eqn:Eb; [|reflexivity].
  unfold SpecFloat.valid_binary, bounded, canonical_mantissa.
  rewrite Eb, andb_true_r. apply Z.eqb_eq.
  assert (Hpos : 0 < m2).
  { destruct (Z.eq_dec m2 0) as [->|]; [|lia]. rewrite Z.shiftr_0_l in E3. lia. }
  specialize (HF2 Hpos).
  assert (Hn2 : n2 = fexp (Zdigits2 m2 + F) - F) by lia.
  assert (Hd3 : Zdigits2 (Z.shiftr m2 n2) = Zdigits2 m2 - n2).
  { apply Zdigits2_shiftr; try lia. }
  rewrite E3 in Hd3. change (Zdigits2 (Z.pos p)) with (Z.pos (digits2_pos p)) in Hd3.
  rewrite Hd3. replace (Zdigits2 m2 - n2 + (F + n2)) with (Zdigits2 m2 + F) by lia.
  lia.
Qed.

Lemma binary_round_valid s mx ex :
  SpecFloat.valid_binary prec emax (binary_round prec emax s mx ex) = true.
Proof using Hprec.
  unfold binary_round.
  pose proof (shl_align_spec mx ex (fexp (Z.pos (digits2_pos mx) + ex))) as H.
  destruct (shl_align mx ex (fexp (Z.pos (digits2_pos mx) + ex))) as [mz ez].
  destruct H as [He Hm].
  apply binary_round_aux_valid; [lia|].
  change (Zdigits2 (Z.pos mz)) with (Z.pos (digits2_pos mz)).
  assert (Hd : Z.pos (digits2_pos mz) + ez = Z.pos (digits2_pos mx) + ex).
  { rewrite !digits2_log2, Hm.
    rewrite Z.log2_mul_pow2 by lia. lia. }
  rewrite Hd. lia.
Qed.

End Validity.

Lemma binary64_normalize_valid (z : Z) :
  valid_binary (binary_normalize prec emax z 0 false) = true.
Proof.
  destruct z as [|p|p]; [reflexivity| |]; apply binary_round_valid; reflexivity.
Qed.

Lemma binary64_normalize_nonzero (z : Z) :
  z <> 0 ->
  match binary_normalize prec emax z 0 false with
  | S754_finite _ _ _ | S754_infinity _ => True
  | _ => False
  end.
Proof.
  intros Hz. destruct z as [|p|p]; [congruence| |]; unfold binary_normalize.
  - pose proof (binary64_round_above false p 0) as H.
    assert (-1073 <= Z.pos (digits2_pos p) + 0) by lia.
    specialize (H ltac:(assumption)).
    destruct (binary_round prec emax false p 0); simpl in H; auto.
  - pose proof (binary64_round_above true p 0) as H.
    assert (-1073 <= Z.pos (digits2_pos p) + 0) by lia.
    specialize (H ltac:(assumption)).
    destruct (binary_round prec emax true p 0); simpl in H; auto.
Qed.

(** ** Cell 4: the percentage *)

Lemma float_of_int_zero (n : Z) (f : float) :
  float_of_int n = Some f -> (f =? 0)%float = true -> n = 0.
Proof.
  unfold float_of_int. intros Hf Hz.
  destruct (Z.eq_dec n 0) as [|Hn]; [assumption|exfalso].
  pose proof (binary64_normalize_valid n) as Hv.
  pose proof (binary64_normalize_nonzero n Hn) as Hnz.
  destruct (binary_normalize prec emax n 0 false) as [s|s| |s m e] eqn:E;
    try contradiction; try discriminate.
  assert (Hf' : f = SF2Prim (S754_finite s m e)) by (injection Hf; auto).
  rewrite Hf', eqb_spec, (Prim2SF_SF2Prim _ Hv) in Hz.
  change (Prim2SF 0) with (S754_zero false) in Hz. destruct s; discriminate.
Qed.

Lemma percent_zero_division (part whole : Z) :
  percent part whole = inr ZeroDivision -> whole = 0.
Proof.
  unfold percent.
  destruct (float_of_int part) as [p|]; [|discriminate].
  destruct (float_of_int whole) as [w|] eqn:Ew; [|discriminate].
  destruct (w =? 0)%float eqn:Ez; [|discriminate].
  intros _. exact (float_of_int_zero whole w Ew Ez).
Qed.

Lemma stored_points_positive m rs :
  Forall (single_solution m) rs -> rs <> [] -> 0 < stored_points rs.
Proof.
  intros H Hne. destruct rs as [|r rs]; [congruence|].
  inversion H as [|? ? (x & y & _ & _ & _ & Hr) Hrs]; subst.
  assert (0 <= stored_points rs).
  { clear. induction rs as [|r0 rs IH]; simpl; lia. }
  simpl. lia.
Qed.

(** X17: after the sweep of 98_DOP853.ipynb, Cell 4 pickles the collection and
    prints the number of rows; when no run was stored, the percentage then
    divides by zero and the cell ends with ZeroDivisionError instead of the
    second line, and this is the only way in which it divides by zero. *)
Theorem cell4_98_zero_division (G : globals) :
  let s' := snd (sweep_98 G initial_state) in
  pickle (cell4_98 s') = records s' /\
  (records s' = [] ->
     cell4_98 s' =
       {| pickle := []; lines := [SavedRows 0]; raised := Some ZeroDivision |}) /\
  (records s' <> [] -> raised (cell4_98 s') <> Some ZeroDivision).
Proof.
  intros s'. subst s'. rewrite sweep_98_grid.
  destruct (for_each_accumulate (step_98 G) (grows_98 (method G))
              (grows_98_refl _) (grows_98_trans _))
    with (l := grid_98 G) (s := initial_state)
    as (s' & Hs' & new & Hrec & Hcount & Hkept & Hskip & Hsame & Hshape).
  { intros [[[[x0 y0] gamma1] gamma2] alpha] s0.
    destruct (body_98_counts G x0 y0 gamma1 gamma2 alpha s0) as (s1 & n & Hb & H).
    exists s1. split; [exact Hb|]. exists n. exact H. }
  rewrite Hs'. cbn [snd]. cbn [records kept_total skipped_total initial_state app] in *.
  split; [|split].
  - unfold cell4_98. destruct (percent _ _); reflexivity.
  - intros Hnil. rewrite Hnil in Hrec. subst new. specialize (Hsame eq_refl).
    unfold cell4_98. rewrite Hnil, Hkept, Hsame. reflexivity.
  - intros Hne Hr. rewrite Hrec in Hne.
    pose proof (stored_points_positive _ _ Hshape Hne) as Hpos.
    unfold cell4_98 in Hr.
    destruct (percent (skipped_total s') (kept_total s' + skipped_total s'))
      as [p|e] eqn:Ep; cbn [raised] in Hr; [discriminate|].
    injection Hr as ->. apply percent_zero_division in Ep. lia.
Qed.

(** X18: after the sweep of 95_save_for_streamlit_unique_x_y.ipynb, Cell 4
    pickles the entries and prints their number and the number of attempts; the
    percentage of skipped runs then divides by zero exactly when the grid is
    empty, and the cell ends with ZeroDivisionError instead of the third
    line. *)
Theorem cell4_95_zero_division (G : globals) :
  let s' := snd (sweep_95 G initial_filter_state) in
  pickle (cell4_95 s') = entries s' /\
  (grid_96 G = [] ->
     cell4_95 s' =
       {| pickle := []; lines := [SavedEntries 0; TotalAttempts 0];
          raised := Some ZeroDivision |}) /\
  (grid_96 G <> [] -> raised (cell4_95 s') <> Some ZeroDivision).
Proof.
  intros s'. subst s'. split; [|split].
  - unfold cell4_95. destruct (percent _ _); reflexivity.
  - intros Hnil. rewrite sweep_95_grid, Hnil. reflexivity.
  - intros Hne Hr. rewrite sweep_95_grid in Hr.
    destruct (for_each_fold total_attempts (fun _ n => n + 1) (step_95 G) (grid_96 G))
      with (s := initial_filter_state) as (s1 & H1 & T1).
    { intros [[[[[x0 y0] gamma1] gamma2] alpha] m] s0.
      destruct (body_95_counts G x0 y0 gamma1 gamma2 m alpha s0) as (s' & Hb & Ht & _).
      exists s'. split; assumption. }
    rewrite H1 in Hr. cbn [snd] in Hr. rewrite length_grid_fold in T1.
    cbn [total_attempts initial_filter_state] in T1.
    unfold cell4_95 in Hr.
    destruct (percent (skipped_due_to_similarity s1) (total_attempts s1))
      as [p|e] eqn:Ep; cbn [raised] in Hr; [discriminate|].
    injection Hr as ->. apply percent_zero_division in Ep.
    destruct (grid_96 G); [congruence|]. cbn [length] in T1. lia.
Qed.

(** ** The sweep of 99 against the sweep of 98 *)

Lemma sweep_99_grid (R : float -> float) (G : globals) (s : sweep_state_99) :
  sweep_99 R G s = for_each (grid_98 G) (step_99 R G) s.
Proof.
  unfold sweep_99, grid_98. rewrite for_each_flat_map.
  apply for_each_ext. intros [x0 y0] s1. rewrite for_each_flat_map.
  apply for_each_ext. intros gamma1 s2. rewrite for_each_flat_map.
  apply for_each_ext. intros gamma2 s3. rewrite for_each_map. reflexivity.
Qed.

Lemma body_99_in_step (R : float -> float) (G : globals)
    (x0 y0 gamma1 gamma2 alpha : float) (s : sweep_state) (s99 : sweep_state_99) :
  in_step R s s99 ->
  exists s' s99',
    body_98 G x0 y0 gamma1 gamma2 alpha s = (Ok tt, s') /\
    body_99 R G x0 y0 gamma1 gamma2 alpha s99 = (Ok tt, s99') /\
    in_step R s' s99'.
Proof.
  intros (Hr & Hc & Hs & Hk).
  unfold body_98, body_99, try_except, call_solver, pbind, eval.
  destruct (solve_ivp G alpha gamma1 gamma2 x0 y0 (method G)) as [sol|msg].
  2:{ eexists. eexists. split; [reflexivity|]. split; [reflexivity|].
      unfold in_step. simpl. auto. }
  destruct (sol_success sol) eqn:Hok.
  2:{ eexists. eexists. split; [reflexivity|]. split; [reflexivity|].
      unfold in_step. simpl. auto. }
  pose proof (compressed_not_fuel G sol) as Hnf. unfold compressed in *.
  destruct (compress_trajectory _ _ _ _) as [idx|e|]; cbn [bind] in *;
    [|eexists; eexists; split; [reflexivity|]; split; [reflexivity|];
      unfold in_step; simpl; auto
     |congruence].
  destruct (take (sol_x sol) idx) as [xf|e|]; cbn [bind] in *;
    [|eexists; eexists; split; [reflexivity|]; split; [reflexivity|];
      unfold in_step; simpl; auto
     |congruence].
  destruct (take (sol_y sol) idx) as [yf|e|]; cbn [bind] in *;
    [|eexists; eexists; split; [reflexivity|]; split; [reflexivity|];
      unfold in_step; simpl; auto
     |congruence].
  destruct (take (sol_t sol) idx) as [tf|e|]; cbn [bind] in *;
    [|eexists; eexists; split; [reflexivity|]; split; [reflexivity|];
      unfold in_step; simpl; auto
     |congruence].
  unfold modify, get, print, print_99, ret.
  cbn [solution_count set_solution_count set_records set_skipped_total
       set_kept_total solution_count_99].
  rewrite Hc.
  destruct ((solution_count s + 1) mod 1000 =? 0);
    (eexists; eexists; split; [reflexivity|]; split; [reflexivity|];
     unfold in_step;
     cbn [records solution_count skipped_total kept_total stdout records_99
          solution_count_99 skipped_total_99 kept_total_99
          set_solution_count set_records set_skipped_total set_kept_total];
     rewrite Hr, Hs, Hk, map_app; repeat split; reflexivity).
Qed.

Lemma for_each_in_step {S1 S2 A} (body1 : A -> prog S1 unit)
    (body2 : A -> prog S2 unit) (R : S1 -> S2 -> Prop) :
  (forall a s1 s2, R s1 s2 ->
     exists s1' s2', body1 a s1 = (Ok tt, s1') /\ body2 a s2 = (Ok tt, s2') /\
                     R s1' s2') ->
  forall l s1 s2, R s1 s2 ->
    exists s1' s2', for_each l body1 s1 = (Ok tt, s1') /\
                    for_each l body2 s2 = (Ok tt, s2') /\ R s1' s2'.
Proof.
  intros Hstep. induction l as [|a l IH]; intros s1 s2 HR.
  - exists s1, s2. repeat split; auto.
  - cbn [for_each]. unfold pbind.
    destruct (Hstep a s1 s2 HR) as (t1 & t2 & -> & -> & HR').
    apply IH. exact HR'.
Qed.

(** X19: the sweep of 99_DOP853_round3_float32.ipynb is the sweep of 98 with
    rounded arrays: on the same integrator and grids both run to the end with
    the same [solution_count], [kept_total] and [skipped_total], and the
    records of 99 are the records of 98, in the same order, with [t], [x] and
    [y] rounded element by element. *)
Theorem sweep_99_rounds_sweep_98 (round3_float32 : float -> float) (G : globals) :
  exists s s99,
    sweep_98 G initial_state = (Ok tt, s) /\
    sweep_99 round3_float32 G initial_state_99 = (Ok tt, s99) /\
    records_99 s99 = map (round_record round3_float32) (records s) /\
    solution_count_99 s99 = solution_count s /\
    skipped_total_99 s99 = skipped_total s /\
    kept_total_99 s99 = kept_total s.
Proof.
  rewrite sweep_98_grid, sweep_99_grid.
  apply (for_each_in_step (step_98 G) (step_99 round3_float32 G)
           (in_step round3_float32)).
  - intros [[[[x0 y0] gamma1] gamma2] alpha] s1 s2 HR.
    now apply body_99_in_step.
  - repeat split.
Qed.

(** ** A sweep that stores nothing *)

Lemma run_grid_95_grows (G : globals)
    (l : list (float * float * float * float * float * string)) (s : filter_state) :
  exists s', for_each l (step_95 G) s = (Ok tt, s') /\ grows_95 s s'.
Proof.
  apply (for_each_accumulate (step_95 G) grows_95 grows_95_refl grows_95_trans).
  intros [[[[[x0 y0] gamma1] gamma2] alpha] m] s0.
  destruct (body_95_counts G x0 y0 gamma1 gamma2 m alpha s0) as (s' & Hb & _ & Hg & _).
  exists s'. split; assumption.
Qed.

Lemma sweep_95_nothing_stored (G : globals)
    (l : list (float * float * float * float * float * string)) : forall s,
  entries s = [] -> saved_signatures s = [] ->
  (entries (snd (for_each l (step_95 G) s)) = [] <->
   forall x0 y0 gamma1 gamma2 alpha m,
     In (x0, y0, gamma1, gamma2, alpha, m) l ->
     failed (solve_ivp G alpha gamma1 gamma2 x0 y0 m) = true).
Proof.
  induction l as [|[[[[[x0 y0] gamma1] gamma2] alpha] m] l IH]; intros s He Hs.
  - simpl. split; [intros _ ? ? ? ? ? ? []|auto].
  - cbn [for_each]. unfold pbind.
    change (step_95 G (x0, y0, gamma1, gamma2, alpha, m))
      with (body_95 G x0 y0 gamma1 gamma2 m alpha).
    destruct (failed (solve_ivp G alpha gamma1 gamma2 x0 y0 m)) eqn:Hf.
    + destruct (body_95_run G x0 y0 gamma1 gamma2 m alpha s)
        as (s1 & Hb & _ & _ & Hfail).
      destruct (Hfail Hf) as (He1 & Hs1 & _).
      rewrite Hb. rewrite (IH s1) by congruence. split.
      * intros H a c g1 g2 al me [[= <- <- <- <- <- <-]|Hin]; [exact Hf|].
        now apply H.
      * intros H a c g1 g2 al me Hin. apply H. now right.
    + unfold failed in Hf.
      destruct (solve_ivp G alpha gamma1 gamma2 x0 y0 m) as [sol|msg] eqn:Hsol;
        [|discriminate].
      apply negb_false_iff in Hf.
      assert (Hu : check_unique (L := np G) (epsilon G) (sol_x sol) (sol_y sol)
                     (saved_signatures s) = Ok true) by now rewrite Hs.
      destruct (body_95_success G x0 y0 gamma1 gamma2 m alpha s sol true Hsol Hf Hu)
        as (s1 & Hb & _ & _ & He1 & _).
      rewrite Hb.
      destruct (run_grid_95_grows G l s1) as (s2 & H2 & new & He2 & _).
      rewrite H2. cbn [snd]. split.
      * intros Hnil. rewrite He2, He1, He in Hnil. discriminate.
      * intros H. specialize (H x0 y0 gamma1 gamma2 alpha m (or_introl eq_refl)).
        unfold failed in H. rewrite Hsol, Hf in H. discriminate.
Qed.

Lemma in_grid_96 (G : globals) x0 y0 gamma1 gamma2 alpha m :
  In (x0, y0, gamma1, gamma2, alpha, m) (grid_96 G) <->
  In (x0, y0) (initial_conditions G) /\ In gamma1 (gamma_1_list G) /\
  In gamma2 (gamma_2_list G) /\ In m (all_methods G) /\ In alpha (alpha_list G).
Proof.
  unfold grid_96. rewrite in_flat_map. split.
  - intros ([a c] & Hic & H). rewrite in_flat_map in H.
    destruct H as (g1 & H1 & H). rewrite in_flat_map in H.
    destruct H as (g2 & H2 & H). rewrite in_flat_map in H.
    destruct H as (me & Hm & H). rewrite in_map_iff in H.
    destruct H as (al & [= <- <- <- <- <- <-] & Ha). auto.
  - intros (Hic & H1 & H2 & Hm & Ha). exists (x0, y0). split; [exact Hic|].
    rewrite in_flat_map. exists gamma1. split; [exact H1|].
    rewrite in_flat_map. exists gamma2. split; [exact H2|].
    rewrite in_flat_map. exists m. split; [exact Hm|].
    rewrite in_map_iff. exists alpha. split; [reflexivity|exact Ha].
Qed.

(** X20: the sweep of 95_save_for_streamlit_unique_x_y.ipynb stores no entry
    exactly when every integration of the grid failed (raised, or returned
    [success = False]): the first run that succeeds meets no saved signature
    and is always stored. *)
Theorem sweep_95_empty_iff_all_failed (G : globals) :
  entries (snd (sweep_95 G initial_filter_state)) = [] <->
  forall x0 y0 gamma1 gamma2 alpha m,
    In (x0, y0) (initial_conditions G) -> In gamma1 (gamma_1_list G) ->
    In gamma2 (gamma_2_list G) -> In m (all_methods G) -> In alpha (alpha_list G) ->
    failed (solve_ivp G alpha gamma1 gamma2 x0 y0 m) = true.
Proof.
  rewrite sweep_95_grid, sweep_95_nothing_stored by reflexivity. split.
  - intros H x0 y0 gamma1 gamma2 alpha m Hic H1 H2 Hm Ha.
    apply H. apply in_grid_96. auto.
  - intros H x0 y0 gamma1 gamma2 alpha m Hin.
    apply in_grid_96 in Hin. destruct Hin as (Hic & H1 & H2 & Hm & Ha). auto.
Qed.
